(** * lsd: fragment extraction, per-block fragment ids and the region adjacency graph

    A shallow embedding of [lsd/fragments.py], [lsd/parallel_fragments.py]
    and [lsd/rag.py].

    Conventions.
    - A numpy array is a nested list ([nd]): indexing along the leading axis
      is list lookup, [a[z] = b] is list update, elementwise operations are
      maps.  Labels are integers ([Z]); where the source fixes the dtype to
      [np.uint64] the reduction modulo [2^64] is written out.
    - Python exceptions are the [Raise] branch of [result].
    - mahotas, scipy, waterz, daisy's block scheduler and the RAG store are
      external to the repository; they enter as interfaces (type classes)
      whose members the embedded functions call.
    - Python floats are an abstract type with the operations the source
      uses ([FloatOps]); no statement depends on rounding. *)

From Stdlib Require Import ZArith List Lia Bool String.
From stdpp Require Import gmap strings list fin_maps fin_sets sorting pretty.

Local Open Scope Z_scope.

(** ** Python exceptions *)

Module Py.

Inductive exn : Type :=
| UnboundLocalError (name : string)
| IndexError
| KeyError (key : string)
| ValueError
| StopIteration
| ZeroDivisionError
| AssertionError
| NetworkXError
(* not a Python exception: the fuel of a loop of the embedding ran out *)
| OutOfFuel.

Inductive result (A : Type) : Type :=
| Return (a : A)
| Raise (e : exn).
Arguments Return {A} a.
Arguments Raise {A} e.

Definition rbind {A B} (m : result A) (f : A → result B) : result B :=
  match m with
  | Return a => f a
  | Raise e => Raise e
  end.

Definition of_option {A} (e : exn) (o : option A) : result A :=
  match o with
  | Some a => Return a
  | None => Raise e
  end.

#[export] Instance result_ret : MRet result := @Return.
#[export] Instance result_bind : MBind result := λ A B f m, rbind m f.

(** [[f(x) for x in l]], stopping at the first exception. *)
Fixpoint mapM {A B} (f : A → result B) (l : list A) : result (list B) :=
  match l with
  | [] => Return []
  | x :: l' => rbind (f x) (λ y, rbind (mapM f l') (λ ys, Return (y :: ys)))
  end.

(** Reading a local variable that no executed assignment has bound. *)
Definition read_local {A} (name : string) (v : option A) : result A :=
  of_option (UnboundLocalError name) v.

End Py.
Export Py.

(** ** numpy arrays as nested lists *)

Module Np.

#[warnings="-register-all"]
Inductive nd (A : Type) : Type :=
| Leaf (a : A)
| Node (l : list (nd A)).
Arguments Leaf {A} a.
Arguments Node {A} l.

Section Ops.
Context {A B C : Type}.

(** Elementwise application, [f(a)]. *)
Fixpoint nd_map (f : A → B) (a : nd A) : nd B :=
  match a with
  | Leaf x => Leaf (f x)
  | Node l => Node (List.map (nd_map f) l)
  end.

(** All elements, in C order ([a.flat]). *)
Fixpoint elems (a : nd A) : list A :=
  match a with
  | Leaf x => [x]
  | Node l => List.concat (List.map elems l)
  end.

(** [a.shape]; the shape of an empty axis ends there. *)
Fixpoint shape (a : nd A) : list nat :=
  match a with
  | Leaf _ => []
  | Node l =>
      length l :: match l with
                  | [] => []
                  | x :: _ => shape x
                  end
  end.

(** [a[i]] along the leading axis. *)
Definition getitem (a : nd A) (i : nat) : result (nd A) :=
  match a with
  | Leaf _ => Raise IndexError
  | Node l => of_option IndexError (l !! i)
  end.

(** The element at a full index tuple. *)
Fixpoint at_index (p : list nat) (a : nd A) : option A :=
  match p, a with
  | [], Leaf x => Some x
  | i :: p', Node l =>
      match l !! i with
      | Some x => at_index p' x
      | None => None
      end
  | _, _ => None
  end.

(** Index tuples and elements, in C order ([np.ndenumerate]). *)
Fixpoint items (a : nd A) : list (list nat * A) :=
  match a with
  | Leaf x => [([], x)]
  | Node l =>
      List.concat
        (imap (λ i x, List.map (λ pv, (i :: pv.1, pv.2)) x)
              (List.map items l))
  end.

(** Elementwise binary operation on arrays of one shape; numpy raises
    [ValueError] when the operands cannot be matched (broadcasting is
    not used by the embedded code). *)
Fixpoint nd_zip_with (f : A → B → C) (a : nd A) (b : nd B) : result (nd C) :=
  match a, b with
  | Leaf x, Leaf y => Return (Leaf (f x y))
  | Node la, Node lb =>
      rbind
        ((fix go (la : list (nd A)) (lb : list (nd B)) : result (list (nd C)) :=
            match la, lb with
            | [], [] => Return []
            | x :: la', y :: lb' =>
                rbind (nd_zip_with f x y) (λ z,
                rbind (go la' lb') (λ zs, Return (z :: zs)))
            | _, _ => Raise ValueError
            end) la lb)
        (λ l, Return (Node l))
  | _, _ => Raise ValueError
  end.

End Ops.

Inductive dtype : Type := dtype_uint8 | dtype_uint64 | dtype_float32 | dtype_float64.

(** [np.zeros(shape)] *)
Fixpoint zeros {A} (zero : A) (s : list nat) : nd A :=
  match s with
  | [] => Leaf zero
  | n :: s' => Node (replicate n (zeros zero s'))
  end.

(** Conversion of an integer to [np.uint64]. *)
Definition uint64 (z : Z) : Z := z mod 2 ^ 64.

Definition astype_uint64 (a : nd Z) : nd Z := nd_map uint64 a.

(** [a[i] = b] on a [uint64] array: the row is replaced by [b], converted. *)
Definition setitem_uint64 (a : nd Z) (i : nat) (b : nd Z) : result (nd Z) :=
  match a with
  | Leaf _ => Raise IndexError
  | Node l =>
      match l !! i with
      | None => Raise IndexError
      | Some old =>
          if decide (shape old = shape b)
          then Return (Node (<[i := astype_uint64 b]> l))
          else Raise ValueError
      end
  end.

(** [a[:] = b] on a [uint64] array. *)
Definition setall_uint64 (a b : nd Z) : result (nd Z) :=
  if decide (shape a = shape b)
  then Return (astype_uint64 b)
  else Raise ValueError.

(** [a.max()] of an integer array; numpy raises on an empty array. *)
Definition amax (a : nd Z) : result Z :=
  match elems a with
  | [] => Raise ValueError
  | x :: xs => Return (foldr Z.max x xs)
  end.

(** Basic slicing [a[b0:e0, b1:e1, ...]], one [(begin, end)] pair per
    leading axis; as in numpy, a slice that runs past the end is cut. *)
Fixpoint nd_slice {A} (ranges : list (nat * nat)) (a : nd A) : nd A :=
  match ranges, a with
  | (b, e) :: rs, Node l =>
      Node (List.map (nd_slice rs) (take (e - b) (drop b l)))
  | _, _ => a
  end.

(** The array of shape [s] whose element at index [p] is [f p]. *)
Fixpoint tabulate {A} (s : list nat) (f : list nat → A) : nd A :=
  match s with
  | [] => Leaf (f [])
  | n :: s' => Node (List.map (λ i, tabulate s' (λ p, f (i :: p))) (seq 0 n))
  end.

(** [np.repeat(a, k, axis)] *)
Fixpoint nd_repeat {A} (k : nat) (axis : nat) (a : nd A) : nd A :=
  match a with
  | Leaf x => Leaf x
  | Node l =>
      match axis with
      | O => Node (List.concat (List.map (replicate k) l))
      | S axis' => Node (List.map (nd_repeat k axis') l)
      end
  end.

(** The index in the whole array of the entry at [p] of
    [a[b0:e0, b1:e1, ...]]. *)
Definition shift_index (ranges : list (nat * nat)) (p : list nat) : list nat :=
  imap (λ d i, (i + default 0 (fst <$> ranges !! d))%nat) p.

(** The value of an assignment that has more axes than its target loses
    leading axes of length 1. *)
Fixpoint drop_leading_ones {A} (k : nat) (b : nd A) : result (nd A) :=
  match k with
  | O => Return b
  | S k' =>
      match b with
      | Node [x] => drop_leading_ones k' x
      | _ => Raise ValueError
      end
  end.

(** numpy's broadcasting of a value to the shape [s] of the target of an
    assignment: axes are matched from the last one on, a missing leading
    axis is added and an axis of length 1 is repeated. *)
Fixpoint broadcast_to {A} (s : list nat) (b : nd A) : result (nd A) :=
  match s with
  | [] =>
      match b with
      | Leaf _ => Return b
      | Node _ => Raise ValueError
      end
  | n :: s' =>
      if decide (length (shape b) ≤ length s')%nat then
        rbind (broadcast_to s' b) (λ r, Return (Node (replicate n r)))
      else
        match b with
        | Leaf _ => Raise ValueError
        | Node l =>
            if decide (length l = n) then
              rbind (mapM (broadcast_to s') l) (λ rows, Return (Node rows))
            else
              match l with
              | [x] =>
                  rbind (broadcast_to s' x) (λ r, Return (Node (replicate n r)))
              | _ => Raise ValueError
              end
        end
  end.

(** [a[i] = b] with broadcasting, and the conversion [cast] to the dtype
    of [a]. *)
Definition setitem_broadcast {A} (cast : A → A) (a : nd A) (i : nat) (b : nd A)
  : result (nd A) :=
  match a with
  | Leaf _ => Raise IndexError
  | Node l =>
      match l !! i with
      | None => Raise IndexError
      | Some old =>
          b ← drop_leading_ones (length (shape b) - length (shape old)) b;
          b ← broadcast_to (shape old) b;
          Return (Node (<[i := nd_map cast b]> l))
      end
  end.

(** All rows of the array (the entries along its leading axis) have one
    shape, as the rows of a numpy array have. *)
Definition rows_of_one_shape {A} (a : nd A) : Prop :=
  ∀ (z1 z2 : nat) (r1 r2 : nd A),
    getitem a z1 = Return r1 → getitem a z2 = Return r2 → shape r1 = shape r2.

End Np.
Export Np.

(** ** lsd/fragments.py *)

Module Fragments.

(** Python floats, as far as the source computes with them. *)
Class FloatOps : Type := {
  float : Type;
  f_of_Z : Z → float;
  f_half : float;
  f_add : float → float → float;
  f_sub : float → float → float;
  f_mul : float → float → float;
  f_div : float → float → float;
  f_max : float → float → float;
  f_ltb : float → float → bool;
  f_eqb : float → float → bool;
  f_isnan : float → bool
}.

(** The library functions the module calls. *)
Class Primitives `{FloatOps} : Type := {
  mahotas_distance : nd bool → nd float;
  mahotas_regmax : nd float → nd bool;
  mahotas_label : nd bool → nd Z * Z;
  mahotas_cwatershed : nd float → nd Z → nd Z;
  distance_transform_edt : nd bool → nd float;
  maximum_filter : nd float → Z → nd float;
  (* affs, thresholds, fragments; one yielded array per list entry *)
  waterz_agglomerate : nd float → list float → nd Z → list (nd Z)
}.

(** What is assumed of mahotas where a statement says so: [label] numbers
    the components from 1 up to the count it returns, and the watershed
    gives every voxel the label of one of the markers, or 0. *)
Class PrimitivesSpec `{P : Primitives} : Prop := {
  label_count : ∀ b, 0 ≤ (mahotas_label b).2;
  label_range : ∀ b l,
    l ∈ elems (mahotas_label b).1 → 0 ≤ l ≤ (mahotas_label b).2;
  cwatershed_labels : ∀ s m l,
    l ∈ elems (mahotas_cwatershed s m) → l = 0 ∨ l ∈ elems m
}.

(** Library calls are recorded, in order, next to the result. *)
Inductive call : Type :=
| Call_mahotas_distance
| Call_mahotas_regmax
| Call_mahotas_label
| Call_mahotas_cwatershed
| Call_distance_transform_edt
| Call_maximum_filter
| Call_waterz_agglomerate.

Definition M (A : Type) : Type := (list call * result A)%type.

Definition ret {A} (a : A) : M A := ([], Return a).

Definition lift {A} (r : result A) : M A := ([], r).

Definition invoke {A} (c : call) (a : A) : M A := ([c], Return a).

Definition bind {A B} (m : M A) (f : A → M B) : M B :=
  match m with
  | (t, Return a) => let '(t', r) := f a in (t ++ t', r)
  | (t, Raise e) => (t, Raise e)
  end.

#[export] Instance M_ret : MRet M := @ret.
#[export] Instance M_bind : MBind M := λ A B f m, bind m f.

(** A tuple returned by the extraction functions: [(fragments, max_id)]
    or [(fragments, max_id, seeds)]. *)
Inductive ret_tuple : Type :=
| Ret2 (fragments : nd Z) (n : Z)
| Ret3 (fragments : nd Z) (n : Z) (seeds : nd Z).

Definition ret_0 (r : ret_tuple) : nd Z :=
  match r with Ret2 f _ | Ret3 f _ _ => f end.

Definition ret_1 (r : ret_tuple) : Z :=
  match r with Ret2 _ n | Ret3 _ n _ => n end.

Record affinities `{FloatOps} : Type := {
  affs_dtype : dtype;
  affs_values : nd float
}.

Section WithPrimitives.
Context `{P : Primitives}.

(** [a.max()] of a float array. *)
Definition fmax (a : nd float) : result float :=
  match elems a with
  | [] => Raise ValueError
  | x :: xs => Return (foldr f_max x xs)
  end.

(** [np.mean(a, axis=0)] *)
Definition mean_axis0 (a : nd float) : result (nd float) :=
  match a with
  | Leaf _ => Raise ValueError
  | Node [] => Return (Leaf (f_div (f_of_Z 0) (f_of_Z 0)))
  | Node (x :: xs) =>
      rbind
        (foldl (λ acc y, rbind acc (λ s, nd_zip_with f_add s y)) (Return x) xs)
        (λ s, Return (nd_map (λ v, f_div v (f_of_Z (Z.of_nat (length (x :: xs))))) s))
  end.

Definition get_seeds (boundary : nd float) (next_id : Z) : M (nd Z * Z) :=
  distance ← invoke Call_mahotas_distance
                (mahotas_distance (nd_map (λ v, f_ltb v f_half) boundary));
  maxima ← invoke Call_mahotas_regmax (mahotas_regmax distance);
  '(seeds, num_seeds) ← invoke Call_mahotas_label (mahotas_label maxima);
  (* seeds += next_id *)
  let seeds := nd_map (λ s, s + next_id) seeds in
  (* seeds[seeds==next_id] = 0 *)
  let seeds := nd_map (λ s, if decide (s = next_id) then 0 else s) seeds in
  ret (seeds, num_seeds).

Definition watershed_from_boundary_distance
    (boundary_distances : nd float) (return_seeds : bool) (id_offset : Z)
  : M ret_tuple :=
  max_filtered ← invoke Call_maximum_filter
                    (maximum_filter boundary_distances 10);
  maxima ← lift (nd_zip_with f_eqb max_filtered boundary_distances);
  '(seeds, n) ← invoke Call_mahotas_label (mahotas_label maxima);
  if decide (n = 0) then
    ret (Ret2 (zeros 0 (shape boundary_distances)) id_offset)
  else
    (* seeds[seeds!=0] += id_offset *)
    let seeds := nd_map (λ s, if decide (s ≠ 0) then s + id_offset else s) seeds in
    top ← lift (fmax boundary_distances);
    fragments ← invoke Call_mahotas_cwatershed
                   (mahotas_cwatershed
                      (nd_map (λ v, f_sub top v) boundary_distances) seeds);
    let r := Ret2 (astype_uint64 fragments) (n + id_offset) in
    if return_seeds
    then ret (Ret3 (ret_0 r) (ret_1 r) (astype_uint64 seeds))
    else ret r.

(** One pass of the loop [for z in range(depth)] of
    [watershed_from_affinities], with [return_seeds] false. *)
Definition xy_slice (use_mahotas : bool) (max_affinity_value : float)
    (mean_affs : nd float) (z : nat) (id_offset : Z) : M ret_tuple :=
  if use_mahotas then
    let inv_affs := nd_map (λ v, f_sub (f_of_Z 1) v) mean_affs in
    inv_z ← lift (getitem inv_affs z);
    '(seeds, num_seeds) ← get_seeds inv_z id_offset;
    f ← invoke Call_mahotas_cwatershed (mahotas_cwatershed inv_z seeds);
    ret (Ret2 f (id_offset + num_seeds))
  else
    mean_z ← lift (getitem mean_affs z);
    let boundary_mask :=
      nd_map (λ v, f_ltb (f_mul f_half max_affinity_value) v) mean_z in
    boundary_distances ← invoke Call_distance_transform_edt
                            (distance_transform_edt boundary_mask);
    watershed_from_boundary_distance boundary_distances false id_offset.

Fixpoint xy_loop (use_mahotas : bool) (max_affinity_value : float)
    (mean_affs : nd float) (zs : list nat) (fragments : nd Z) (id_offset : Z)
  : M (nd Z * Z) :=
  match zs with
  | [] => ret (fragments, id_offset)
  | z :: zs' =>
      r ← xy_slice use_mahotas max_affinity_value mean_affs z id_offset;
      (* fragments[z] = ret[0] *)
      fragments ← lift (setitem_uint64 fragments z (ret_0 r));
      (* id_offset = ret[1] *)
      xy_loop use_mahotas max_affinity_value mean_affs zs' fragments (ret_1 r)
  end.

(** [mean_affs.shape[0]] *)
Definition depth_of (a : nd float) : result nat :=
  match shape a with
  | [] => Raise IndexError
  | d :: _ => Return d
  end.

(** Lines 50-84 with [return_seeds] false: the array bound to
    [fragments] and the offset after the last slice. *)
Definition extract_in_xy (use_mahotas : bool) (max_affinity_value : float)
    (affs : nd float) : M (nd Z * Z) :=
  a1 ← lift (getitem affs 1);
  a2 ← lift (getitem affs 2);
  s ← lift (nd_zip_with f_add a1 a2);
  let mean_affs := nd_map (f_mul f_half) s in
  depth ← lift (depth_of mean_affs);
  let fragments := zeros 0 (shape mean_affs) in
  xy_loop use_mahotas max_affinity_value mean_affs (seq 0 depth) fragments 0.

(** Lines 86-93 with [return_seeds] false: the tuple bound to [ret]. *)
Definition extract_in_3d (max_affinity_value : float) (affs : nd float)
  : M ret_tuple :=
  m ← lift (mean_axis0 affs);
  let boundary_mask :=
    nd_map (λ v, f_ltb (f_mul f_half max_affinity_value) v) m in
  boundary_distances ← invoke Call_distance_transform_edt
                          (distance_transform_edt boundary_mask);
  watershed_from_boundary_distance boundary_distances false 0.

(** Lines 43-48: [255.0] for [uint8] affinities, [1.0] otherwise. *)
Definition max_affinity_value_of (dt : dtype) : float :=
  match dt with
  | dtype_uint8 => f_of_Z 255
  | _ => f_of_Z 1
  end.

(** [watershed_from_affinities], as every caller in the repository
    uses it: [return_seeds] false.  The local variable [fragments] is
    bound by the per-slice branch only. *)
Definition watershed_from_affinities (affs : affinities)
    (fragments_in_xy : bool) (epsilon_agglomerate : float)
    (use_mahotas : bool) : M (nd Z * Z) :=
  let max_affinity_value := max_affinity_value_of (affs_dtype affs) in
  let affs := affs_values affs in
  let extracted : M (option (nd Z) * (nd Z * Z)) :=
    if fragments_in_xy then
      '(fragments, id_offset) ←
         extract_in_xy use_mahotas max_affinity_value affs;
      ret (Some fragments, (fragments, id_offset))
    else
      r ← extract_in_3d max_affinity_value affs;
      ret (None, (ret_0 r, ret_1 r)) in
  '(fragments, r) ← extracted;
  if f_ltb (f_of_Z 0) epsilon_agglomerate then
    let scaled := nd_map (λ v, f_div v max_affinity_value) affs in
    fragments ← lift (read_local "fragments"%string fragments);
    generator ← invoke Call_waterz_agglomerate
                   (waterz_agglomerate scaled [epsilon_agglomerate] fragments);
    (* fragments[:] = next(generator); ret[0] is this same array *)
    first ← lift (of_option StopIteration (head generator));
    fragments ← lift (setall_uint64 fragments first);
    ret (fragments, r.2)
  else
    ret r.

End WithPrimitives.

(** No non-zero label occurs in two of the first [z] slices of [fragments]. *)
Definition slices_disjoint_below (z : nat) (fragments : nd Z) : Prop :=
  ∀ (z1 z2 : nat) (s1 s2 : nd Z) (l : Z),
    (z1 < z)%nat → (z2 < z)%nat → z1 ≠ z2 →
    getitem fragments z1 = Return s1 → getitem fragments z2 = Return s2 →
    l ≠ 0 → l ∈ elems s1 → l ∈ elems s2 → False.

(** The labels of the first [z] slices lie in [[0, top]]. *)
Definition slices_bounded_below (z : nat) (top : Z) (fragments : nd Z) : Prop :=
  ∀ (z' : nat) (s : nd Z) (l : Z),
    (z' < z)%nat → getitem fragments z' = Return s → l ∈ elems s → 0 ≤ l ≤ top.

(** No non-zero label occurs in two different slices of [fragments]. *)
Definition slices_disjoint (fragments : nd Z) : Prop :=
  ∀ (z1 z2 : nat) (s1 s2 : nd Z) (l : Z),
    z1 ≠ z2 →
    getitem fragments z1 = Return s1 → getitem fragments z2 = Return s2 →
    l ≠ 0 → l ∈ elems s1 → l ∈ elems s2 → False.

(** [ret[2]]: a pair has no third entry. *)
Definition ret_2 (r : ret_tuple) : result (nd Z) :=
  match r with
  | Ret2 _ _ => Raise IndexError
  | Ret3 _ _ seeds => Return seeds
  end.

(** [len(ret)] *)
Definition ret_len (r : ret_tuple) : nat :=
  match r with
  | Ret2 _ _ => 2
  | Ret3 _ _ _ => 3
  end.

Definition as_pair (r : ret_tuple) : nd Z * Z := (ret_0 r, ret_1 r).

(** The result of a computation under a function. *)
Definition M_map {A B} (f : A → B) (m : M A) : M B :=
  (m.1, match m.2 with
        | Return a => Return (f a)
        | Raise e => Raise e
        end).

(** [scipy.ndimage.filters.gaussian_filter], which only [watershed] calls. *)
Class Smoothing `{FloatOps} : Type :=
  gaussian_filter : nd float → float → nd float.

Section AllParameters.
Context `{P : Primitives}.

(** [a[0:3, :]]: the first three entries along the leading axis of an
    array with two axes or more. *)
Definition first_three (a : nd float) : result (list (nd float)) :=
  match a with
  | Node l =>
      if decide (2 ≤ length (shape a))%nat then Return (take 3 l)
      else Raise IndexError
  | Leaf _ => Raise IndexError
  end.

(** [np.sum(rows, axis=0)] *)
Definition sum_axis0 (rows : list (nd float)) : result (nd float) :=
  match rows with
  | [] => Return (Leaf (f_of_Z 0))
  | x :: xs => foldl (λ acc y, rbind acc (λ s, nd_zip_with f_add s y)) (Return x) xs
  end.

(** [watershed(lsds, sigma, return_seeds, return_distances)]: the tuple
    of [watershed_from_boundary_distance], followed by the distances when
    they are asked for.  (The trace lists the calls of [Primitives].) *)
Definition watershed `{!Smoothing} (lsds : nd float) (sigma : float)
    (return_seeds return_distances : bool)
  : M (ret_tuple * option (nd float)) :=
  vectors ← lift (first_three lsds);
  boundary_distances ←
    lift (sum_axis0 (nd_map (λ v, f_mul v v) <$> vectors));
  let boundary_distances := gaussian_filter boundary_distances sigma in
  top ← lift (fmax boundary_distances);
  let boundary_distances := nd_map (λ v, f_sub top v) boundary_distances in
  r ← watershed_from_boundary_distance boundary_distances return_seeds 0;
  if return_distances then ret (r, Some boundary_distances)
  else ret (r, None).

(** The state of the loop [for z in range(depth)]: the arrays bound to
    [fragments] and to [seeds] (if any) and [id_offset]. *)
Record xy_state : Type := {
  st_fragments : nd Z;
  st_seeds : option (nd Z);
  st_id_offset : Z
}.

(** One pass of the loop, for any [return_seeds].  With [use_mahotas]
    the variable [seeds] is bound anew to the seeds of the slice, and
    [ret[2]] is that same array; otherwise [seeds] is the [uint64] array
    made before the loop. *)
Definition xy_step (use_mahotas return_seeds : bool) (max_affinity_value : float)
    (mean_affs : nd float) (z : nat) (st : xy_state) : M xy_state :=
  let id_offset := st_id_offset st in
  '(r, seeds, cast) ←
     (if use_mahotas then
        let inv_affs := nd_map (λ v, f_sub (f_of_Z 1) v) mean_affs in
        inv_z ← lift (getitem inv_affs z);
        '(seeds, num_seeds) ← get_seeds inv_z id_offset;
        f ← invoke Call_mahotas_cwatershed (mahotas_cwatershed inv_z seeds);
        let r := Ret2 f (id_offset + num_seeds) in
        let r := if return_seeds then Ret3 (ret_0 r) (ret_1 r) seeds else r in
        ret (r, Some seeds, (id : Z → Z))
      else
        mean_z ← lift (getitem mean_affs z);
        let boundary_mask :=
          nd_map (λ v, f_ltb (f_mul f_half max_affinity_value) v) mean_z in
        boundary_distances ← invoke Call_distance_transform_edt
                                (distance_transform_edt boundary_mask);
        r ← watershed_from_boundary_distance boundary_distances return_seeds
              id_offset;
        ret (r, st_seeds st, uint64));
  (* fragments[z] = ret[0] *)
  fragments ← lift (setitem_uint64 (st_fragments st) z (ret_0 r));
  (* if return_seeds: seeds[z] = ret[2] *)
  seeds ← (if return_seeds then
             target ← lift (read_local "seeds"%string seeds);
             value ← lift (ret_2 r);
             target ← lift (setitem_broadcast cast target z value);
             ret (Some target)
           else ret seeds);
  (* id_offset = ret[1] *)
  ret {| st_fragments := fragments; st_seeds := seeds;
         st_id_offset := ret_1 r |}.

Fixpoint xy_steps (use_mahotas return_seeds : bool) (max_affinity_value : float)
    (mean_affs : nd float) (zs : list nat) (st : xy_state) : M xy_state :=
  match zs with
  | [] => ret st
  | z :: zs' =>
      st ← xy_step use_mahotas return_seeds max_affinity_value mean_affs z st;
      xy_steps use_mahotas return_seeds max_affinity_value mean_affs zs' st
  end.

(** [watershed_from_affinities] with all its parameters. *)
Definition watershed_from_affinities_with_seeds (affs : affinities)
    (fragments_in_xy return_seeds : bool) (epsilon_agglomerate : float)
    (use_mahotas : bool) : M ret_tuple :=
  let max_affinity_value := max_affinity_value_of (affs_dtype affs) in
  let affs := affs_values affs in
  let extracted : M (option (nd Z) * ret_tuple) :=
    if fragments_in_xy then
      a1 ← lift (getitem affs 1);
      a2 ← lift (getitem affs 2);
      s ← lift (nd_zip_with f_add a1 a2);
      let mean_affs := nd_map (f_mul f_half) s in
      depth ← lift (depth_of mean_affs);
      let fragments := zeros 0 (shape mean_affs) in
      let seeds :=
        if return_seeds then Some (zeros 0 (shape mean_affs)) else None in
      st ← xy_steps use_mahotas return_seeds max_affinity_value mean_affs
             (seq 0 depth)
             {| st_fragments := fragments; st_seeds := seeds;
                st_id_offset := 0 |};
      let r := Ret2 (st_fragments st) (st_id_offset st) in
      if return_seeds then
        seeds ← lift (read_local "seeds"%string (st_seeds st));
        ret (Some (st_fragments st), Ret3 (ret_0 r) (ret_1 r) seeds)
      else ret (Some (st_fragments st), r)
    else
      r ← (m ← lift (mean_axis0 affs);
           let boundary_mask :=
             nd_map (λ v, f_ltb (f_mul f_half max_affinity_value) v) m in
           boundary_distances ← invoke Call_distance_transform_edt
                                   (distance_transform_edt boundary_mask);
           watershed_from_boundary_distance boundary_distances return_seeds 0);
      ret (None, r) in
  '(fragments, r) ← extracted;
  if f_ltb (f_of_Z 0) epsilon_agglomerate then
    let scaled := nd_map (λ v, f_div v max_affinity_value) affs in
    fragments ← lift (read_local "fragments"%string fragments);
    generator ← invoke Call_waterz_agglomerate
                   (waterz_agglomerate scaled [epsilon_agglomerate] fragments);
    first ← lift (of_option StopIteration (head generator));
    (* fragments[:] = next(generator); ret[0] is this same array *)
    fragments ← lift (setall_uint64 fragments first);
    ret (match r with
         | Ret2 _ n => Ret2 fragments n
         | Ret3 _ n seeds => Ret3 fragments n seeds
         end)
  else
    ret r.

(** The mahotas functions return arrays of the shape of their input
    (the watershed, when the markers have the shape of the surface). *)
Definition shape_preserving : Prop :=
  (∀ b, shape (mahotas_distance b) = shape b)
  ∧ (∀ a, shape (mahotas_regmax a) = shape a)
  ∧ (∀ b, shape (mahotas_label b).1 = shape b)
  ∧ (∀ s m, shape m = shape s → shape (mahotas_cwatershed s m) = shape s).

End AllParameters.

(** The library calls of one slice in the per-slice mode with mahotas. *)
Definition slice_calls : list call :=
  [Call_mahotas_distance; Call_mahotas_regmax; Call_mahotas_label;
   Call_mahotas_cwatershed].

End Fragments.

(** ** daisy: coordinates, regions of interest, ROI-addressed arrays *)

Module Daisy.

Abbreviation Coordinate := (list Z).

Record Roi : Type := {
  get_offset : Coordinate;
  get_shape : Coordinate
}.

#[export] Instance Roi_eq_dec : EqDecision Roi.
Proof. solve_decision. Defined.

(** [roi.size()]: the volume, in the units of the ROI. *)
Definition size (r : Roi) : Z := foldr Z.mul 1 (get_shape r).

Definition dims (r : Roi) : nat := length (get_offset r).

Definition get_end (r : Roi) : Coordinate :=
  zip_with Z.add (get_offset r) (get_shape r).

Definition intersect (a b : Roi) : Roi :=
  let lo := zip_with Z.max (get_offset a) (get_offset b) in
  let hi := zip_with Z.min (get_end a) (get_end b) in
  {| get_offset := lo;
     get_shape := zip_with (λ l h, Z.max 0 (h - l)) lo hi |}.

Definition contains (a b : Roi) : bool :=
  bool_decide (dims a = dims b)
  && forallb (λ '(x, y), x <=? y) (zip (get_offset a) (get_offset b))
  && forallb (λ '(x, y), y <=? x) (zip (get_end a) (get_end b)).

(** [roi.snap_to_grid(voxel_size, mode='grow')] *)
Definition snap_to_grid_grow (r : Roi) (vs : Coordinate) : Roi :=
  let lo := zip_with (λ b v, v * (b / v)) (get_offset r) vs in
  let hi := zip_with (λ e v, - (v * ((- e) / v))) (get_end r) vs in
  {| get_offset := lo; get_shape := zip_with Z.sub hi lo |}.

(** [a.is_multiple_of(b)] *)
Definition is_multiple_of (a b : Coordinate) : bool :=
  forallb (λ '(x, y), x mod y =? 0) (zip a b).

Record Array (A : Type) : Type := {
  data : nd A;
  dtype : Np.dtype;
  channel_dims : nat;
  roi : Roi;
  voxel_size : Coordinate
}.
Arguments data {A} _.
Arguments dtype {A} _.
Arguments channel_dims {A} _.
Arguments roi {A} _.
Arguments voxel_size {A} _.

(** Index range of [r] along each spatial axis of an array over [a_roi]. *)
Definition index_ranges (a_roi : Roi) (vs : Coordinate) (r : Roi)
  : list (nat * nat) :=
  zip_with
    (λ '(o, s) '(ao, v),
       let b := (o - ao) / v in
       (Z.to_nat b, Z.to_nat (b + s / v)))
    (zip (get_offset r) (get_shape r))
    (zip (get_offset a_roi) vs).

(** Slicing below the channel axes. *)
Fixpoint slice_spatial {A} (channels : nat) (ranges : list (nat * nat))
    (a : nd A) : nd A :=
  match channels with
  | O => nd_slice ranges a
  | S c =>
      match a with
      | Leaf x => Leaf x
      | Node l => Node (List.map (slice_spatial c ranges) l)
      end
  end.

(** [array[roi]]: the part of the array inside [roi], which has to lie
    inside the array. *)
Definition getitem_roi {A} (a : Array A) (r : Roi) : result (Array A) :=
  if contains (roi a) r then
    Return {| data := slice_spatial (channel_dims a)
                        (index_ranges (roi a) (voxel_size a) r) (data a);
              dtype := dtype a;
              channel_dims := channel_dims a;
              roi := r;
              voxel_size := voxel_size a |}
  else Raise AssertionError.

(** [array.intersect(roi)] *)
Definition array_intersect {A} (a : Array A) (r : Roi) : result (Array A) :=
  getitem_roi a (intersect (roi a) r).

Definition at_index_Z {A} (p : list Z) (a : nd A) : option A :=
  if forallb (λ i, 0 <=? i) p then at_index (Z.to_nat <$> p) a else None.

(** [array.to_ndarray(roi, fill_value)] for an array without channels:
    the voxels of [roi], [fill_value] outside the array. *)
Definition to_ndarray {A} (a : Array A) (r : Roi) (fill_value : A) : nd A :=
  let s := Z.to_nat <$> zip_with Z.div (get_shape r) (voxel_size a) in
  let shift :=
    zip_with Z.div (zip_with Z.sub (get_offset r) (get_offset (roi a)))
             (voxel_size a) in
  tabulate s (λ p,
    default fill_value
      (at_index_Z (zip_with Z.add (Z.of_nat <$> p) shift) (data a))).

End Daisy.

(** ** funlib.segment.arrays *)

Module Funlib.

(** [replace_values(array, old_values, new_values)]: every occurrence of
    [old_values[i]] becomes [new_values[i]], other values stay. *)
Definition replace_values (a : nd Z) (old_values new_values : list Z) : nd Z :=
  nd_map (λ v,
    match list_find (λ o, o = v) old_values with
    | Some (i, _) => default v (new_values !! i)
    | None => v
    end) a.

(** [relabel(array)]: the distinct non-zero values, in increasing order,
    become [1..n]; returns the array and [n]. *)
Definition relabel (a : nd Z) : nd Z * Z :=
  let old_labels :=
    filter (λ v, v ≠ 0) (merge_sort Z.le (remove_dups (elems a))) in
  let new_labels := (λ i, Z.of_nat i + 1) <$> seq 0 (length old_labels) in
  (replace_values a old_labels new_labels, Z.of_nat (length old_labels)).

End Funlib.

(** ** scipy.ndimage.measurements *)

Module Scipy.
Import Fragments.

Section CenterOfMass.
Context `{FloatOps}.

(** [center_of_mass(input, labels, index)]: for each label of [index]
    the mean position of its voxels, weighted by [input]; a label
    without weight gives [0/0]. *)
Definition center_of_mass (input labels : nd Z) (index : list Z)
  : list (list float) :=
  (λ i,
     let voxels :=
       filter (λ '(_, l), l = i) (zip (items input) (elems labels)) in
     let normalizer := foldr Z.add 0 ((λ '((_, w), _), w) <$> voxels) in
     (λ d,
        let moment :=
          foldr Z.add 0
            ((λ '((p, w), _), w * Z.of_nat (default O (p !! d))) <$> voxels) in
        f_div (f_of_Z moment) (f_of_Z normalizer))
     <$> seq 0 (length (shape input)))
  <$> index.

End CenterOfMass.
End Scipy.

(** ** lsd/parallel_fragments.py *)

Module ParallelFragments.
Import Fragments Daisy Funlib Scipy.

Record Block : Type := {
  block_id : Z;
  read_roi : Roi;
  write_roi : Roi;
  requested_write_roi : Roi
}.

Record rag_node `{FloatOps} : Type := {
  node_id : Z;
  center_z : float;
  center_y : float;
  center_x : float
}.

(** What the module needs from the shared RAG provider:
    [rag_provider[roi]], [rag.add_nodes_from(nodes)],
    [rag.write_nodes(roi)] and [rag_provider.num_nodes(roi)]. *)
Class RagProvider `{FloatOps} : Type := {
  provider : Type;
  subrag : Type;
  provider_getitem : provider → Roi → subrag;
  add_nodes_from : subrag → list rag_node → subrag;
  write_nodes : provider → subrag → Roi → provider;
  num_nodes : provider → Roi → Z
}.

(** The two stores a block writes to.  The output array is kept as the
    list of its ROI-addressed writes, newest first. *)
Record World `{RagProvider} : Type := {
  fragments_out : list (Roi * nd Z);
  rag_provider : provider
}.

Section Block.
Context `{RP : RagProvider}.

(** [upsample(a, factor)] *)
Definition upsample {A} (a : nd A) (factor : Coordinate) : nd A :=
  foldl (λ a '(d, f), nd_repeat (Z.to_nat f) d a) a (zip (seq 0 (length factor)) factor).

Definition get_mask_data_in_roi (mask : Array Z) (r : Roi)
    (target_voxel_size : Coordinate) : result (nd Z) :=
  if negb (is_multiple_of (voxel_size mask) target_voxel_size) then
    Raise AssertionError
  else
    let aligned_roi := snap_to_grid_grow r (voxel_size mask) in
    let aligned_data := to_ndarray mask aligned_roi 0 in
    if decide (voxel_size mask = target_voxel_size) then
      Return aligned_data
    else
      let factor := zip_with Z.div (voxel_size mask) target_voxel_size in
      let upsampled_aligned_data := upsample aligned_data factor in
      let upsampled_aligned_mask :=
        {| data := upsampled_aligned_data;
           dtype := dtype mask;
           channel_dims := 0;
           roi := aligned_roi;
           voxel_size := target_voxel_size |} in
      cropped ← getitem_roi upsampled_aligned_mask r;
      Return (data cropped).

Definition block_done (block : Block) (rag_provider : provider) : bool :=
  bool_decide (0 < num_nodes rag_provider (write_roi block)).

(** The extraction function is taken as given, so that the statements
    on [watershed_in_block] hold for every watershed; the one of the
    repository is [repository_watershed] below. *)
Variable watershed_from_affinities :
  affinities → bool → float → result (nd Z * Z).

(** [affs.data *= mask_data]: the mask is applied to every channel. *)
Definition mask_affinities (affs_data : nd float) (mask_data : nd Z)
  : result (nd float) :=
  match affs_data with
  | Leaf _ => Raise ValueError
  | Node channels =>
      l ← mapM (λ c, nd_zip_with (λ a m, f_mul a (f_of_Z m)) c mask_data)
               channels;
      Return (Node l)
  end.

(** Lines 146-170: read, mask, extract, mask again, crop to the
    write ROI.  Returns the cropped fragments and [n]. *)
Definition extract_and_crop (affs : Array float) (block : Block)
    (fragments_in_xy : bool) (epsilon_agglomerate : float)
    (mask : option (Array Z)) : result (Array Z * Z) :=
  affs ← array_intersect affs (read_roi block);
  mask_data ← match mask with
               | Some m =>
                   md ← get_mask_data_in_roi m (roi affs) (voxel_size affs);
                   Return (Some md)
               | None => Return None
               end;
  affs_data ← match mask_data with
               | Some md => mask_affinities (data affs) md
               | None => Return (data affs)
               end;
  '(fragments_data, n) ←
     watershed_from_affinities
       {| affs_dtype := dtype affs; affs_values := affs_data |}
       fragments_in_xy epsilon_agglomerate;
  fragments_data ← match mask_data with
                    | Some md =>
                        nd_zip_with (λ l m, uint64 (l * uint64 m))
                                    fragments_data md
                    | None => Return fragments_data
                    end;
  let fragments :=
    {| data := fragments_data;
       dtype := dtype_uint64;
       channel_dims := 0;
       roi := roi affs;
       voxel_size := voxel_size affs |} in
  fragments ← getitem_roi fragments (write_roi block);
  Return (fragments, n).

(** Lines 172-179. *)
Definition relabel_large_ids (block : Block) (fragments : nd Z) (n : Z)
  : result (nd Z * Z) :=
  max_id ← amax fragments;
  if decide (size (write_roi block) < max_id)
  then Return (relabel fragments)
  else Return (fragments, n).

(** Lines 182-184. *)
Definition id_bump_of (voxel_size : Coordinate) (block : Block) : result Z :=
  let size_of_voxel := foldr Z.mul 1 voxel_size in
  if decide (size_of_voxel = 0) then Raise ZeroDivisionError
  else
    let num_voxels_in_block := size (requested_write_roi block) / size_of_voxel in
    Return (block_id block * num_voxels_in_block).

(** [fragments.data[fragments.data>0] += id_bump] *)
Definition bump_ids (id_bump : Z) (fragments : nd Z) : nd Z :=
  nd_map (λ l, if decide (0 < l) then uint64 (l + id_bump) else l) fragments.

(** [range(a, a + n)] *)
Definition range_from (a n : Z) : list Z :=
  (λ k, a + Z.of_nat k) <$> seq 0 (Z.to_nat n).

(** Lines 194-201. *)
Definition get_fragment_centers (offset voxel_size : Coordinate)
    (fragments : nd Z) (fragment_ids : list Z)
  : result (list (Z * list float)) :=
  l ← mapM (λ '(fragment, center),
              c0 ← of_option IndexError (center !! 0%nat);
              if f_isnan c0 then Return (None : option (Z * list float))
              else
                Return (Some (fragment,
                  zip_with (λ o vc, f_add (f_of_Z o) vc) offset
                    (zip_with (λ v c, f_mul (f_of_Z v) c) voxel_size center))))
           (zip fragment_ids (center_of_mass fragments fragments fragment_ids));
  Return (omap (M := list) id l).

(** Lines 210-269; [myelin_ds] is represented by its test. *)
Definition post_process_myelin (myelin_ds : option (Z → list float → bool))
    (fragment_centers : list (Z * list float)) (fragments : nd Z)
  : list (Z * list float) * nd Z :=
  match myelin_ds with
  | None => (fragment_centers, fragments)
  | Some is_myelin =>
      let myelin_fragments :=
        fst <$> filter (λ '(node, c), is_myelin node c = true) fragment_centers in
      (filter (λ '(node, _), node ∉ myelin_fragments) fragment_centers,
       replace_values fragments myelin_fragments
         ((λ _, 0) <$> myelin_fragments))
  end.

(** The list built at lines 277-285. *)
Definition node_list (fragment_centers : list (Z * list float))
  : result (list rag_node) :=
  mapM (λ '(node, c),
          cz ← of_option IndexError (c !! 0%nat);
          cy ← of_option IndexError (c !! 1%nat);
          cx ← of_option IndexError (c !! 2%nat);
          Return {| node_id := node; center_z := cz;
                    center_y := cy; center_x := cx |})
       fragment_centers.

(** Lines 172-269: from the cropped fragments to what will be stored;
    [None] is the early return at [n == 0]. *)
Definition prepare_output (block : Block) (fragments : Array Z) (n : Z)
    (myelin_ds : option (Z → list float → bool))
  : result (option (nd Z * list (Z * list float))) :=
  '(fragments_data, n) ← relabel_large_ids block (data fragments) n;
  id_bump ← id_bump_of (voxel_size fragments) block;
  let fragments_data := bump_ids id_bump fragments_data in
  let fragment_ids := range_from (id_bump + 1) n in
  if decide (n = 0) then Return None
  else
    fragment_centers ←
      get_fragment_centers (get_offset (write_roi block))
        (voxel_size fragments) fragments_data fragment_ids;
    let '(fragment_centers, fragments_data) :=
      post_process_myelin myelin_ds fragment_centers fragments_data in
    Return (Some (fragments_data, fragment_centers)).

Definition watershed_in_block (affs : Array float) (block : Block)
    (fragments_in_xy : bool) (epsilon_agglomerate : float)
    (mask : option (Array Z))
    (myelin_ds : option (Z → list float → bool))
    (w : World) : World * result unit :=
  match
    '(fragments, n) ←
       extract_and_crop affs block fragments_in_xy epsilon_agglomerate mask;
    prepare_output block fragments n myelin_ds
  with
  | Raise e => (w, Raise e)
  | Return None => (w, Return ())
  | Return (Some (fragments_data, fragment_centers)) =>
      (* fragments_out[block.write_roi] = fragments *)
      let w :=
        {| fragments_out := (write_roi block, fragments_data) :: fragments_out w;
           rag_provider := rag_provider w |} in
      match node_list fragment_centers with
      | Raise e => (w, Raise e)
      | Return nodes =>
          let rag := provider_getitem (rag_provider w) (write_roi block) in
          let rag := add_nodes_from rag nodes in
          ({| fragments_out := fragments_out w;
              rag_provider :=
                write_nodes (rag_provider w) rag (write_roi block) |},
           Return ())
      end
  end.

End Block.

(** The index in the source array of the voxel at [p] of
    [upsample(a, factor)]. *)
Definition source_index (factor : list Z) (p : list nat) : list nat :=
  imap (λ d i, match factor !! d with
               | Some f => (i / Z.to_nat f)%nat
               | None => i
               end) p.

(** The extraction function of the repository as [watershed_in_block]
    calls it, with [use_mahotas] at its default. *)
Definition repository_watershed `{Primitives} (affs : affinities)
    (fragments_in_xy : bool) (epsilon_agglomerate : float)
  : result (nd Z * Z) :=
  (Fragments.watershed_from_affinities affs fragments_in_xy
     epsilon_agglomerate true).2.

End ParallelFragments.

(** ** networkx: undirected graphs with attribute dictionaries *)

Module Networkx.

(** The attribute values that occur: integers, floats (mantissa and
    exponent) and lists of node ids. *)
Inductive pyval : Type :=
| PyInt (n : Z)
| PyFloat (m e : Z)
| PyList (l : list Z).

#[export] Instance pyval_eq_dec : EqDecision pyval.
Proof. solve_decision. Defined.

(** Truth value of an attribute in an [if]. *)
Definition truthy (v : pyval) : bool :=
  match v with
  | PyInt n => negb (n =? 0)
  | PyFloat m _ => negb (m =? 0)
  | PyList l => negb (bool_decide (l = []))
  end.

Abbreviation attrs := (gmap string pyval).

(** The attribute dictionary of an edge is one object, reached from both
    endpoints; it is stored once, under the unordered pair. *)
Record Graph : Type := {
  node : gmap Z attrs;
  edge : gmap (Z * Z) attrs
}.

Definition key (u v : Z) : Z * Z := (Z.min u v, Z.max u v).

Definition empty_graph : Graph := {| node := ∅; edge := ∅ |}.

(** [G.nodes()] *)
Definition nodes (G : Graph) : list Z := (map_to_list (node G)).*1.

(** [G.add_node(n, attr_dict)]: new attributes update the old ones. *)
Definition add_node (G : Graph) (n : Z) (attr_dict : attrs) : Graph :=
  {| node := <[n := attr_dict ∪ default ∅ (node G !! n)]> (node G);
     edge := edge G |}.

Definition add_nodes_from (G : Graph) (ns : list Z) : Graph :=
  foldl (λ G n, add_node G n ∅) G ns.

(** [G.add_edge(u, v, attr_dict)]: missing endpoints are added, and the
    attributes of an edge that is already there are updated, not replaced. *)
Definition add_edge (G : Graph) (u v : Z) (attr_dict : attrs) : Graph :=
  let G := add_node G u ∅ in
  let G := add_node G v ∅ in
  {| node := node G;
     edge := <[key u v := attr_dict ∪ default ∅ (edge G !! key u v)]> (edge G) |}.

(** The nodes adjacent to [n], [G[n]]. *)
Definition adjacent (G : Graph) (n : Z) : gset Z :=
  list_to_set
    (omap (M := list)
       (λ '((a, b), _),
          if decide (a = n) then Some b
          else if decide (b = n) then Some a
          else None)
       (map_to_list (edge G))).

(** [G.neighbors(n)] *)
Definition neighbors (G : Graph) (n : Z) : result (list Z) :=
  if decide (n ∈ dom (node G)) then Return (elements (adjacent G n))
  else Raise NetworkXError.

(** [G.remove_node(n)]: the node and its edges. *)
Definition remove_node (G : Graph) (n : Z) : result Graph :=
  if decide (n ∈ dom (node G)) then
    Return {| node := delete n (node G);
              edge := filter (λ '((a, b), _), a ≠ n ∧ b ≠ n) (edge G) |}
  else Raise NetworkXError.

(** [G.edges_iter(data=True)]: every edge once. *)
Definition edges_iter (G : Graph) : list (Z * Z * attrs) :=
  (λ '((u, v), d), (u, v, d)) <$> map_to_list (edge G).

(** [_plain_bfs(G, source)]: the loop [while nextlevel], one pass per
    unit of fuel. *)
Fixpoint plain_bfs_loop (fuel : nat) (G : Graph) (seen nextlevel : gset Z)
  : option (gset Z) :=
  match fuel with
  | O => None
  | S fuel' =>
      if decide (nextlevel = ∅) then Some seen
      else
        let thislevel := nextlevel ∖ seen in
        plain_bfs_loop fuel' G (seen ∪ thislevel)
          (⋃ (adjacent G <$> elements thislevel))
  end.

(** All nodes that occur in the graph. *)
Definition universe (G : Graph) : gset Z :=
  dom (node G) ∪ list_to_set ((λ '((a, b), _), a) <$> map_to_list (edge G))
               ∪ list_to_set ((λ '((a, b), _), b) <$> map_to_list (edge G)).

Definition plain_bfs (G : Graph) (source : Z) : option (gset Z) :=
  plain_bfs_loop (size (universe G) + 3) G ∅ {[source]}.

(** [connected_components(G)]: the loop over the nodes, with the set of
    nodes already seen. *)
Fixpoint connected_components_loop (G : Graph) (vs : list Z) (seen : gset Z)
  : option (list (gset Z)) :=
  match vs with
  | [] => Some []
  | v :: vs' =>
      if decide (v ∈ seen) then connected_components_loop G vs' seen
      else
        c ← plain_bfs G v;
        cs ← connected_components_loop G vs' (seen ∪ c);
        Some (c :: cs)
  end.

Definition connected_components (G : Graph) : option (list (gset Z)) :=
  connected_components_loop G (nodes G) ∅.

(** The endpoints of every edge are nodes, as [add_edge] ensures. *)
Definition endpoints_are_nodes (G : Graph) : Prop :=
  ∀ u v d, edge G !! (u, v) = Some d → u ∈ dom (node G) ∧ v ∈ dom (node G).

(** No node occurs in two of the lists. *)
Fixpoint pairwise_disjoint (components : list (list Z)) : Prop :=
  match components with
  | [] => True
  | c :: rest =>
      (∀ c' x, c' ∈ rest → x ∈ c → x ∉ c') ∧ pairwise_disjoint rest
  end.

(** [v] can be reached from [u] along edges. *)
Definition connected (G : Graph) : Z → Z → Prop :=
  rtc (λ u v, v ∈ adjacent G u).

(** Python's [==] on attribute values: numbers by their value, lists by
    their entries. *)
Definition py_eq (a b : pyval) : bool :=
  let number (v : pyval) : option (Z * Z) :=
    match v with
    | PyInt n => Some (n, 0)
    | PyFloat m e => Some (m, e)
    | PyList _ => None
    end in
  match a, b with
  | PyList la, PyList lb => bool_decide (la = lb)
  | _, _ =>
      match number a, number b with
      | Some (m1, e1), Some (m2, e2) =>
          let e := Z.min e1 e2 in
          m1 * 2 ^ (e1 - e) =? m2 * 2 ^ (e2 - e)
      | _, _ => false
      end
  end.

End Networkx.

(** ** skimage.future.graph.RAG *)

Module Skimage.
Import Networkx.

(** [d[k]] on an attribute dictionary. *)
Definition getattr (d : attrs) (k : string) : result pyval :=
  of_option (KeyError k) (d !! k).

(** [rag.merge_nodes(src, dst, weight_func)] with [in_place=True]: the
    edges from the neighbours of either node go to [dst], with the
    attributes [weight_func] gives; [dst] gets the labels of both; [src]
    is removed. *)
Definition merge_nodes (G : Graph) (src dst : Z)
    (weight_func : Graph → Z → Z → Z → attrs) : result Graph :=
  src_nbrs ← neighbors G src;
  dst_nbrs ← neighbors G dst;
  let nbrs : gset Z :=
    (list_to_set src_nbrs ∪ list_to_set dst_nbrs) ∖ {[src; dst]} in
  let new := dst in
  let G :=
    foldl (λ G neighbor, add_edge G neighbor new (weight_func G src new neighbor))
          G (elements nbrs) in
  src_data ← of_option NetworkXError (node G !! src);
  dst_data ← of_option NetworkXError (node G !! dst);
  src_labels ← getattr src_data "labels";
  dst_labels ← getattr dst_data "labels";
  match src_labels, dst_labels with
  | PyList ls, PyList ld =>
      let G :=
        {| node := <[new := <["labels"%string := PyList (ls ++ ld)]> dst_data]> (node G);
           edge := edge G |} in
      remove_node G src
  | _, _ => Raise ValueError
  end.

End Skimage.

(** ** lsd/rag.py *)

Module Rag.
Import Networkx Skimage.

(** [u] and [v] are joined by an edge whose ['merged'] is true. *)
Definition merged_adjacent (G : Graph) (u v : Z) : Prop :=
  ∃ d m,
    (edge G !! (u, v) = Some d ∨ edge G !! (v, u) = Some d)
    ∧ d !! "merged"%string = Some m ∧ truthy m = true.

(** A node of the RAG, or an endpoint of a merged edge. *)
Definition known_node (G : Graph) (x : Z) : Prop :=
  x ∈ dom (node G) ∨ ∃ y, merged_adjacent G x y.

(** The node has a list under ['labels']. *)
Definition has_labels (G : Graph) (x : Z) : Prop :=
  ∃ d ls, node G !! x = Some d ∧ d !! "labels"%string = Some (PyList ls).

(** [v] can be reached from [u] along merged edges. *)
Definition merged_connected (G : Graph) : Z → Z → Prop :=
  rtc (merged_adjacent G).

(** [for _u, _v, data in self.edges_iter(data=True): data[key] = value] *)
Definition set_edge_attributes (G : Graph) (k : string) (value : pyval) : Graph :=
  {| node := node G; edge := (λ d, <[k := value]> d) <$> edge G |}.

(** The auxiliary graph of [get_connected_components]: all nodes, and
    the edges whose ['merged'] is true. *)
Definition add_if_merged (acc : result Graph) (e : Z * Z * attrs)
  : result Graph :=
  let '(u, v, d) := e in
  merge_graph ← acc;
  merged ← getattr d "merged";
  if truthy merged then Return (add_edge merge_graph u v ∅)
  else Return merge_graph.

Definition merge_graph_of (G : Graph) : result Graph :=
  let merge_graph := add_nodes_from empty_graph (nodes G) in
  foldl add_if_merged (Return merge_graph) (edges_iter G).

Definition get_connected_components (G : Graph) : result (list (list Z)) :=
  merge_graph ← merge_graph_of G;
  components ← of_option OutOfFuel (connected_components merge_graph);
  Return (fmap (M := list) (λ component : gset Z, elements component) components).

Definition __add_esential_edge_attributes (G : Graph) : Graph :=
  {| node := node G;
     edge :=
       (λ d,
          let d := if decide ("merged"%string ∈ dom d) then d
                   else <["merged"%string := PyInt 0]> d in
          if decide ("agglomeration"%string ∈ dom d) then d
          else <["agglomerated"%string := PyInt 0]> d)
       <$> edge G |}.

Definition __add_esential_node_attributes (G : Graph) : Graph :=
  {| node :=
       map_imap (λ n d,
          Some (if decide ("labels"%string ∈ dom d) then d
                else <["labels"%string := PyList [n]]> d)) (node G);
     edge := edge G |}.

(** The [weight_func] passed to [merge_nodes]. *)
Definition default_edge_attributes (_ : Graph) (_src _dst _n : Z) : attrs :=
  {[ "merged"%string := PyInt 0; "agglomerated"%string := PyInt 0 ]}.

(** [for i in range(1, len(component)): merge_nodes(component[i-1], component[i])] *)
Fixpoint contract_component (G : Graph) (component : list Z) : result Graph :=
  match component with
  | a :: (b :: _) as rest =>
      G ← merge_nodes G a b default_edge_attributes;
      contract_component G rest
  | _ => Return G
  end.

(** [component[-1]] *)
Definition last_node (component : list Z) : result Z :=
  of_option IndexError (last component).

(** One pass of the loop [for component in components]. *)
Definition contract_step (acc : result (Graph * list Z)) (component : list Z)
  : result (Graph * list Z) :=
  '(G, component_nodes) ← acc;
  G ← contract_component G component;
  n ← last_node component;
  Return (G, component_nodes ++ [n]).

Definition __contract_nodes (G : Graph) (components : list (list Z))
  : result (Graph * list Z) :=
  let G := __add_esential_node_attributes G in
  foldl contract_step (Return (G, [])) components.

(** Position [i] of a sequence of length [len]; negative positions count
    from the end. *)
Definition py_index (len : nat) (i : Z) : result nat :=
  if decide (0 ≤ i) then
    if decide (i < Z.of_nat len) then Return (Z.to_nat i) else Raise IndexError
  else
    if decide (- Z.of_nat len ≤ i) then Return (Z.to_nat (Z.of_nat len + i))
    else Raise IndexError.

(** [values_map[c] = label], for the nodes [c] of one component that
    pass the guard [c < len(values_map)]. *)
Definition relabel_component (label : Z) (acc : result (list Z)) (c : Z)
  : result (list Z) :=
  values_map ← acc;
  if decide (c < Z.of_nat (length values_map)) then
    i ← py_index (length values_map) c;
    Return (<[i := label]> values_map)
  else Return values_map.

(** [for c in component: ...], for one pair of [zip(components,
    component_labels)]. *)
Definition relabel_pair (acc : result (list Z)) (pair : list Z * Z)
  : result (list Z) :=
  let '(component, label) := pair in
  foldl (relabel_component label) acc component.

(** [values_map[array]] at one element. *)
Definition lookup_value (values_map : list Z) (v : Z) : result Z :=
  i ← py_index (length values_map) v;
  of_option IndexError (values_map !! i).

Definition __relabel (array : nd Z) (components : list (list Z))
    (component_labels : list Z) : result (nd Z) :=
  top ← amax array;
  let values_map := Z.of_nat <$> seq 0 (Z.to_nat (top + 1)) in
  values_map ←
    foldl relabel_pair (Return values_map) (zip components component_labels);
  (* array[:] = values_map[array] *)
  _ ← mapM (lookup_value values_map) (elems array);
  Return (nd_map (λ v, match lookup_value values_map v with
                       | Return x => x
                       | Raise _ => v
                       end) array).

(** [contract_merged_nodes(fragments)]: the contracted graph and the
    relabelled array. *)
Definition contract_merged_nodes (G : Graph) (fragments : option (nd Z))
  : result (Graph * option (nd Z)) :=
  components ← get_connected_components G;
  '(G, component_nodes) ← __contract_nodes G components;
  match fragments with
  | Some array =>
      array ← __relabel array components component_nodes;
      Return (G, Some array)
  | None => Return (G, None)
  end.

(** [self.node[node]['merged_node'] = merged_node] *)
Definition set_merged_node (merged_node : Z) (acc : result Graph) (n : Z)
  : result Graph :=
  G ← acc;
  data ← of_option (KeyError (pretty n)) (node G !! n);
  Return {| node := <[n := <["merged_node"%string := PyInt merged_node]> data]> (node G);
            edge := edge G |}.

(** One pass of the loop over [merged_rag.nodes_iter(data=True)]; labels
    that are no list cannot be iterated over. *)
Definition label_nodes_of (acc : result Graph) (entry : Z * attrs)
  : result Graph :=
  let '(merged_node, data) := entry in
  G ← acc;
  labels ← getattr data "labels";
  match labels with
  | PyList l => foldl (set_merged_node merged_node) (Return G) l
  | _ => Raise ValueError
  end.

(** One pass of the loop over [self.edges_iter(data=True)]. *)
Definition mark_merged (G : Graph) (acc : result (gmap (Z * Z) attrs))
    (e : Z * Z * attrs) : result (gmap (Z * Z) attrs) :=
  let '(u, v, data) := e in
  edges ← acc;
  data_u ← of_option (KeyError (pretty u)) (node G !! u);
  merged_u ← getattr data_u "merged_node";
  data_v ← of_option (KeyError (pretty v)) (node G !! v);
  merged_v ← getattr data_v "merged_node";
  if py_eq merged_u merged_v
  then Return (<[(u, v) := <["merged"%string := PyInt 1]> data]> edges)
  else Return edges.

Definition label_merged_edges (G merged_rag : Graph) : result Graph :=
  G ← foldl label_nodes_of (Return G) (map_to_list (node merged_rag));
  edges ← foldl (mark_merged G) (Return (edge G)) (edges_iter G);
  Return {| node := node G; edge := edges |}.

(** [x] is in the labels of one of the entries. *)
Definition listed_in (entries : list (Z * attrs)) (x : Z) : Prop :=
  ∃ m data ls, (m, data) ∈ entries
               ∧ data !! "labels"%string = Some (PyList ls) ∧ x ∈ ls.

(** [x] is in the labels of a node of [merged_rag]. *)
Definition listed (merged_rag : Graph) (x : Z) : Prop :=
  ∃ m data ls,
    node merged_rag !! m = Some data
    ∧ data !! "labels"%string = Some (PyList ls) ∧ x ∈ ls.

(** A graph that differs from [G] in the ['merged_node'] of nodes only. *)
Definition relabelled (G Gc : Graph) : Prop :=
  edge Gc = edge G
  ∧ dom (node Gc) = dom (node G)
  ∧ ∀ x d, node G !! x = Some d →
      ∃ d', node Gc !! x = Some d'
            ∧ ∀ k, k ≠ "merged_node"%string → d' !! k = d !! k.

(** The nodes of [P] carry their merged node. *)
Definition marked (rep : Z → Z) (P : Z → Prop) (Gc : Graph) : Prop :=
  ∀ x, P x → ∃ d, node Gc !! x = Some d
                  ∧ d !! "merged_node"%string = Some (PyInt (rep x)).

(** The nodes outside [P] are as in [G]. *)
Definition untouched (G : Graph) (P : Z → Prop) (Gc : Graph) : Prop :=
  ∀ x, ¬ P x → node Gc !! x = node G !! x.

(** The list a node has under ['labels'] (empty when it has none). *)
Definition labels_of (G : Graph) (x : Z) : list Z :=
  match node G !! x ≫= (λ d, d !! "labels"%string) with
  | Some (PyList ls) => ls
  | _ => []
  end.

(** Every edge of [G] has [merged] at 0 or is an edge of [G0], with the
    attributes it has there. *)
Definition edges_reset_or_from (G0 G : Graph) : Prop :=
  ∀ k d, edge G !! k = Some d →
         d !! "merged"%string = Some (PyInt 0) ∨ edge G0 !! k = Some d.

End Rag.

(** ** Instances used to evaluate the embedding *)

(** Exact arithmetic on fractions, with a NaN for [x/0]: an instance of
    [FloatOps] on which examples can be computed. *)
Module Exact.
Import Fragments.

Inductive frac : Type :=
| NaN
| Frac (num : Z) (den : Z).

Definition lift2 (f : Z → Z → Z → Z → frac) (x y : frac) : frac :=
  match x, y with
  | Frac a b, Frac c d => f a b c d
  | _, _ => NaN
  end.

Definition test2 (f : Z → Z → Z → Z → bool) (x y : frac) : bool :=
  match x, y with
  | Frac a b, Frac c d => f a b c d
  | _, _ => false
  end.

#[export] Instance frac_ops : FloatOps := {|
  float := frac;
  f_of_Z := λ z, Frac z 1;
  f_half := Frac 1 2;
  f_add := lift2 (λ a b c d, Frac (a * d + c * b) (b * d));
  f_sub := lift2 (λ a b c d, Frac (a * d - c * b) (b * d));
  f_mul := lift2 (λ a b c d, Frac (a * c) (b * d));
  f_div := lift2 (λ a b c d,
             if decide (c = 0) then NaN
             else Frac (a * d * Z.sgn c) (b * Z.abs c));
  f_max := lift2 (λ a b c d, if a * d <? c * b then Frac c d else Frac a b);
  f_ltb := test2 (λ a b c d, a * d <? c * b);
  f_eqb := test2 (λ a b c d, a * d =? c * b);
  f_isnan := λ x, match x with NaN => true | Frac _ _ => false end
|}.

(** Stand-ins for the library functions, simple enough to compute with:
    a voxel is a maximum when its value is at least 1, all maxima form
    one component, and the watershed leaves every voxel with its marker. *)
#[export] Instance simple_primitives : Primitives := {|
  mahotas_distance := nd_map (λ b : bool, if b then Frac 1 1 else Frac 0 1);
  mahotas_regmax := nd_map (λ v, f_ltb (Frac 0 1) v);
  mahotas_label := λ maxima,
    (nd_map (λ b : bool, if b then 1 else 0) maxima,
     if existsb id (elems maxima) then 1 else 0);
  mahotas_cwatershed := λ _ markers, markers;
  distance_transform_edt := nd_map (λ b : bool, if b then Frac 1 1 else Frac 0 1);
  maximum_filter := λ a _, nd_map (f_max (Frac 1 1)) a;
  waterz_agglomerate := λ _ thresholds fragments, (λ _, fragments) <$> thresholds
|}.

(** No smoothing: the filter with a kernel of one voxel. *)
#[export] Instance no_smoothing : Smoothing := λ a _, a.

End Exact.

(** Modelled from the spec: the shared RAG store ([rag_provider]) is not
    among the sources.  Section 4.3 of the specification gives its
    contract: nodes are kept with their centres, a region-scoped read
    returns the nodes inside the region, and [num_nodes(region)] counts
    them.  Here the store is the list of its nodes. *)
Module ListProvider.
Import Fragments Daisy ParallelFragments.

Section WithFloat.
Context `{FloatOps}.

Definition in_roi (r : Roi) (n : rag_node) : bool :=
  match zip (get_offset r) (get_end r) with
  | [(z0, z1); (y0, y1); (x0, x1)] =>
      let inside lo hi c :=
        negb (f_ltb c (f_of_Z lo)) && f_ltb c (f_of_Z hi) in
      inside z0 z1 (center_z n) && inside y0 y1 (center_y n)
      && inside x0 x1 (center_x n)
  | _ => false
  end.

Definition upsert (l : list rag_node) (n : rag_node) : list rag_node :=
  filter (λ m, node_id m ≠ node_id n) l ++ [n].

#[export] Instance list_provider : RagProvider := {|
  provider := list rag_node;
  subrag := list rag_node;
  provider_getitem := λ p r, filter (λ n, in_roi r n = true) p;
  add_nodes_from := foldl upsert;
  write_nodes := λ p g r, foldl upsert p (filter (λ n, in_roi r n = true) g);
  num_nodes := λ p r, Z.of_nat (length (filter (λ n, in_roi r n = true) p))
|}.

End WithFloat.
End ListProvider.

(** ** Concrete inputs *)

Module Examples.
Import Fragments Exact Daisy ParallelFragments ListProvider Networkx.

Definition row (a b : Z) : nd frac := Node [Node [Leaf (Frac a 1); Leaf (Frac b 1)]].

(** One channel of affinities: two slices of one row of two voxels. *)
Definition channel (v : Z) : nd frac := Node [row v v; row v v].

(** Affinities 1 everywhere. *)
Definition bright_affs : affinities :=
  {| affs_dtype := dtype_float32;
     affs_values := Node [channel 1; channel 1; channel 1] |}.

(** A volume of 1 x 2 x 3 voxels of size (40, 4, 4), processed in two
    blocks of one row each with a context of one voxel along y, so that
    both blocks read the whole volume. *)
Definition volume_roi : Roi :=
  {| get_offset := [0; 0; 0]; get_shape := [40; 8; 12] |}.

Definition two_rows (v : Z) : nd frac :=
  Node [Node [Node [Leaf (Frac v 1); Leaf (Frac v 1); Leaf (Frac v 1)];
              Node [Leaf (Frac v 1); Leaf (Frac v 1); Leaf (Frac v 1)]]].

Definition volume_affs : Array frac :=
  {| data := Node [two_rows 1; two_rows 1; two_rows 1];
     dtype := dtype_float32;
     channel_dims := 1;
     roi := volume_roi;
     voxel_size := [40; 4; 4] |}.

Definition block_0 : Block :=
  {| block_id := 0;
     read_roi := {| get_offset := [0; -4; 0]; get_shape := [40; 12; 12] |};
     write_roi := {| get_offset := [0; 0; 0]; get_shape := [40; 4; 12] |};
     requested_write_roi :=
       {| get_offset := [0; 0; 0]; get_shape := [40; 4; 12] |} |}.

Definition block_1 : Block :=
  {| block_id := 1;
     read_roi := {| get_offset := [0; 0; 0]; get_shape := [40; 12; 12] |};
     write_roi := {| get_offset := [0; 4; 0]; get_shape := [40; 4; 12] |};
     requested_write_roi :=
       {| get_offset := [0; 4; 0]; get_shape := [40; 4; 12] |} |}.

(** A watershed result over the volume: seeds, in scan order, at the
    voxels (0,0,0), (0,0,1), (0,1,1) and (0,1,2); fragment 1 reaches down
    to (0,1,0) and fragment 4 up to (0,0,2). *)
Definition four_fragments : nd Z :=
  Node [Node [Node [Leaf 1; Leaf 2; Leaf 4];
              Node [Leaf 1; Leaf 3; Leaf 4]]].

Definition extract_four (_ : affinities) (_ : bool) (_ : frac)
  : result (nd Z * Z) :=
  Return (four_fragments, 4).

(** A watershed that finds nothing. *)
Definition extract_nothing (_ : affinities) (_ : bool) (_ : frac)
  : result (nd Z * Z) :=
  Return (Node [Node [Node [Leaf 0; Leaf 0; Leaf 0];
                      Node [Leaf 0; Leaf 0; Leaf 0]]], 0).

Definition empty_world : World :=
  {| fragments_out := []; rag_provider := ([] : list rag_node) |}.

(** Two fragments joined by a merged edge. *)
Definition two_merged : Graph :=
  add_edge (add_nodes_from empty_graph [1; 2]) 1 2
    {[ "merged"%string := PyInt 1; "agglomerated"%string := PyInt 1 ]}.

(** Three fragments, all adjacent; the edge between 1 and 2 is merged, the
    two edges to 3 are not, and each of those has a centre. *)
Definition triangle : Graph :=
  add_edge
    (add_edge
       (add_edge (add_nodes_from empty_graph [1; 2; 3]) 1 2
          {[ "merged"%string := PyInt 1; "agglomerated"%string := PyInt 1;
             "center_z"%string := PyFloat 3 0 ]})
       2 3
       {[ "merged"%string := PyInt 0; "agglomerated"%string := PyInt 1;
          "center_z"%string := PyFloat 5 0 ]})
    1 3
    {[ "merged"%string := PyInt 0; "agglomerated"%string := PyInt 1;
       "center_z"%string := PyFloat 7 0 ]}.

(** Affinities with two channels only. *)
Definition two_channels : affinities :=
  {| affs_dtype := dtype_float32;
     affs_values := Node [channel 1; channel 1] |}.

(** Affinities 1 everywhere over one slice of two rows of two voxels. *)
Definition square (v : Z) : nd frac :=
  Node [Node [Node [Leaf (Frac v 1); Leaf (Frac v 1)];
              Node [Leaf (Frac v 1); Leaf (Frac v 1)]]].

Definition square_affs : affinities :=
  {| affs_dtype := dtype_float32;
     affs_values := Node [square 1; square 1; square 1] |}.

(** Three descriptor channels over one row of two voxels, of squared
    length 1 at both voxels. *)
Definition unit_lsds : nd frac := Node [row 1 0; row 0 1; row 0 0].

(** Block 1 with the whole volume as its write region. *)
Definition wide_block_1 : Block :=
  {| block_id := 1;
     read_roi := read_roi block_1;
     write_roi := {| get_offset := [0; 0; 0]; get_shape := [40; 8; 12] |};
     requested_write_roi := requested_write_roi block_1 |}.

(** A mask over the volume that is 0 at the voxel (0,0,1). *)
Definition holed_mask : Array Z :=
  {| data := Node [Node [Node [Leaf 1; Leaf 0; Leaf 1];
                         Node [Leaf 1; Leaf 1; Leaf 1]]];
     dtype := dtype_uint8; channel_dims := 0;
     roi := volume_roi; voxel_size := [40; 4; 4] |}.

(** Blocks of one row of three voxels of size 1, and the fragments
    cropped to them, with a label above the three voxels of a block. *)
Definition unit_block (i : Z) : Block :=
  let r := {| get_offset := [0; i; 0]; get_shape := [1; 1; 3] |} in
  {| block_id := i; read_roi := r; write_roi := r; requested_write_roi := r |}.

Definition unit_row (i : Z) : Array Z :=
  {| data := Node [Node [Node [Leaf 1; Leaf 2; Leaf 4]]];
     dtype := dtype_uint64; channel_dims := 0;
     roi := write_roi (unit_block i); voxel_size := [1; 1; 1] |}.

(** Two fragments joined by an edge without attributes. *)
Definition bare_pair : Graph :=
  {| node := {[ 1 := ∅; 2 := ∅ ]}; edge := {[ (1, 2) := ∅ ]} |}.

(** Two fragments joined by an edge that is not merged. *)
Definition unmerged_pair : Graph :=
  {| node := {[ 1 := ∅; 2 := ∅ ]};
     edge := {[ (1, 2) := {[ "merged"%string := PyInt 0 ]} ]} |}.

(** An agglomeration of [unmerged_pair] into the one node 2. *)
Definition pair_as_one : Graph :=
  {| node := {[ 2 := {[ "labels"%string := PyList [1; 2] ]} ]}; edge := ∅ |}.

(** A merged graph that lists fragment 2 only. *)
Definition only_two : Graph :=
  {| node := {[ 2 := {[ "labels"%string := PyList [2] ]} ]}; edge := ∅ |}.

End Examples.

#[local] Set Warnings "-clear-no-such-hyp".
(** * Properties *)

(** ** Exceptions *)

Module PyFacts.

Lemma rbind_Return {A B} (m : result A) (f : A → result B) (b : B) :
  rbind m f = Return b → ∃ a, m = Return a ∧ f a = Return b.
Proof. destruct m as [a | e]; simpl; [eauto | discriminate]. Qed.

Tactic Notation "inv_rbind" hyp(H) "as" ident(x) ident(Hx) :=
  unfold mbind, result_bind in H;
  apply rbind_Return in H;
  destruct H as (x & Hx & H).

Lemma mapM_total {A B} (f : A → result B) (l : list A) :
  (∀ x, x ∈ l → ∃ y, f x = Return y) → ∃ ys, mapM f l = Return ys.
Proof.
  induction l as [| x l IH]; intros Hl; simpl; [eauto |].
  destruct (Hl x) as [y Hy]; [left |]. rewrite Hy. simpl.
  destruct IH as [ys Hys]; [intros; apply Hl; right; assumption |].
  rewrite Hys. simpl. eauto.
Qed.

Lemma filter_none {A} (P : A → Prop) `{∀ x, Decision (P x)} (l : list A) :
  (∀ x, x ∈ l → ¬ P x) → filter P l = [].
Proof.
  induction l as [| x l IH]; intros Hl; [reflexivity |].
  rewrite filter_cons. destruct (decide (P x)) as [HP | _].
  - exfalso. apply (Hl x); [constructor | exact HP].
  - apply IH. intros y Hy. apply Hl. constructor. exact Hy.
Qed.

End PyFacts.

(** ** Arrays *)

Module NpFacts.
Import PyFacts.

(** Induction over nested arrays: the rows of a node satisfy the property. *)
Lemma nd_induction {A} (P : nd A → Prop) :
  (∀ x, P (Leaf x)) →
  (∀ l, Forall P l → P (Node l)) →
  ∀ a, P a.
Proof.
  intros HLeaf HNode.
  fix IH 1. intros [x | l].
  - apply HLeaf.
  - apply HNode. induction l as [| y l IHl]; constructor; [apply IH | apply IHl].
Qed.

Lemma elem_of_concat_map {A B} (f : A → list B) (l : list A) (y : B) :
  y ∈ List.concat (List.map f l) ↔ ∃ x, x ∈ l ∧ y ∈ f x.
Proof.
  induction l as [| x l IH]; simpl.
  - split; [intros H; inversion H | intros (x & H & _); inversion H].
  - rewrite elem_of_app, IH. split.
    + intros [H | (x' & H1 & H2)]; [exists x | exists x']; split; auto; constructor; auto.
    + intros (x' & H1 & H2). inversion H1; subst; [left | right]; eauto.
Qed.

Lemma elems_Node {A} (l : list (nd A)) (y : A) :
  y ∈ elems (Node l) ↔ ∃ x, x ∈ l ∧ y ∈ elems x.
Proof. simpl. apply elem_of_concat_map. Qed.

Lemma elems_nd_map {A B} (f : A → B) (a : nd A) :
  elems (nd_map f a) = f <$> elems a.
Proof.
  induction a as [x | l IH] using nd_induction; [reflexivity |].
  simpl. induction IH as [| x l Hx _ IHl]; [reflexivity |].
  simpl. rewrite fmap_app, <- Hx. f_equal. apply IHl.
Qed.

Lemma elem_of_nd_map {A B} (f : A → B) (a : nd A) (y : B) :
  y ∈ elems (nd_map f a) ↔ ∃ x, y = f x ∧ x ∈ elems a.
Proof. rewrite elems_nd_map. apply list_elem_of_fmap. Qed.

Lemma shape_nd_map {A B} (f : A → B) (a : nd A) :
  shape (nd_map f a) = shape a.
Proof.
  induction a as [x | l IH] using nd_induction; [reflexivity |].
  simpl. rewrite length_map. f_equal.
  destruct IH as [| x l Hx _]; [reflexivity | exact Hx].
Qed.

Lemma at_index_nd_map {A B} (f : A → B) (p : list nat) (a : nd A) :
  at_index p (nd_map f a) = f <$> at_index p a.
Proof.
  revert p. induction a as [x | l IH] using nd_induction; intros [| i p]; try reflexivity.
  simpl. change (List.map (nd_map f) l) with (nd_map f <$> l).
  rewrite list_lookup_fmap.
  destruct (l !! i) as [x |] eqn:Hi; [simpl | reflexivity].
  rewrite Forall_forall in IH. apply IH. eapply list_elem_of_lookup_2, Hi.
Qed.

(** [np.zeros(a.shape)] has the shape of [a] and holds zeros only. *)
Lemma shape_zeros {A B} (zero : B) (a : nd A) :
  shape (zeros zero (shape a)) = shape a.
Proof.
  induction a as [x | l IH] using nd_induction; [reflexivity |].
  simpl. rewrite length_replicate. f_equal.
  destruct IH as [| x l Hx _]; [reflexivity |]. simpl. exact Hx.
Qed.

Lemma elems_zeros {A} (zero : A) (s : list nat) (x : A) :
  x ∈ elems (zeros zero s) → x = zero.
Proof.
  revert x. induction s as [| n s IH]; intros x; simpl.
  - intros H. apply list_elem_of_singleton in H. exact H.
  - rewrite elem_of_concat_map. intros (r & Hr & Hx).
    apply elem_of_replicate in Hr as [-> _]. auto.
Qed.

Lemma uint64_small (z : Z) : 0 ≤ z < 2 ^ 64 → uint64 z = z.
Proof. intros H. unfold uint64. apply Z.mod_small. exact H. Qed.

Lemma at_index_elems {A} (p : list nat) (a : nd A) (x : A) :
  at_index p a = Some x → x ∈ elems a.
Proof.
  revert p. induction a as [y | l IH] using nd_induction; intros [| i p] Hp;
    simpl in Hp; try discriminate.
  - injection Hp as ->. constructor.
  - destruct (l !! i) as [r |] eqn:Hi; [| discriminate].
    apply elems_Node. exists r.
    assert (r ∈ l) as Hr by (eapply list_elem_of_lookup_2, Hi).
    split; [exact Hr |].
    rewrite Forall_forall in IH. eapply IH; eauto.
Qed.

Lemma amax_bound (a : nd Z) (top : Z) :
  amax a = Return top → ∀ l, l ∈ elems a → l ≤ top.
Proof.
  unfold amax. destruct (elems a) as [| x xs]; [discriminate |].
  intros [= <-] l Hl. revert l Hl.
  induction xs as [| y xs IH]; intros l Hl; simpl.
  - apply list_elem_of_singleton in Hl as ->. lia.
  - apply elem_of_cons in Hl as [-> | Hl].
    + specialize (IH x ltac:(left)). lia.
    + apply elem_of_cons in Hl as [-> | Hl]; [lia |].
      specialize (IH l ltac:(right; exact Hl)). lia.
Qed.

Lemma amax_total (a : nd Z) : elems a ≠ [] → ∃ top, amax a = Return top.
Proof. unfold amax. destruct (elems a); [congruence | eauto]. Qed.

(** An array of zeros: its maximum is 0 and [relabel] counts no label. *)
Lemma amax_zeros (a : nd Z) :
  elems a ≠ [] → (∀ l, l ∈ elems a → l = 0) → amax a = Return 0.
Proof.
  unfold amax. intros Hne Hz. destruct (elems a) as [| x xs]; [congruence |].
  f_equal. assert (x = 0) as -> by (apply Hz; constructor).
  assert (∀ l, l ∈ xs → l = 0) as Hxs by (intros l Hl; apply Hz; constructor; exact Hl).
  clear Hz Hne. induction xs as [| y xs IH]; [reflexivity |].
  simpl. rewrite IH by (intros l Hl; apply Hxs; constructor; exact Hl).
  rewrite (Hxs y) by constructor. reflexivity.
Qed.

End NpFacts.

(** ** fragments.py *)

Module FragmentsFacts.
Import Fragments PyFacts NpFacts.

Lemma bind_Return {A B} (m : M A) (f : A → M B) (t : list call) (b : B) :
  bind m f = (t, Return b) →
  ∃ t1 a t2, m = (t1, Return a) ∧ f a = (t2, Return b) ∧ t = t1 ++ t2.
Proof.
  unfold bind. destruct m as [t1 [a | e]]; [| discriminate].
  destruct (f a) as [t2 r] eqn:Hf. intros [= <- ->]. eauto 6.
Qed.

Lemma lift_Return {A} (r : result A) (t : list call) (a : A) :
  lift r = (t, Return a) → r = Return a.
Proof. unfold lift. congruence. Qed.

Lemma invoke_Return {A} (c : call) (x : A) (t : list call) (a : A) :
  invoke c x = (t, Return a) → x = a.
Proof. unfold invoke. congruence. Qed.

Tactic Notation "inv_bind" hyp(H) "as" ident(x) ident(Hx) :=
  unfold mbind, M_bind in H;
  apply bind_Return in H;
  destruct H as (? & x & ? & Hx & H & ?).

Section Labels.
Context {FO : FloatOps} {P : @Primitives FO} {PS : @PrimitivesSpec FO P}.

(** The labels [get_seeds] hands over are 0 or lie in
    [(next_id, next_id + num_seeds]]. *)
Lemma get_seeds_range (boundary : nd float) (next_id : Z) t seeds n :
  get_seeds boundary next_id = (t, Return (seeds, n)) →
  0 ≤ n ∧ ∀ l, l ∈ elems seeds → l = 0 ∨ next_id < l ≤ next_id + n.
Proof.
  unfold get_seeds. intros H.
  inv_bind H as distance Hd. apply invoke_Return in Hd as <-.
  inv_bind H as maxima Hm. apply invoke_Return in Hm as <-.
  inv_bind H as sn Hl. apply invoke_Return in Hl.
  destruct sn as [seeds0 n0].
  unfold ret in H. injection H as _ <- <-.
  pose proof (label_count (mahotas_regmax
    (mahotas_distance (nd_map (λ v, f_ltb v f_half) boundary)))) as Hn.
  pose proof (label_range (mahotas_regmax
    (mahotas_distance (nd_map (λ v, f_ltb v f_half) boundary)))) as Hr.
  rewrite Hl in Hn, Hr. simpl in Hn, Hr. split; [exact Hn |].
  intros l Hin. apply elem_of_nd_map in Hin as (l1 & -> & Hin).
  apply elem_of_nd_map in Hin as (l0 & -> & Hin).
  apply Hr in Hin.
  destruct (decide (l0 + next_id = next_id)); [left; reflexivity | right; lia].
Qed.

Lemma wfbd_range (bd : nd float) (return_seeds : bool) (id_offset : Z) t r :
  watershed_from_boundary_distance bd return_seeds id_offset = (t, Return r) →
  0 ≤ id_offset → ret_1 r < 2 ^ 64 →
  id_offset ≤ ret_1 r
  ∧ ∀ l, l ∈ elems (ret_0 r) → l = 0 ∨ id_offset < l ≤ ret_1 r.
Proof.
  unfold watershed_from_boundary_distance. intros H Hoff Hfit.
  inv_bind H as max_filtered Hf. apply invoke_Return in Hf as <-.
  inv_bind H as maxima Hm. apply lift_Return in Hm.
  inv_bind H as sn Hl. apply invoke_Return in Hl.
  destruct sn as [seeds n].
  pose proof (label_count maxima) as Hn. pose proof (label_range maxima) as Hr.
  rewrite Hl in Hn, Hr. simpl in Hn, Hr.
  destruct (decide (n = 0)) as [-> | Hn0].
  - unfold ret in H. injection H as _ <-. simpl. split; [lia |].
    intros l Hin. left. eapply elems_zeros, Hin.
  - inv_bind H as top Ht. inv_bind H as fragments Hw.
    apply invoke_Return in Hw as <-.
    assert (ret_1 r = n + id_offset ∧
            ret_0 r = astype_uint64
              (mahotas_cwatershed (nd_map (λ v, f_sub top v) bd)
                 (nd_map (λ s, if decide (s ≠ 0) then s + id_offset else s) seeds)))
      as [H1r H0r].
    { destruct return_seeds; unfold ret in H; injection H as _ <-; auto. }
    rewrite H1r in *. split; [lia |].
    intros l Hin. rewrite H0r in Hin. unfold astype_uint64 in Hin.
    apply elem_of_nd_map in Hin as (l1 & -> & Hin).
    apply cwatershed_labels in Hin as [-> | Hin]; [left; reflexivity |].
    apply elem_of_nd_map in Hin as (l0 & -> & Hin). apply Hr in Hin.
    destruct (decide (l0 ≠ 0)).
    + right. rewrite uint64_small; lia.
    + left. assert (l0 = 0) as -> by lia. reflexivity.
Qed.

Lemma xy_slice_range (use_mahotas : bool) (mav : float) (mean_affs : nd float)
    (z : nat) (id_offset : Z) t r :
  xy_slice use_mahotas mav mean_affs z id_offset = (t, Return r) →
  0 ≤ id_offset → ret_1 r < 2 ^ 64 →
  ∀ l, l ∈ elems (ret_0 r) → l = 0 ∨ id_offset < l ≤ ret_1 r.
Proof.
  unfold xy_slice. intros H Hoff Hfit. destruct use_mahotas.
  - inv_bind H as inv_z Hz. inv_bind H as sn Hs. destruct sn as [seeds n].
    apply get_seeds_range in Hs as [Hn Hr].
    inv_bind H as f Hw. apply invoke_Return in Hw as <-.
    unfold ret in H. injection H as _ <-. simpl in *.
    intros l Hin. apply cwatershed_labels in Hin as [-> | Hin]; auto.
  - inv_bind H as mean_z Hz. inv_bind H as bd Hb. apply invoke_Return in Hb as <-.
    eapply wfbd_range; eauto.
Qed.

(** The offset never decreases. *)
Lemma wfbd_mono (bd : nd float) (return_seeds : bool) (id_offset : Z) t r :
  watershed_from_boundary_distance bd return_seeds id_offset = (t, Return r) →
  id_offset ≤ ret_1 r.
Proof.
  unfold watershed_from_boundary_distance. intros H.
  inv_bind H as max_filtered Hf. inv_bind H as maxima Hm.
  inv_bind H as sn Hl. apply invoke_Return in Hl.
  destruct sn as [seeds n].
  pose proof (label_count maxima) as Hn. rewrite Hl in Hn. simpl in Hn.
  destruct (decide (n = 0)) as [-> | Hn0].
  - unfold ret in H. injection H as _ <-. simpl. lia.
  - inv_bind H as top Ht. inv_bind H as fragments Hw.
    destruct return_seeds; unfold ret in H; injection H as _ <-; simpl; lia.
Qed.

Lemma xy_slice_mono (use_mahotas : bool) (mav : float) (mean_affs : nd float)
    (z : nat) (id_offset : Z) t r :
  xy_slice use_mahotas mav mean_affs z id_offset = (t, Return r) →
  id_offset ≤ ret_1 r.
Proof.
  unfold xy_slice. intros H. destruct use_mahotas.
  - inv_bind H as inv_z Hz. inv_bind H as sn Hs. destruct sn as [seeds n].
    apply get_seeds_range in Hs as [Hn Hr].
    inv_bind H as f Hw.
    unfold ret in H. injection H as _ <-. simpl. lia.
  - inv_bind H as mean_z Hz. inv_bind H as bd Hb.
    eapply wfbd_mono; eauto.
Qed.

Lemma xy_loop_cons (use_mahotas : bool) (mav : float) (mean_affs : nd float)
    (z : nat) (zs : list nat) (fragments : nd Z) (id_offset : Z) :
  xy_loop use_mahotas mav mean_affs (z :: zs) fragments id_offset
  = bind (xy_slice use_mahotas mav mean_affs z id_offset) (λ r,
      bind (lift (setitem_uint64 fragments z (ret_0 r))) (λ fragments,
        xy_loop use_mahotas mav mean_affs zs fragments (ret_1 r))).
Proof. reflexivity. Qed.

Lemma xy_loop_mono (use_mahotas : bool) (mav : float) (mean_affs : nd float)
    (zs : list nat) :
  ∀ (fragments : nd Z) (id_offset : Z) t fragments' id_offset',
    xy_loop use_mahotas mav mean_affs zs fragments id_offset
    = (t, Return (fragments', id_offset')) →
    id_offset ≤ id_offset'.
Proof.
  induction zs as [| z zs IH]; intros F off t F' off' H.
  - unfold xy_loop, ret in H. injection H as _ _ <-. lia.
  - rewrite xy_loop_cons in H. inv_bind H as r Hr. inv_bind H as F1 HF.
    apply xy_slice_mono in Hr. apply IH in H. lia.
Qed.

(** [fragments[z] = b] changes row [z] only. *)
Lemma setitem_getitem (a : nd Z) (z : nat) (b a' : nd Z) :
  setitem_uint64 a z b = Return a' →
  getitem a' z = Return (astype_uint64 b)
  ∧ ∀ z', z' ≠ z → getitem a' z' = getitem a z'.
Proof.
  unfold setitem_uint64. destruct a as [x | l]; [discriminate |].
  destruct (l !! z) as [old |] eqn:Hz; [| discriminate].
  destruct (decide (shape old = shape b)); [| discriminate].
  intros [= <-]. simpl. split.
  - rewrite list_lookup_insert_eq; [reflexivity |].
    eapply lookup_lt_Some, Hz.
  - intros z' Hne. rewrite list_lookup_insert_ne; auto.
Qed.

Lemma xy_loop_disjoint (use_mahotas : bool) (mav : float) (mean_affs : nd float)
    (k : nat) :
  ∀ (z : nat) (fragments : nd Z) (id_offset : Z) t fragments' id_offset',
    xy_loop use_mahotas mav mean_affs (seq z k) fragments id_offset
    = (t, Return (fragments', id_offset')) →
    0 ≤ id_offset → id_offset' < 2 ^ 64 →
    slices_bounded_below z id_offset fragments →
    slices_disjoint_below z fragments →
    slices_bounded_below (z + k) id_offset' fragments'
    ∧ slices_disjoint_below (z + k) fragments'.
Proof.
  induction k as [| k IH]; intros z F off t F' off' H Hoff Hfit Hb Hd.
  - unfold seq, xy_loop, ret in H. injection H as _ <- <-.
    rewrite Nat.add_0_r. auto.
  - change (seq z (S k)) with (z :: seq (S z) k) in H.
    rewrite xy_loop_cons in H. inv_bind H as r Hr. inv_bind H as F1 HF. apply lift_Return in HF.
    pose proof (xy_slice_mono _ _ _ _ _ _ _ Hr) as Hm1.
    pose proof (xy_loop_mono _ _ _ _ _ _ _ _ _ H) as Hm2.
    pose proof (xy_slice_range _ _ _ _ _ _ _ Hr Hoff ltac:(lia)) as Hrange.
    apply setitem_getitem in HF as [Hz Hother].
    assert (∀ l, l ∈ elems (astype_uint64 (ret_0 r)) →
                 l = 0 ∨ off < l ≤ ret_1 r) as Hnew.
    { intros l Hin. unfold astype_uint64 in Hin.
      apply elem_of_nd_map in Hin as (l0 & -> & Hin).
      destruct (Hrange _ Hin) as [-> | ?]; [left; reflexivity |].
      right. rewrite uint64_small; lia. }
    replace (z + S k)%nat with (S z + k)%nat by lia.
    apply (IH (S z) F1 (ret_1 r) _ F' off' H); [lia | lia | |].
    + intros z' s l Hlt Hs Hin.
      destruct (decide (z' = z)) as [-> | Hne].
      * rewrite Hz in Hs. injection Hs as <-.
        destruct (Hnew _ Hin); lia.
      * rewrite Hother in Hs by exact Hne.
        assert (0 ≤ l ≤ off) by (eapply Hb; [| eauto | eauto]; lia). lia.
    + intros z1 z2 s1 s2 l Hlt1 Hlt2 Hne Hs1 Hs2 Hl Hin1 Hin2.
      destruct (decide (z1 = z)) as [-> | Hne1];
        destruct (decide (z2 = z)) as [-> | Hne2]; [congruence | | |].
      * rewrite Hz in Hs1. injection Hs1 as <-.
        rewrite Hother in Hs2 by exact Hne2.
        assert (0 ≤ l ≤ off) by (eapply Hb; [| eauto | eauto]; lia).
        destruct (Hnew _ Hin1); lia.
      * rewrite Hz in Hs2. injection Hs2 as <-.
        rewrite Hother in Hs1 by exact Hne1.
        assert (0 ≤ l ≤ off) by (eapply Hb; [| eauto | eauto]; lia).
        destruct (Hnew _ Hin2); lia.
      * rewrite Hother in Hs1 by exact Hne1.
        rewrite Hother in Hs2 by exact Hne2.
        eapply (Hd z1 z2); eauto; lia.
Qed.

(** The loop assigns rows; it never adds one. *)
Lemma xy_loop_rows (use_mahotas : bool) (mav : float) (mean_affs : nd float)
    (zs : list nat) :
  ∀ (fragments : nd Z) (id_offset : Z) t fragments' id_offset' z s,
    xy_loop use_mahotas mav mean_affs zs fragments id_offset
    = (t, Return (fragments', id_offset')) →
    getitem fragments' z = Return s →
    ∃ s0, getitem fragments z = Return s0.
Proof.
  induction zs as [| z0 zs IH]; intros F off t F' off' z s H Hs.
  - unfold xy_loop, ret in H. injection H as _ <- _. eauto.
  - rewrite xy_loop_cons in H. inv_bind H as r Hr. inv_bind H as F1 HF. apply lift_Return in HF.
    destruct (IH _ _ _ _ _ _ _ H Hs) as [s1 Hs1].
    unfold setitem_uint64 in HF. destruct F as [leaf | l]; [discriminate |].
    destruct (l !! z0) as [old |] eqn:Hz; [| discriminate].
    destruct (decide (shape old = shape (ret_0 r))); [| discriminate].
    injection HF as <-. simpl in Hs1 |- *.
    destruct (decide (z = z0)) as [-> | Hne].
    + rewrite Hz. eauto.
    + rewrite list_lookup_insert_ne in Hs1 by auto. eauto.
Qed.


End Labels.

Section Any.
Context {FO : FloatOps} {P : @Primitives FO}.

(** C10.  When no maximum is found ([n == 0]),
    [watershed_from_boundary_distance] returns the pair of an array of
    zeros with the shape of its input and the unchanged [id_offset]: a
    pair also when [return_seeds] is set, and after the calls to the
    maximum filter and to [label] only, the watershed is not called. *)
Theorem no_maxima_gives_zeros (bd : nd float) (return_seeds : bool)
    (id_offset : Z) (maxima : nd bool) (seeds : nd Z) :
  nd_zip_with f_eqb (maximum_filter bd 10) bd = Return maxima →
  mahotas_label maxima = (seeds, 0) →
  watershed_from_boundary_distance bd return_seeds id_offset
  = ([Call_maximum_filter; Call_mahotas_label],
     Return (Ret2 (zeros 0 (shape bd)) id_offset))
  ∧ shape (zeros (0 : Z) (shape bd)) = shape bd
  ∧ (∀ x, x ∈ elems (zeros (0 : Z) (shape bd)) → uint64 x = x ∧ x = 0).
Proof.
  intros Hm Hl. split; [| split].
  - unfold watershed_from_boundary_distance.
    unfold mbind, M_bind, bind, invoke, lift, ret.
    rewrite Hm, Hl. simpl. reflexivity.
  - apply shape_zeros.
  - intros x Hx. apply elems_zeros in Hx as ->. split; reflexivity.
Qed.

(** C4 (what the code does).  Without [fragments_in_xy] and with
    [epsilon_agglomerate > 0] the function never returns: once the
    extraction has succeeded, reading [fragments] for the call to
    [waterz.agglomerate] raises [UnboundLocalError], since only the
    per-slice branch assigns that variable. *)
Theorem agglomeration_without_slices_raises (affs : affinities)
    (epsilon : float) (use_mahotas : bool) :
  f_ltb (f_of_Z 0) epsilon = true →
  (∀ x, (watershed_from_affinities affs false epsilon use_mahotas).2
        ≠ Return x)
  ∧ (∀ t r,
       extract_in_3d (max_affinity_value_of (affs_dtype affs)) (affs_values affs)
       = (t, Return r) →
       watershed_from_affinities affs false epsilon use_mahotas
       = (t, Raise (UnboundLocalError "fragments"))).
Proof.
  intros Heps. unfold watershed_from_affinities.
  destruct (extract_in_3d (max_affinity_value_of (affs_dtype affs))
              (affs_values affs)) as [t [r | e]] eqn:Hex.
  - split.
    + intros x. unfold mbind, M_bind, bind, ret. rewrite Heps. simpl. discriminate.
    + intros t' r' [= <- <-]. unfold mbind, M_bind, bind, ret.
      rewrite Heps. simpl. rewrite !app_nil_r. reflexivity.
  - split; [| discriminate].
    intros x. unfold mbind, M_bind, bind. simpl. discriminate.
Qed.

End Any.
End FragmentsFacts.

(** ** fragments.py on concrete inputs *)

Module FragmentsExamples.
Import Fragments NpFacts FragmentsFacts Exact Examples.

Lemma simple_primitives_spec : @PrimitivesSpec frac_ops simple_primitives.
Proof.
  split.
  - intros b. simpl. destruct (existsb id (elems b)); lia.
  - intros b l Hl. simpl in *.
    apply elem_of_nd_map in Hl as (x & -> & Hx).
    destruct x; [| destruct (existsb id (elems b)); lia].
    assert (existsb id (elems b) = true) as ->; [| lia].
    apply existsb_exists. exists true. split; [| reflexivity].
    apply list_elem_of_In. exact Hx.
  - intros s m l Hl. right. exact Hl.
Qed.


Lemma no_maxima_gives_zeros_witness :
  watershed_from_boundary_distance (row 0 0) true 5
  = ([Call_maximum_filter; Call_mahotas_label],
     Return (Ret2 (Node [Node [Leaf 0; Leaf 0]]) 5)).
Proof.
  eapply proj1,
    (@no_maxima_gives_zeros frac_ops simple_primitives (row 0 0) true 5
       (Node [Node [Leaf false; Leaf false]])
       (Node [Node [Leaf 0; Leaf 0]]));
    reflexivity.
Defined.

Lemma agglomeration_without_slices_raises_witness :
  f_ltb (f_of_Z 0) (Frac 1 10) = true
  ∧ watershed_from_affinities bright_affs false (Frac 1 10) true
    = ([Call_distance_transform_edt; Call_maximum_filter; Call_mahotas_label;
        Call_mahotas_cwatershed],
       Raise (UnboundLocalError "fragments")).
Proof.
  split; [reflexivity |].
  eapply (proj2
    (@agglomeration_without_slices_raises frac_ops simple_primitives
       bright_affs (Frac 1 10) true eq_refl)).
  reflexivity.
Defined.

End FragmentsExamples.

(** ** parallel_fragments.py *)

Module ParallelFragmentsFacts.
Import Fragments Daisy Funlib Scipy ParallelFragments PyFacts NpFacts.

(** [replace_values] leaves a value that is not among the old ones. *)
Lemma replace_values_other (a : nd Z) (old_values new_values : list Z)
    (p : list nat) (v : Z) :
  v ∉ old_values →
  at_index p a = Some v →
  at_index p (replace_values a old_values new_values) = Some v.
Proof.
  intros Hv Hp. unfold replace_values. rewrite at_index_nd_map, Hp. simpl.
  destruct (list_find (λ o, o = v) old_values) as [[i o] |] eqn:Hfind;
    [| reflexivity].
  apply list_find_Some in Hfind as (Hi & -> & _).
  exfalso. apply Hv. eapply list_elem_of_lookup_2, Hi.
Qed.

(** Replacing by zeros keeps the zeros. *)
Lemma replace_values_by_zero (a : nd Z) (old_values : list Z) (p : list nat) :
  at_index p a = Some 0 →
  at_index p (replace_values a old_values ((λ _, 0) <$> old_values)) = Some 0.
Proof.
  intros Hp. unfold replace_values. rewrite at_index_nd_map, Hp. simpl.
  destruct (list_find (λ o, o = 0) old_values) as [[i o] |]; [| reflexivity].
  rewrite list_lookup_fmap. destruct (old_values !! i); reflexivity.
Qed.

(** [relabel] keeps the background. *)
Lemma relabel_zero (a : nd Z) (p : list nat) :
  at_index p a = Some 0 → at_index p (relabel a).1 = Some 0.
Proof.
  intros Hp. unfold relabel. simpl. apply replace_values_other; [| exact Hp].
  intros Hin. apply list_elem_of_filter in Hin as [Hne _]. congruence.
Qed.

Lemma bump_ids_zero (id_bump : Z) (a : nd Z) (p : list nat) :
  at_index p a = Some 0 → at_index p (bump_ids id_bump a) = Some 0.
Proof.
  intros Hp. unfold bump_ids. rewrite at_index_nd_map, Hp. reflexivity.
Qed.

Lemma relabel_zeros (a : nd Z) :
  (∀ l, l ∈ elems a → l = 0) → (relabel a).2 = 0.
Proof.
  intros Hz. unfold relabel. simpl.
  rewrite filter_none; [reflexivity |].
  intros x Hx Hne. apply Hne, Hz.
  rewrite merge_sort_Permutation, elem_of_remove_dups in Hx. exact Hx.
Qed.

Section Block.
Context {FO : FloatOps} {RP : @RagProvider FO}.
Variable watershed_from_affinities :
  affinities → bool → float → result (nd Z * Z).

Lemma relabel_large_ids_zero (block : Block) (a : nd Z) (n : Z) a' n' p :
  relabel_large_ids block a n = Return (a', n') →
  at_index p a = Some 0 → at_index p a' = Some 0.
Proof.
  unfold relabel_large_ids. intros H Hp.
  inv_rbind H as max_id Hmax.
  destruct (decide (size (write_roi block) < max_id)).
  - injection H as <- _. apply (relabel_zero a p Hp).
  - injection H as <- _. exact Hp.
Qed.

Lemma post_process_myelin_zero myelin_ds centers (a : nd Z) p :
  at_index p a = Some 0 →
  at_index p (post_process_myelin myelin_ds centers a).2 = Some 0.
Proof.
  intros Hp. unfold post_process_myelin.
  destruct myelin_ds as [is_myelin |]; simpl; [| exact Hp].
  apply replace_values_by_zero, Hp.
Qed.

Lemma prepare_output_zero (block : Block) (fragments : Array Z) (n : Z)
    myelin_ds out centers p :
  prepare_output block fragments n myelin_ds = Return (Some (out, centers)) →
  at_index p (data fragments) = Some 0 →
  at_index p out = Some 0.
Proof.
  unfold prepare_output. intros H Hp.
  inv_rbind H as an Hrel. destruct an as [a' n'].
  inv_rbind H as id_bump Hbump.
  destruct (decide (n' = 0)); [discriminate |].
  inv_rbind H as fragment_centers Hc.
  pose proof (post_process_myelin_zero myelin_ds fragment_centers
                (bump_ids id_bump a') p) as Hz.
  destruct (post_process_myelin myelin_ds fragment_centers (bump_ids id_bump a'))
    as [centers' out'].
  injection H as <- _. apply Hz, bump_ids_zero.
  eapply relabel_large_ids_zero; eauto.
Qed.

(** C9.  Whatever the block id and the offset: a voxel of the write
    region whose label is 0 after extraction and masking is 0 in the
    array written to [fragments_out] (if the block writes at all): the
    offset is added to positive labels only. *)
Theorem background_stays_zero (affs : Array float) (block : Block)
    (fragments_in_xy : bool) (epsilon : float) (mask : option (Array Z))
    (myelin_ds : option (Z → list float → bool)) (w : World)
    (cropped : Array Z) (n : Z) :
  extract_and_crop watershed_from_affinities affs block fragments_in_xy
                   epsilon mask = Return (cropped, n) →
  let w' := (watershed_in_block watershed_from_affinities affs block
               fragments_in_xy epsilon mask myelin_ds w).1 in
  fragments_out w' = fragments_out w
  ∨ ∃ written,
      fragments_out w' = (write_roi block, written) :: fragments_out w
      ∧ ∀ p, at_index p (data cropped) = Some 0 → at_index p written = Some 0.
Proof.
  intros Hex. unfold watershed_in_block.
  unfold mbind at 1, result_bind at 1. rewrite Hex. simpl.
  destruct (prepare_output block cropped n myelin_ds) as [[[out centers] |] | e]
    eqn:Hprep; simpl; [| left; reflexivity | left; reflexivity].
  right. exists out. split.
  - destruct (node_list centers); reflexivity.
  - intros p Hp. eapply prepare_output_zero; eauto.
Qed.


End Block.
End ParallelFragmentsFacts.

(** ** parallel_fragments.py: the range of the ids of a block *)

Module BlockRangeFacts.
Import Fragments Daisy Funlib Scipy ParallelFragments PyFacts NpFacts.

(** [relabel] gives the labels [1..n] and keeps 0. *)
Lemma relabel_range (a : nd Z) (l : Z) :
  l ∈ elems (relabel a).1 → 0 ≤ l ≤ (relabel a).2.
Proof.
  unfold relabel. simpl.
  set (old := filter (λ v, v ≠ 0) (merge_sort Z.le (remove_dups (elems a)))).
  intros Hl. unfold replace_values in Hl.
  apply elem_of_nd_map in Hl as (v & -> & Hv).
  destruct (list_find (λ o, o = v) old) as [[i o] |] eqn:Hfind.
  - apply list_find_Some in Hfind as (Hi & _ & _).
    apply lookup_lt_Some in Hi.
    rewrite list_lookup_fmap, lookup_seq_lt by exact Hi. simpl. lia.
  - destruct (decide (v = 0)) as [-> | Hne]; [lia |].
    exfalso. apply list_find_None in Hfind.
    rewrite Forall_forall in Hfind. apply (Hfind v); [| reflexivity].
    subst old. apply list_elem_of_filter. split; [exact Hne |].
    rewrite merge_sort_Permutation, elem_of_remove_dups. exact Hv.
Qed.

(** [relabel] counts at most as many labels as there are voxels. *)
Lemma relabel_count (a : nd Z) :
  (relabel a).2 ≤ Z.of_nat (length (elems a)).
Proof.
  unfold relabel. simpl. apply inj_le.
  etransitivity; [apply length_filter |].
  rewrite merge_sort_Permutation.
  apply submseteq_length, NoDup_submseteq; [apply NoDup_remove_dups |].
  intros x. rewrite elem_of_remove_dups. auto.
Qed.

Lemma replace_by_zero_elems (a : nd Z) (old_values : list Z) (l : Z) :
  l ∈ elems (replace_values a old_values ((λ _, 0) <$> old_values)) →
  l = 0 ∨ l ∈ elems a.
Proof.
  unfold replace_values. intros Hl.
  apply elem_of_nd_map in Hl as (v & -> & Hv).
  destruct (list_find (λ o, o = v) old_values) as [[i o] |]; [| right; exact Hv].
  rewrite list_lookup_fmap. destruct (old_values !! i); simpl; auto.
Qed.

Section Block.
Context {FO : FloatOps} {RP : @RagProvider FO}.
Variable watershed_from_affinities :
  affinities → bool → float → result (nd Z * Z).

(** Python floats give NaN for [0.0/0.0] (as numpy does, with a warning). *)
Hypothesis zero_by_zero : f_isnan (f_div (f_of_Z 0) (f_of_Z 0)) = true.

(** A label without voxels has no centre, and so no node. *)
Lemma fragment_centers_present (offset voxel_size : list Z) (a : nd Z)
    (ids : list Z) (centers : list (Z * list float)) (i : Z) (c : list float) :
  get_fragment_centers offset voxel_size a ids = Return centers →
  (i, c) ∈ centers → i ∈ ids ∧ i ∈ elems a.
Proof.
  unfold get_fragment_centers. intros Hrun Hin.
  inv_rbind Hrun as l Hl. injection Hrun as <-.
  apply list_elem_of_omap in Hin as (o & Ho & Hsome).
  unfold id in Hsome. subst o.
  revert l Hl Ho. unfold center_of_mass.
  induction ids as [| j ids IH]; intros l Hl Ho; simpl in Hl.
  - injection Hl as <-. inversion Ho.
  - unfold mbind, result_bind in Hl.
    apply rbind_Return in Hl as (y & Hy & Hl).
    apply rbind_Return in Hl as (ys & Hys & Hl). injection Hl as <-.
    apply elem_of_cons in Ho as [<- | Ho].
    + clear IH Hys. apply rbind_Return in Hy as (c0 & Hc0 & Hy).
      destruct (f_isnan c0) eqn:Hnan; [discriminate |].
      injection Hy as <- _. split; [left |].
      destruct (decide (j ∈ elems a)) as [Hj | Hj]; [exact Hj | exfalso].
      assert (filter (λ '(_, l), l = j) (zip (items a) (elems a)) = []) as Hnone.
      { apply filter_none. intros [x l0] Hx ->.
        apply Hj. eapply elem_of_zip_r, Hx. }
      rewrite Hnone in Hc0. simpl in Hc0.
      destruct (length (shape a)) as [| k]; simpl in Hc0; [discriminate |].
      injection Hc0 as <-. congruence.
    + destruct (IH ys Hys Ho) as [Hi Ha]. split; [right; exact Hi | exact Ha].
Qed.

Lemma range_from_spec (a n i : Z) : i ∈ range_from a n → a ≤ i.
Proof.
  unfold range_from. intros Hi.
  apply list_elem_of_fmap in Hi as (k & -> & _). lia.
Qed.

(** The guard of lines 172-179 as it is: the relabelling depends on
    [write_roi.size()]. *)
Lemma relabel_large_ids_guard (block : Block) (a : nd Z) (n max_id : Z) :
  amax a = Return max_id →
  relabel_large_ids block a n
  = Return (if decide (size (write_roi block) < max_id)
            then relabel a else (a, n)).
Proof.
  intros Hmax. unfold relabel_large_ids, mbind, result_bind. rewrite Hmax.
  simpl. destruct (decide (size (write_roi block) < max_id)); reflexivity.
Qed.

(** After the guard of lines 172-179 every label is at most [N], if the
    bound of the guard and the number of voxels are. *)
Lemma relabel_large_ids_range (block : Block) (a : nd Z) (n : Z) a' n' (N : Z) :
  relabel_large_ids block a n = Return (a', n') →
  (∀ l, l ∈ elems a → 0 ≤ l) →
  size (write_roi block) ≤ N →
  Z.of_nat (length (elems a)) ≤ N →
  ∀ l, l ∈ elems a' → 0 ≤ l ≤ N.
Proof.
  unfold relabel_large_ids. intros H Hpos Hsize Hvox l Hl.
  inv_rbind H as max_id Hmax.
  destruct (decide (size (write_roi block) < max_id)).
  - injection H as <- _.
    pose proof (relabel_range a l Hl). pose proof (relabel_count a). lia.
  - injection H as <- _.
    pose proof (amax_bound a max_id Hmax l Hl). specialize (Hpos l Hl). lia.
Qed.

Lemma bump_ids_range (id_bump N : Z) (a : nd Z) (l : Z) :
  (∀ l0, l0 ∈ elems a → 0 ≤ l0 ≤ N) →
  0 ≤ id_bump → id_bump + N < 2 ^ 64 →
  l ∈ elems (bump_ids id_bump a) → l = 0 ∨ id_bump < l ≤ id_bump + N.
Proof.
  intros Ha Hb Hfit Hl. unfold bump_ids in Hl.
  apply elem_of_nd_map in Hl as (l0 & -> & Hl0). specialize (Ha l0 Hl0).
  destruct (decide (0 < l0)); [right | left; lia].
  rewrite uint64_small; lia.
Qed.

Lemma node_list_ids (centers : list (Z * list float)) (nodes : list rag_node) :
  node_list centers = Return nodes →
  ∀ nd, nd ∈ nodes → ∃ c, (node_id nd, c) ∈ centers.
Proof.
  unfold node_list. revert nodes.
  induction centers as [| [i c] centers IH]; intros nodes Hrun nd Hnd;
    simpl in Hrun.
  - injection Hrun as <-. inversion Hnd.
  - apply rbind_Return in Hrun as (y & Hy & Hrun).
    apply rbind_Return in Hrun as (ys & Hys & Hrun). injection Hrun as <-.
    apply elem_of_cons in Hnd as [-> | Hnd].
    + unfold mbind, result_bind in Hy.
      apply rbind_Return in Hy as (cz & _ & Hy).
      apply rbind_Return in Hy as (cy & _ & Hy).
      apply rbind_Return in Hy as (cx & _ & Hy).
      injection Hy as <-. simpl. exists c. left.
    + destruct (IH ys Hys nd Hnd) as [c' Hc']. exists c'. right. exact Hc'.
Qed.

(** What lines 172-269 hand to the stores, when the bound of the guard
    ([write_roi.size()]) and the number of voxels of the write region
    are at most the number [N] of voxels of a block, as they are for
    voxels of size 1: the non-zero labels and the node ids lie in
    [(block_id * N, block_id * N + N]]. *)
Lemma prepare_output_range (block : Block) (fragments : Array Z) (n : Z)
    (myelin_ds : option (Z → list float → bool))
    (out : nd Z) (centers : list (Z * list float)) :
  let N := size (requested_write_roi block)
           / foldr Z.mul 1 (voxel_size fragments) in
  let lo := block_id block * N in
  prepare_output block fragments n myelin_ds = Return (Some (out, centers)) →
  (∀ l, l ∈ elems (data fragments) → 0 ≤ l) →
  size (write_roi block) ≤ N →
  Z.of_nat (length (elems (data fragments))) ≤ N →
  0 ≤ block_id block →
  lo + N < 2 ^ 64 →
  (∀ l, l ∈ elems out → l = 0 ∨ lo < l ≤ lo + N)
  ∧ (∀ i c, (i, c) ∈ centers → lo < i ≤ lo + N).
Proof.
  intros N lo Hrun Hpos Hsize Hvox Hid Hfit.
  unfold prepare_output in Hrun.
  inv_rbind Hrun as an Hrel. destruct an as [a' n'].
  inv_rbind Hrun as id_bump Hbump.
  assert (id_bump = lo) as ->.
  { unfold id_bump_of in Hbump.
    destruct (decide (foldr Z.mul 1 (voxel_size fragments) = 0)); [discriminate |].
    injection Hbump as <-. reflexivity. }
  destruct (decide (n' = 0)); [discriminate |].
  inv_rbind Hrun as fragment_centers Hc.
  assert (0 ≤ lo) as Hlo by (subst lo; nia).
  assert (∀ l, l ∈ elems (bump_ids lo a') → l = 0 ∨ lo < l ≤ lo + N) as Hb.
  { intros l. apply bump_ids_range; [| exact Hlo | exact Hfit].
    eapply relabel_large_ids_range; eauto. }
  assert (∀ i c, (i, c) ∈ fragment_centers → lo < i ≤ lo + N) as Hcent.
  { intros i c Hic.
    destruct (fragment_centers_present _ _ _ _ _ _ _ Hc Hic) as [Hi Ha].
    apply range_from_spec in Hi. destruct (Hb i Ha); lia. }
  unfold post_process_myelin in Hrun.
  destruct myelin_ds as [is_myelin |].
  - injection Hrun as <- <-. split.
    + intros l Hl. apply replace_by_zero_elems in Hl as [-> | Hl]; auto.
    + intros i c Hic. apply list_elem_of_filter in Hic as [_ Hic]. eauto.
  - injection Hrun as <- <-. split; assumption.
Qed.

(** Ranges of blocks with different ids do not meet. *)
Lemma block_ranges_apart (i j N l : Z) :
  i ≠ j → 0 ≤ N →
  i * N < l ≤ i * N + N → j * N < l ≤ j * N + N → False.
Proof. intros Hne HN Hi Hj. nia. Qed.

(** The ids a block emits, with the guard's bound at most the voxels of a
    block: the labels written to [fragments_out] are 0 or in the range of
    the block, and so are the ids of the nodes given to the RAG store. *)
Lemma emitted_ids_in_block_range (affs : Array float) (block : Block)
    (fragments_in_xy : bool) (epsilon : float) (mask : option (Array Z))
    (myelin_ds : option (Z → list float → bool)) (w : World)
    (cropped : Array Z) (n : Z) :
  let N := size (requested_write_roi block)
           / foldr Z.mul 1 (voxel_size cropped) in
  let lo := block_id block * N in
  let w' := (watershed_in_block watershed_from_affinities affs block
               fragments_in_xy epsilon mask myelin_ds w).1 in
  extract_and_crop watershed_from_affinities affs block fragments_in_xy
                   epsilon mask = Return (cropped, n) →
  (∀ l, l ∈ elems (data cropped) → 0 ≤ l) →
  size (write_roi block) ≤ N →
  Z.of_nat (length (elems (data cropped))) ≤ N →
  0 ≤ block_id block →
  lo + N < 2 ^ 64 →
  (fragments_out w' = fragments_out w
   ∨ ∃ out, fragments_out w' = (write_roi block, out) :: fragments_out w
            ∧ ∀ l, l ∈ elems out → l = 0 ∨ lo < l ≤ lo + N)
  ∧ (rag_provider w' = rag_provider w
     ∨ ∃ nodes,
         rag_provider w'
         = write_nodes (rag_provider w)
             (add_nodes_from
                (provider_getitem (rag_provider w) (write_roi block)) nodes)
             (write_roi block)
         ∧ ∀ nd, nd ∈ nodes → lo < node_id nd ≤ lo + N).
Proof.
  intros N lo w' Hex Hpos Hsize Hvox Hid Hfit. subst w'.
  unfold watershed_in_block.
  unfold mbind at 1, result_bind at 1. rewrite Hex. simpl.
  destruct (prepare_output block cropped n myelin_ds) as [[[out centers] |] | e]
    eqn:Hprep; simpl; [| split; left; reflexivity | split; left; reflexivity].
  destruct (prepare_output_range _ _ _ _ _ _ Hprep Hpos Hsize Hvox Hid Hfit)
    as [Hout Hcent].
  destruct (node_list centers) as [nodes | e] eqn:Hnodes; simpl.
  - split; right.
    + exists out. split; [reflexivity | exact Hout].
    + exists nodes. split; [reflexivity |].
      intros nd Hnd. destruct (node_list_ids _ _ Hnodes nd Hnd) as [c Hc]. eauto.
  - split; [right | left; reflexivity].
    exists out. split; [reflexivity | exact Hout].
Qed.

End Block.
End BlockRangeFacts.

(** ** parallel_fragments.py on concrete inputs *)

Module ParallelFragmentsExamples.
Import Fragments Daisy Funlib Scipy ParallelFragments.
Import Exact ListProvider Examples ParallelFragmentsFacts.

Lemma background_stays_zero_witness :
  extract_and_crop extract_four volume_affs
    {| block_id := 1;
       read_roi := read_roi block_1;
       write_roi := {| get_offset := [0; 0; 0]; get_shape := [40; 8; 12] |};
       requested_write_roi := requested_write_roi block_1 |}
    false (Frac 0 1)
    (Some {| data := Node [Node [Node [Leaf 1; Leaf 0; Leaf 1];
                                 Node [Leaf 1; Leaf 1; Leaf 1]]];
             dtype := dtype_uint8; channel_dims := 0;
             roi := volume_roi; voxel_size := [40; 4; 4] |})
  = Return ({| data := Node [Node [Node [Leaf 1; Leaf 0; Leaf 4];
                                   Node [Leaf 1; Leaf 3; Leaf 4]]];
               dtype := dtype_uint64; channel_dims := 0;
               roi := {| get_offset := [0; 0; 0]; get_shape := [40; 8; 12] |};
               voxel_size := [40; 4; 4] |}, 4)
  ∧ ∃ written : nd Z, at_index [0; 0; 1]%nat written = Some 0.
Proof.
  split; [reflexivity |].
  destruct (background_stays_zero extract_four volume_affs
              {| block_id := 1;
                 read_roi := read_roi block_1;
                 write_roi := {| get_offset := [0; 0; 0]; get_shape := [40; 8; 12] |};
                 requested_write_roi := requested_write_roi block_1 |}
              false (Frac 0 1)
              (Some {| data := Node [Node [Node [Leaf 1; Leaf 0; Leaf 1];
                                           Node [Leaf 1; Leaf 1; Leaf 1]]];
                       dtype := dtype_uint8; channel_dims := 0;
                       roi := volume_roi; voxel_size := [40; 4; 4] |})
              None empty_world _ 4 eq_refl) as [Hsame | (written & _ & Hzero)].
  - exfalso. vm_compute in Hsame. discriminate.
  - exists written. apply Hzero. reflexivity.
Defined.



(** C2 (what the code does).  In block 0 the cropped fragments have the
    maximum label 4, more than the 3 voxels of the write region, and are
    not relabelled: the guard compares with [write_roi.size()], which is
    1920 for voxels of size (40, 4, 4). *)
Theorem large_ids_are_not_relabelled :
  let cropped := Node [Node [Node [Leaf 1; Leaf 2; Leaf 4]]] in
  (∃ a, extract_and_crop extract_four volume_affs block_0 false (Frac 0 1) None
        = Return (a, 4) ∧ data a = cropped)
  ∧ amax cropped = Return 4
  ∧ length (elems cropped) = 3%nat
  ∧ size (write_roi block_0) = 1920
  ∧ relabel_large_ids block_0 cropped 4 = Return (cropped, 4)
  ∧ fragments_out
      (watershed_in_block extract_four volume_affs block_0 false (Frac 0 1)
         None None empty_world).1
    = [(write_roi block_0, cropped)].
Proof.
  cbv zeta. split; [eexists; split; vm_compute; reflexivity |].
  repeat split; vm_compute; reflexivity.
Qed.

(** C1 (what the code does).  Blocks 0 and 1 both emit the fragment id 4,
    into the output array and into the RAG store: block 0 keeps its label
    4, which exceeds its 3 voxels, and block 1 moves its label 1 up by
    its 3 voxels. *)
Theorem two_blocks_emit_the_same_id :
  let w0 := (watershed_in_block extract_four volume_affs block_0 false
               (Frac 0 1) None None empty_world).1 in
  let w1 := (watershed_in_block extract_four volume_affs block_1 false
               (Frac 0 1) None None empty_world).1 in
  block_id block_0 ≠ block_id block_1
  ∧ get_shape (requested_write_roi block_0) = get_shape (requested_write_roi block_1)
  ∧ fragments_out w0 = [(write_roi block_0, Node [Node [Node [Leaf 1; Leaf 2; Leaf 4]]])]
  ∧ fragments_out w1 = [(write_roi block_1, Node [Node [Node [Leaf 4; Leaf 6; Leaf 7]]])]
  ∧ node_id <$> rag_provider w0 = [1; 2; 4]
  ∧ node_id <$> rag_provider w1 = [4; 6; 7].
Proof.
  cbv zeta. split; [discriminate |].
  repeat split; vm_compute; reflexivity.
Qed.

(** The whole of [watershed_in_block] over the stand-in primitives: the
    3-D watershed finds one fragment, which block 1 stores as id 4. *)
Example block_1_with_simple_primitives :
  let run := watershed_in_block repository_watershed volume_affs block_1 false
               (Frac 0 1) None None empty_world in
  fragments_out run.1
  = [(write_roi block_1, Node [Node [Node [Leaf 4; Leaf 4; Leaf 4]]])]
  ∧ node_id <$> rag_provider run.1 = [4]
  ∧ run.2 = Return ().
Proof. cbv zeta. repeat split; vm_compute; reflexivity. Qed.

(** The exception of the 3-D agglomeration surfaces from
    [watershed_in_block], which then stores nothing. *)
Example block_with_agglomeration_raises :
  let run := watershed_in_block repository_watershed volume_affs block_1 false
               (Frac 1 10) None None empty_world in
  fragments_out run.1 = []
  ∧ node_id <$> rag_provider run.1 = []
  ∧ run.2 = Raise (UnboundLocalError "fragments").
Proof. cbv zeta. repeat split; vm_compute; reflexivity. Qed.

End ParallelFragmentsExamples.

(** ** networkx: breadth-first search and connected components *)

Module NetworkxFacts.
Import Networkx.

Lemma elem_of_adjacent (G : Graph) (u v : Z) :
  v ∈ adjacent G u
  ↔ ∃ d, edge G !! (u, v) = Some d ∨ edge G !! (v, u) = Some d.
Proof.
  unfold adjacent. rewrite elem_of_list_to_set, list_elem_of_omap. split.
  - intros ([[a b] d] & Hin & Hsome).
    apply elem_of_map_to_list in Hin. exists d.
    destruct (decide (a = u)) as [-> | Hne].
    + injection Hsome as ->. left. exact Hin.
    + destruct (decide (b = u)) as [-> | Hne']; [| discriminate].
      injection Hsome as ->. right. exact Hin.
  - intros (d & [Hd | Hd]).
    + exists ((u, v), d). split; [apply elem_of_map_to_list, Hd |].
      destruct (decide (u = u)); [reflexivity | congruence].
    + exists ((v, u), d). split; [apply elem_of_map_to_list, Hd |].
      destruct (decide (v = u)) as [-> | Hne]; [reflexivity |].
      destruct (decide (u = u)); [reflexivity | congruence].
Qed.

Lemma adjacent_sym (G : Graph) (u v : Z) :
  v ∈ adjacent G u → u ∈ adjacent G v.
Proof.
  rewrite !elem_of_adjacent. intros (d & [H | H]); exists d; auto.
Qed.

Lemma adjacent_universe (G : Graph) (u v : Z) :
  v ∈ adjacent G u → v ∈ universe G.
Proof.
  rewrite elem_of_adjacent. intros (d & [H | H]); unfold universe.
  - apply elem_of_union_r, elem_of_list_to_set, list_elem_of_fmap.
    exists ((u, v), d). split; [reflexivity | apply elem_of_map_to_list, H].
  - apply elem_of_union_l, elem_of_union_r, elem_of_list_to_set, list_elem_of_fmap.
    exists ((v, u), d). split; [reflexivity | apply elem_of_map_to_list, H].
Qed.

Lemma connected_sym (G : Graph) (u v : Z) :
  connected G u v → connected G v u.
Proof.
  unfold connected. induction 1 as [| x y z Hxy _ IH]; [constructor |].
  eapply rtc_r; [exact IH |]. apply adjacent_sym, Hxy.
Qed.

Lemma connected_trans (G : Graph) (u v w : Z) :
  connected G u v → connected G v w → connected G u w.
Proof. unfold connected. apply rtc_trans. Qed.

Lemma elem_of_next_level (G : Graph) (level : gset Z) (v : Z) :
  v ∈ ⋃ (adjacent G <$> elements level) ↔ ∃ u, u ∈ level ∧ v ∈ adjacent G u.
Proof.
  rewrite elem_of_union_list. split.
  - intros (X & HX & Hv). apply list_elem_of_fmap in HX as (u & -> & Hu).
    apply elem_of_elements in Hu. eauto.
  - intros (u & Hu & Hv). exists (adjacent G u). split; [| exact Hv].
    apply list_elem_of_fmap. exists u. split; [reflexivity |].
    apply elem_of_elements, Hu.
Qed.

(** A set that holds [source] and is closed under adjacency holds all
    nodes connected to [source]. *)
Lemma closed_set_connected (G : Graph) (S : gset Z) (source : Z) :
  source ∈ S →
  (∀ u v, u ∈ S → v ∈ adjacent G u → v ∈ S) →
  ∀ x, connected G source x → x ∈ S.
Proof.
  intros Hs Hclosed. unfold connected.
  apply rtc_ind_r; [exact Hs |].
  intros y z _ Hyz Hy. eapply Hclosed; eauto.
Qed.

(** The loop of [_plain_bfs] ends within its fuel, with the set of the
    nodes connected to the source. *)
Lemma plain_bfs_loop_correct (G : Graph) (source : Z) :
  ∀ (fuel : nat) (seen nextlevel : gset Z),
    source ∈ seen ∪ nextlevel →
    (∀ x, x ∈ seen ∪ nextlevel → connected G source x) →
    (∀ u v, u ∈ seen → v ∈ adjacent G u → v ∈ seen ∪ nextlevel) →
    seen ∪ nextlevel ⊆ {[source]} ∪ universe G →
    (size (({[source]} ∪ universe G) ∖ seen) + 2 ≤ fuel)%nat →
    ∃ S, plain_bfs_loop fuel G seen nextlevel = Some S
         ∧ ∀ x, x ∈ S ↔ connected G source x.
Proof.
  induction fuel as [| fuel IH]; intros seen next Hsrc Hreach Hclosed Hsub Hfuel;
    [lia |].
  simpl. destruct (decide (next = ∅)) as [-> | Hne].
  - exists seen. split; [reflexivity |]. intros x. split.
    + intros Hx. apply Hreach, elem_of_union_l, Hx.
    + apply closed_set_connected.
      * apply elem_of_union in Hsrc as [Hs | Hs]; [exact Hs |].
        apply elem_of_empty in Hs. destruct Hs.
      * intros u v Hu Hv. specialize (Hclosed u v Hu Hv).
        apply elem_of_union in Hclosed as [Hb | Hb]; [exact Hb |].
        apply elem_of_empty in Hb. destruct Hb.
  - destruct (decide (next ∖ seen = ∅)) as [Hempty | Hnew].
    + rewrite Hempty, elements_empty. simpl.
      rewrite (right_id_L ∅ (∪) seen).
      destruct fuel as [| fuel]; [lia |]. simpl.
      destruct (decide ((∅ : gset Z) = ∅)) as [_ | Hc]; [| congruence].
      exists seen. split; [reflexivity |]. intros x. split.
      * intros Hx. apply Hreach, elem_of_union_l, Hx.
      * clear IH. apply closed_set_connected.
        -- clear Hreach Hclosed Hsub Hfuel. set_solver.
        -- intros u v Hu Hv. specialize (Hclosed u v Hu Hv).
           clear Hreach Hsub Hfuel Hsrc. set_solver.
    + apply IH; clear IH.
      * clear Hreach Hclosed Hsub Hfuel.
        destruct (decide (source ∈ seen)); set_solver.
      * intros x Hx. apply elem_of_union in Hx as [Hx | Hx].
        -- apply Hreach. clear Hreach Hclosed Hsub Hfuel. set_solver.
        -- apply elem_of_next_level in Hx as (u & Hu & Hx).
           eapply rtc_r; [apply Hreach | exact Hx].
           clear Hreach Hclosed Hsub Hfuel. set_solver.
      * intros u v Hu Hv. apply elem_of_union in Hu as [Hu | Hu].
        -- specialize (Hclosed u v Hu Hv).
           clear Hreach Hsub Hfuel Hsrc.
           destruct (decide (v ∈ seen)); set_solver.
        -- apply elem_of_union_r, elem_of_next_level. eauto.
      * intros x Hx. apply elem_of_union in Hx as [Hx | Hx].
        -- clear Hreach Hclosed Hfuel Hsrc. set_solver.
        -- apply elem_of_next_level in Hx as (u & Hu & Hx).
           apply elem_of_union_r. eapply adjacent_universe, Hx.
      * assert (∃ y, y ∈ next ∖ seen) as [y Hy] by (apply set_choose_L, Hnew).
        assert (({[source]} ∪ universe G) ∖ (seen ∪ next ∖ seen)
                ⊂ ({[source]} ∪ universe G) ∖ seen) as Hlt.
        { clear Hreach Hclosed Hfuel Hsrc. split; [set_solver |]. intros Hsup.
          assert (y ∈ ({[source]} ∪ universe G) ∖ seen) as Hy1 by set_solver.
          apply Hsup in Hy1. set_solver. }
        apply subset_size in Hlt. lia.
Qed.

Lemma plain_bfs_correct (G : Graph) (source : Z) :
  ∃ S, plain_bfs G source = Some S ∧ ∀ x, x ∈ S ↔ connected G source x.
Proof.
  unfold plain_bfs. apply plain_bfs_loop_correct.
  - set_solver.
  - intros x Hx. assert (x = source) as -> by set_solver. constructor.
  - intros u v Hu. apply elem_of_empty in Hu. destruct Hu.
  - set_solver.
  - assert (size (({[source]} ∪ universe G) ∖ ∅) ≤ size (universe G) + 1)%nat; [| lia].
    rewrite difference_empty_L.
    rewrite size_union_alt.
    rewrite size_singleton.
    assert (size (universe G ∖ {[source]}) ≤ size (universe G))%nat; [| lia].
    apply subseteq_size. set_solver.
Qed.

(** [connected_components] returns the classes of [connected], once each,
    and every node is in one of them. *)
Lemma connected_components_loop_correct (G : Graph) :
  ∀ (vs : list Z) (seen : gset Z),
    ∃ cs, connected_components_loop G vs seen = Some cs
      ∧ (∀ c, c ∈ cs →
           ∃ v, v ∈ vs ∧ (v ∉ seen) ∧ (∀ x, x ∈ c ↔ connected G v x))
      ∧ (∀ v, v ∈ vs → v ∈ seen ∨ ∃ c, c ∈ cs ∧ v ∈ c)
      ∧ pairwise_disjoint (elements <$> cs).
Proof.
  induction vs as [| v vs IH]; intros seen; simpl.
  - exists []. split; [reflexivity |]. split; [| split].
    + intros c Hc. inversion Hc.
    + intros v Hv. inversion Hv.
    + exact I.
  - destruct (decide (v ∈ seen)) as [Hin | Hout].
    + destruct (IH seen) as (cs & Hrun & Hmem & Hcov & Hdis).
      exists cs. split; [exact Hrun |]. split; [| split].
      * intros c Hc. destruct (Hmem c Hc) as (v' & Hv' & Hns & Hx).
        exists v'. split; [right; exact Hv' | auto].
      * intros v' Hv'. apply elem_of_cons in Hv' as [-> | Hv']; auto.
      * exact Hdis.
    + destruct (plain_bfs_correct G v) as (c & Hbfs & Hc).
      destruct (IH (seen ∪ c)) as (cs & Hrun & Hmem & Hcov & Hdis).
      rewrite Hbfs. simpl. rewrite Hrun. simpl.
      exists (c :: cs). split; [reflexivity |]. split; [| split].
      * intros c' Hc'. apply elem_of_cons in Hc' as [-> | Hc'].
        -- exists v. split; [left |]. auto.
        -- destruct (Hmem c' Hc') as (v' & Hv' & Hns & Hx).
           exists v'. split; [right; exact Hv' |]. split; [| exact Hx].
           intros Hs. apply Hns, elem_of_union_l, Hs.
      * intros v' Hv'. apply elem_of_cons in Hv' as [-> | Hv'].
        -- right. exists c. split; [left |]. apply Hc. constructor.
        -- destruct (Hcov v' Hv') as [Hs | (c' & Hc' & Hvc)].
           ++ apply elem_of_union in Hs as [Hs | Hs]; [left; exact Hs |].
              right. exists c. split; [left | exact Hs].
           ++ right. exists c'. split; [right; exact Hc' | exact Hvc].
      * simpl. split; [| exact Hdis].
        intros l x Hl Hx Hx'.
        apply list_elem_of_fmap in Hl as (c' & -> & Hc').
        apply elem_of_elements in Hx, Hx'.
        destruct (Hmem c' Hc') as (v' & Hv' & Hns & Hcx).
        apply Hns, elem_of_union_r, Hc.
        eapply connected_trans; [apply Hc, Hx |].
        apply connected_sym, Hcx, Hx'.
Qed.

Lemma elem_of_nodes (G : Graph) (x : Z) : x ∈ nodes G ↔ x ∈ dom (node G).
Proof.
  unfold nodes. rewrite elem_of_dom. split.
  - intros Hx. apply list_elem_of_fmap in Hx as ([y d] & -> & Hy).
    apply elem_of_map_to_list in Hy. simpl. eauto.
  - intros [d Hd]. apply list_elem_of_fmap. exists (x, d).
    split; [reflexivity | apply elem_of_map_to_list, Hd].
Qed.

Lemma connected_components_correct (G : Graph) :
  ∃ cs, connected_components G = Some cs
    ∧ (∀ c, c ∈ cs → ∃ v, v ∈ dom (node G) ∧ (∀ x, x ∈ c ↔ connected G v x))
    ∧ (∀ v, v ∈ dom (node G) → ∃ c, c ∈ cs ∧ v ∈ c)
    ∧ pairwise_disjoint (elements <$> cs).
Proof.
  unfold connected_components.
  destruct (connected_components_loop_correct G (nodes G) ∅)
    as (cs & Hrun & Hmem & Hcov & Hdis).
  exists cs. split; [exact Hrun |]. split; [| split; [| exact Hdis]].
  - intros c Hc. destruct (Hmem c Hc) as (v & Hv & _ & Hx).
    exists v. split; [apply elem_of_nodes, Hv | exact Hx].
  - intros v Hv. apply elem_of_nodes in Hv.
    destruct (Hcov v Hv) as [Hs | Hc]; [| exact Hc].
    apply elem_of_empty in Hs. destruct Hs.
Qed.

End NetworkxFacts.

(** ** rag.py *)

Module RagFacts.
Import Networkx Skimage Rag PyFacts NpFacts NetworkxFacts.

Lemma elem_of_edges_iter (G : Graph) (u v : Z) (d : attrs) :
  (u, v, d) ∈ edges_iter G ↔ edge G !! (u, v) = Some d.
Proof.
  unfold edges_iter. rewrite list_elem_of_fmap. split.
  - intros ([[a b] d'] & [= -> -> ->] & Hin). apply elem_of_map_to_list, Hin.
  - intros Hd. exists ((u, v), d). split; [reflexivity |].
    apply elem_of_map_to_list, Hd.
Qed.

Lemma key_cases (a b u v : Z) :
  key a b = (u, v) → (u = a ∧ v = b) ∨ (u = b ∧ v = a).
Proof. unfold key. intros [= <- <-]. lia. Qed.

Lemma key_either (a b : Z) : key a b = (a, b) ∨ key a b = (b, a).
Proof.
  unfold key. destruct (Z.le_gt_cases a b).
  - left. f_equal; lia.
  - right. f_equal; lia.
Qed.

Lemma add_node_dom (G : Graph) (n : Z) (a : attrs) :
  dom (node (add_node G n a)) = {[n]} ∪ dom (node G).
Proof. unfold add_node. simpl. apply dom_insert_L. Qed.

Lemma add_nodes_from_spec (ns : list Z) :
  ∀ G, dom (node (add_nodes_from G ns)) = dom (node G) ∪ list_to_set ns
       ∧ edge (add_nodes_from G ns) = edge G.
Proof.
  unfold add_nodes_from.
  induction ns as [| n ns IH]; intros G; simpl.
  - split; [set_solver | reflexivity].
  - destruct (IH (add_node G n ∅)) as [Hd He]. rewrite Hd, He, add_node_dom.
    split; [set_solver | reflexivity].
Qed.

Lemma add_edge_spec (G : Graph) (u v : Z) (a : attrs) :
  dom (node (add_edge G u v a)) = {[u; v]} ∪ dom (node G)
  ∧ dom (edge (add_edge G u v a)) = {[key u v]} ∪ dom (edge G).
Proof.
  unfold add_edge. simpl. split.
  - rewrite !dom_insert_L. set_solver.
  - rewrite dom_insert_L. reflexivity.
Qed.

(** The auxiliary graph holds the merged edges, and their endpoints next
    to the nodes it started with. *)
Lemma merge_fold_spec (es : list (Z * Z * attrs)) :
  ∀ mg0,
    (∀ u v d, (u, v, d) ∈ es → is_Some (d !! "merged"%string)) →
    ∃ mg, foldl add_if_merged (Return mg0) es = Return mg
      ∧ (∀ k, k ∈ dom (edge mg) ↔
           k ∈ dom (edge mg0)
           ∨ ∃ u v d m, (u, v, d) ∈ es ∧ d !! "merged"%string = Some m
                        ∧ truthy m = true ∧ k = key u v)
      ∧ (∀ x, x ∈ dom (node mg) ↔
           x ∈ dom (node mg0)
           ∨ ∃ u v d m, (u, v, d) ∈ es ∧ d !! "merged"%string = Some m
                        ∧ truthy m = true ∧ (x = u ∨ x = v)).
Proof.
  induction es as [| [[u v] d] es IH]; intros mg0 Hattr; simpl.
  - exists mg0. split; [reflexivity |]. split; intros k; split; auto.
    + intros [Hk | (? & ? & ? & ? & Hin & _)]; [exact Hk | inversion Hin].
    + intros [Hk | (? & ? & ? & ? & Hin & _)]; [exact Hk | inversion Hin].
  - destruct (Hattr u v d) as [m Hm]; [left |].
    unfold getattr. rewrite Hm. simpl.
    assert (∀ u' v' d', (u', v', d') ∈ es → is_Some (d' !! "merged"%string))
      as Hattr' by (intros; eapply Hattr; right; eauto).
    destruct (truthy m) eqn:Htruth.
    + destruct (IH (add_edge mg0 u v ∅) Hattr') as (mg & Hrun & Hedge & Hnode).
      exists mg. split; [exact Hrun |].
      destruct (add_edge_spec mg0 u v ∅) as [Hdn Hde].
      split; intros k.
      * rewrite Hedge, Hde. split.
        -- intros [Hk | (u' & v' & d' & m' & Hin & Hrest)].
           ++ apply elem_of_union in Hk as [Hk | Hk]; [| left; exact Hk].
              apply elem_of_singleton in Hk as ->.
              right. exists u, v, d, m. split; [left |]. auto.
           ++ right. exists u', v', d', m'. split; [right; exact Hin | exact Hrest].
        -- intros [Hk | (u' & v' & d' & m' & Hin & Hm' & Ht' & ->)].
           ++ left. apply elem_of_union_r, Hk.
           ++ apply elem_of_cons in Hin as [[= -> -> ->] | Hin].
              ** left. apply elem_of_union_l, elem_of_singleton. reflexivity.
              ** right. exists u', v', d', m'. auto.
      * rewrite Hnode, Hdn. split.
        -- intros [Hk | (u' & v' & d' & m' & Hin & Hrest)].
           ++ apply elem_of_union in Hk as [Hk | Hk]; [| left; exact Hk].
              right. exists u, v, d, m. split; [left |].
              split; [exact Hm |]. split; [exact Htruth |].
              apply elem_of_union in Hk as [Hk | Hk];
                apply elem_of_singleton in Hk; auto.
           ++ right. exists u', v', d', m'. split; [right; exact Hin | exact Hrest].
        -- intros [Hk | (u' & v' & d' & m' & Hin & Hm' & Ht' & Hx)].
           ++ left. apply elem_of_union_r, Hk.
           ++ apply elem_of_cons in Hin as [[= -> -> ->] | Hin].
              ** left. apply elem_of_union_l.
                 destruct Hx as [-> | ->]; set_solver.
              ** right. exists u', v', d', m'. auto.
    + destruct (IH mg0 Hattr') as (mg & Hrun & Hedge & Hnode).
      exists mg. split; [exact Hrun |]. split; intros k.
      * rewrite Hedge. split.
        -- intros [Hk | (u' & v' & d' & m' & Hin & Hrest)]; [left; exact Hk |].
           right. exists u', v', d', m'. split; [right; exact Hin | exact Hrest].
        -- intros [Hk | (u' & v' & d' & m' & Hin & Hm' & Ht' & Hx)]; [left; exact Hk |].
           apply elem_of_cons in Hin as [[= -> -> ->] | Hin]; [congruence |].
           right. exists u', v', d', m'. auto.
      * rewrite Hnode. split.
        -- intros [Hk | (u' & v' & d' & m' & Hin & Hrest)]; [left; exact Hk |].
           right. exists u', v', d', m'. split; [right; exact Hin | exact Hrest].
        -- intros [Hk | (u' & v' & d' & m' & Hin & Hm' & Ht' & Hx)]; [left; exact Hk |].
           apply elem_of_cons in Hin as [[= -> -> ->] | Hin]; [congruence |].
           right. exists u', v', d', m'. auto.
Qed.

Lemma rtc_iff {A} (R1 R2 : relation A) :
  (∀ x y, R1 x y ↔ R2 x y) → ∀ x y, rtc R1 x y ↔ rtc R2 x y.
Proof.
  intros HR x y. split; induction 1 as [| a b c Hab _ IH];
    try constructor; econstructor; [apply HR, Hab | exact IH | apply HR, Hab | exact IH].
Qed.

(** *** Contraction *)

Lemma add_edge_keeps_node (G : Graph) (u v : Z) (a : attrs) (x : Z) (d : attrs) :
  node G !! x = Some d → node (add_edge G u v a) !! x = Some d.
Proof.
  intros Hx. unfold add_edge, add_node. simpl.
  destruct (decide (v = x)) as [-> | Hv].
  - rewrite lookup_insert_eq.
    destruct (decide (u = x)) as [-> | Hu].
    + rewrite lookup_insert_eq. simpl. rewrite Hx. simpl.
      rewrite !(left_id_L ∅ (∪)). reflexivity.
    + rewrite lookup_insert_ne by exact Hu. rewrite Hx. simpl.
      rewrite (left_id_L ∅ (∪)). reflexivity.
  - rewrite lookup_insert_ne by exact Hv.
    destruct (decide (u = x)) as [-> | Hu].
    + rewrite lookup_insert_eq, Hx. simpl.
      rewrite (left_id_L ∅ (∪)). reflexivity.
    + rewrite lookup_insert_ne by exact Hu. exact Hx.
Qed.

Lemma add_edges_keep_node (f : Graph → Z → attrs) (new : Z) (l : list Z) :
  ∀ (G : Graph) (x : Z) (d : attrs),
    node G !! x = Some d →
    node (foldl (λ G n, add_edge G n new (f G n)) G l) !! x = Some d.
Proof.
  induction l as [| n l IH]; intros G x d Hx; simpl; [exact Hx |].
  apply IH, add_edge_keeps_node, Hx.
Qed.

(** Merging [a] into [b] works when both carry labels, and leaves the
    labels of every node but [a] in place. *)
Lemma merge_nodes_total (G : Graph) (a b : Z)
    (weight_func : Graph → Z → Z → Z → attrs) :
  has_labels G a → has_labels G b →
  ∃ G', merge_nodes G a b weight_func = Return G'
        ∧ ∀ x, x ≠ a → has_labels G x → has_labels G' x.
Proof.
  intros (da & la & Ha & Hla) (db & lb & Hb & Hlb).
  unfold merge_nodes, neighbors.
  destruct (decide (a ∈ dom (node G))) as [_ | Hn];
    [| exfalso; apply Hn, elem_of_dom; eauto].
  destruct (decide (b ∈ dom (node G))) as [_ | Hn];
    [| exfalso; apply Hn, elem_of_dom; eauto].
  simpl.
  set (Gf := foldl _ G _).
  assert (∀ x d, node G !! x = Some d → node Gf !! x = Some d) as Hkeep.
  { intros x d Hx. subst Gf.
    apply (add_edges_keep_node (λ G n, weight_func G a b n)), Hx. }
  rewrite (Hkeep _ _ Ha), (Hkeep _ _ Hb). simpl.
  unfold getattr. rewrite Hla, Hlb. simpl.
  unfold remove_node. simpl.
  destruct (decide (a ∈ dom (<[b := <["labels"%string := PyList (la ++ lb)]> db]> (node Gf))))
    as [_ | Hn].
  - eexists. split; [reflexivity |].
    intros x Hxa (d & ls & Hx & Hls). unfold has_labels. simpl.
    rewrite lookup_delete_ne by auto.
    destruct (decide (b = x)) as [-> | Hxb].
    + rewrite lookup_insert_eq. eexists _, _. split; [reflexivity |].
      apply lookup_insert_eq.
    + rewrite lookup_insert_ne by exact Hxb. eauto.
  - exfalso. apply Hn. rewrite dom_insert_L.
    apply elem_of_union_r, elem_of_dom. eauto.
Qed.

Lemma contract_component_total :
  ∀ (component : list Z) (G : Graph),
    NoDup component →
    (∀ x, x ∈ component → has_labels G x) →
    ∃ G', contract_component G component = Return G'
          ∧ ∀ x, x ∉ component → has_labels G x → has_labels G' x.
Proof.
  induction component as [| a rest IH]; intros G Hnd Hall.
  - exists G. split; [reflexivity | auto].
  - destruct rest as [| b rest].
    + exists G. split; [reflexivity | auto].
    + apply NoDup_cons in Hnd as [Ha Hnd].
      destruct (merge_nodes_total G a b default_edge_attributes)
        as (G1 & Hmerge & Hkeep).
      { apply Hall. left. }
      { apply Hall. right. left. }
      destruct (IH G1 Hnd) as (G' & Hrun & Hkeep').
      { intros x Hx. apply Hkeep; [| apply Hall; right; exact Hx].
        intros ->. contradiction. }
      exists G'. split.
      * change (contract_component G (a :: b :: rest))
          with (rbind (merge_nodes G a b default_edge_attributes)
                      (λ G, contract_component G (b :: rest))).
        rewrite Hmerge. exact Hrun.
      * intros x Hx Hl. apply Hkeep'.
        -- intros Hin. apply Hx. right. exact Hin.
        -- apply Hkeep; [| exact Hl]. intros ->. apply Hx. left.
Qed.

(** The fold of [__contract_nodes] returns, and appends the last node of
    each component. *)
Lemma contract_fold_total :
  ∀ (components : list (list Z)) (G : Graph) (acc : list Z),
    (∀ comp, comp ∈ components →
       NoDup comp ∧ comp ≠ [] ∧ ∀ x, x ∈ comp → has_labels G x) →
    pairwise_disjoint components →
    ∃ G' reps,
      foldl contract_step (Return (G, acc)) components
      = Return (G', acc ++ reps)
      ∧ Forall2 (λ comp r, last comp = Some r) components reps.
Proof.
  induction components as [| comp rest IH]; intros G acc Hall Hdis.
  - exists G, []. rewrite app_nil_r. split; [reflexivity | constructor].
  - destruct (Hall comp) as (Hnd & Hne & Hl); [left |].
    destruct (contract_component_total comp G Hnd Hl) as (G1 & Hrun & Hkeep).
    destruct (last comp) as [n |] eqn:Hlast;
      [| apply last_None in Hlast; contradiction].
    destruct Hdis as [Hd Hdis].
    destruct (IH G1 (acc ++ [n])) as (G' & reps & Hfold & Hreps).
    { intros comp' Hc'. destruct (Hall comp') as (Hnd' & Hne' & Hl'); [right; exact Hc' |].
      split; [exact Hnd' |]. split; [exact Hne' |].
      intros x Hx. apply Hkeep; [| apply Hl', Hx].
      intros Hxc. apply (Hd comp' x Hc' Hxc Hx). }
    { exact Hdis. }
    exists G', (n :: reps). split.
    + assert (contract_step (Return (G, acc)) comp = Return (G1, acc ++ [n]))
        as Hstep.
      { unfold contract_step, mbind, result_bind. simpl. rewrite Hrun. simpl.
        unfold last_node. rewrite Hlast. reflexivity. }
      change (foldl contract_step (Return (G, acc)) (comp :: rest))
        with (foldl contract_step (contract_step (Return (G, acc)) comp) rest).
      rewrite Hstep, Hfold, <- app_assoc. reflexivity.
    + constructor; [exact Hlast | exact Hreps].
Qed.

(** *** Relabelling *)

(** One component: its nodes, as far as the table reaches, get the label. *)
Lemma relabel_component_fold (label : Z) :
  ∀ (component : list Z) (values_map : list Z),
    (∀ c, c ∈ component → 0 ≤ c) →
    ∃ values_map',
      foldl (relabel_component label) (Return values_map) component
      = Return values_map'
      ∧ length values_map' = length values_map
      ∧ ∀ i : nat, (i < length values_map)%nat →
          values_map' !! i
          = if decide (Z.of_nat i ∈ component) then Some label
            else values_map !! i.
Proof.
  induction component as [| c rest IH]; intros vm Hpos.
  - exists vm. split; [reflexivity |]. split; [reflexivity |].
    intros i Hi. destruct (decide (Z.of_nat i ∈ [])) as [Hin | _];
      [inversion Hin | reflexivity].
  - assert (0 ≤ c) as Hc by (apply Hpos; left).
    set (vm1 := if decide (c < Z.of_nat (length vm))
                then <[Z.to_nat c := label]> vm else vm).
    assert (relabel_component label (Return vm) c = Return vm1) as Hstep.
    { unfold relabel_component, mbind, result_bind. simpl. subst vm1.
      destruct (decide (c < Z.of_nat (length vm))); [| reflexivity].
      unfold py_index. destruct (decide (0 ≤ c)); [| lia].
      destruct (decide (c < Z.of_nat (length vm))); [| lia]. reflexivity. }
    assert (length vm1 = length vm) as Hlen.
    { subst vm1. destruct (decide (c < Z.of_nat (length vm)));
        [apply length_insert | reflexivity]. }
    destruct (IH vm1) as (vm' & Hrun & Hlen' & Hspec).
    { intros c' Hc'. apply Hpos. right. exact Hc'. }
    exists vm'. split; [| split; [lia |]].
    + change (foldl (relabel_component label) (Return vm) (c :: rest))
        with (foldl (relabel_component label)
                    (relabel_component label (Return vm) c) rest).
      rewrite Hstep. exact Hrun.
    + intros i Hi. rewrite Hspec by lia.
      destruct (decide (Z.of_nat i ∈ rest)) as [Hin | Hnin].
      * destruct (decide (Z.of_nat i ∈ c :: rest)) as [_ | Hn];
          [reflexivity | exfalso; apply Hn; right; exact Hin].
      * subst vm1. destruct (decide (Z.of_nat i = c)) as [Heq | Hne].
        -- destruct (decide (Z.of_nat i ∈ c :: rest)) as [_ | Hn];
             [| exfalso; apply Hn; rewrite Heq; left].
           destruct (decide (c < Z.of_nat (length vm))); [| lia].
           replace (Z.to_nat c) with i by lia.
           apply list_lookup_insert_eq. exact Hi.
        -- destruct (decide (Z.of_nat i ∈ c :: rest)) as [Hin | _].
           ++ apply elem_of_cons in Hin as [Heq | Hin]; congruence.
           ++ destruct (decide (c < Z.of_nat (length vm))); [| reflexivity].
              apply list_lookup_insert_ne. lia.
Qed.

(** All pairs: a node of a component gets the label of that component,
    the other entries of the table stay. *)
Lemma relabel_fold :
  ∀ (pairs : list (list Z * Z)) (values_map : list Z),
    (∀ comp r c, (comp, r) ∈ pairs → c ∈ comp → 0 ≤ c) →
    pairwise_disjoint (pairs.*1) →
    ∃ values_map',
      foldl relabel_pair (Return values_map) pairs = Return values_map'
      ∧ length values_map' = length values_map
      ∧ ∀ i : nat, (i < length values_map)%nat →
          (∀ comp r, (comp, r) ∈ pairs → Z.of_nat i ∈ comp →
                     values_map' !! i = Some r)
          ∧ ((∀ comp r, (comp, r) ∈ pairs → Z.of_nat i ∉ comp) →
             values_map' !! i = values_map !! i).
Proof.
  induction pairs as [| [comp1 r1] rest IH]; intros vm Hpos Hdis.
  - exists vm. split; [reflexivity |]. split; [reflexivity |].
    intros i Hi. split; [| reflexivity]. intros comp r Hin. inversion Hin.
  - destruct (relabel_component_fold r1 comp1 vm) as (vm1 & Hrun1 & Hlen1 & Hspec1).
    { intros c Hc. eapply Hpos; [left | exact Hc]. }
    destruct Hdis as [Hd Hdis].
    destruct (IH vm1) as (vm' & Hrun & Hlen & Hspec).
    { intros comp r c Hin. eapply Hpos. right. exact Hin. }
    { exact Hdis. }
    exists vm'. split; [| split; [lia |]].
    + change (foldl relabel_pair (Return vm) ((comp1, r1) :: rest))
        with (foldl relabel_pair
                (foldl (relabel_component r1) (Return vm) comp1) rest).
      rewrite Hrun1. exact Hrun.
    + intros i Hi. destruct (Hspec i ltac:(lia)) as [Hhit Hmiss].
      specialize (Hspec1 i Hi). split.
      * intros comp r Hin Hic. apply elem_of_cons in Hin as [[= -> ->] | Hin].
        -- rewrite Hmiss.
           ++ rewrite Hspec1. destruct (decide (Z.of_nat i ∈ comp1));
                [reflexivity | contradiction].
           ++ intros comp' r' Hin' Hic'.
              apply (Hd comp' (Z.of_nat i)); [| exact Hic | exact Hic'].
              apply list_elem_of_fmap. exists (comp', r'). auto.
        -- eapply Hhit; eauto.
      * intros Hnone. rewrite Hmiss.
        -- rewrite Hspec1. destruct (decide (Z.of_nat i ∈ comp1)) as [Hin | _];
             [| reflexivity].
           exfalso. apply (Hnone comp1 r1); [left | exact Hin].
        -- intros comp r Hin. apply (Hnone comp r). right. exact Hin.
Qed.

(** [__relabel]: the voxels of a component get its label, all other
    voxels keep theirs. *)
Lemma relabel_spec (array : nd Z) (components : list (list Z))
    (component_labels : list Z) :
  elems array ≠ [] →
  (∀ l, l ∈ elems array → 0 ≤ l) →
  (∀ comp c, comp ∈ components → c ∈ comp → 0 ≤ c) →
  pairwise_disjoint components →
  length components = length component_labels →
  ∃ array',
    __relabel array components component_labels = Return array'
    ∧ ∀ p l, at_index p array = Some l →
        (∀ comp r, (comp, r) ∈ zip components component_labels → l ∈ comp →
                   at_index p array' = Some r)
        ∧ ((∀ comp, comp ∈ components → l ∉ comp) →
           at_index p array' = Some l).
Proof.
  intros Hne Hpos Hcpos Hdis Hlen.
  destruct (amax_total array Hne) as [top Htop].
  pose proof (amax_bound array top Htop) as Hbound.
  set (vm0 := Z.of_nat <$> seq 0 (Z.to_nat (top + 1))).
  assert (length vm0 = Z.to_nat (top + 1)) as Hlen0
    by (subst vm0; rewrite length_fmap, length_seq; reflexivity).
  destruct (relabel_fold (zip components component_labels) vm0)
    as (vm & Hrun & Hlenvm & Hspec).
  { intros comp r c Hin. apply Hcpos.
    apply elem_of_zip_l in Hin. exact Hin. }
  { rewrite fst_zip by lia. exact Hdis. }
  assert (∀ l, l ∈ elems array →
               lookup_value vm l = of_option IndexError (vm !! Z.to_nat l)
               ∧ (Z.to_nat l < length vm0)%nat) as Hlook.
  { intros l Hl. specialize (Hpos l Hl). specialize (Hbound l Hl).
    unfold lookup_value, py_index, mbind, result_bind.
    destruct (decide (0 ≤ l)); [| lia].
    destruct (decide (l < Z.of_nat (length vm))); [| lia].
    split; [reflexivity | lia]. }
  assert (∀ l, l ∈ elems array → ∃ y, vm !! Z.to_nat l = Some y) as Hsome.
  { intros l Hl. destruct (Hlook l Hl) as [_ Hlt].
    apply lookup_lt_is_Some. lia. }
  destruct (mapM_total (lookup_value vm) (elems array)) as [ys Hys].
  { intros l Hl. destruct (Hsome l Hl) as [y Hy].
    exists y. rewrite (proj1 (Hlook l Hl)), Hy. reflexivity. }
  eexists. split.
  - unfold __relabel, mbind, result_bind. rewrite Htop. simpl.
    fold vm0. rewrite Hrun. simpl. rewrite Hys. simpl. reflexivity.
  - intros p l Hp. pose proof (at_index_elems _ _ _ Hp) as Hl.
    destruct (Hlook l Hl) as [Heq Hlt].
    destruct (Hspec (Z.to_nat l) Hlt) as [Hhit Hmiss].
    rewrite Z2Nat.id in Hhit, Hmiss by (apply Hpos, Hl).
    rewrite at_index_nd_map, Hp. simpl. rewrite Heq. split.
    + intros comp r Hin Hlc. rewrite (Hhit comp r Hin Hlc). reflexivity.
    + intros Hnone. rewrite Hmiss.
      * subst vm0. rewrite list_lookup_fmap, lookup_seq_lt by lia.
        simpl. rewrite Z2Nat.id by (apply Hpos, Hl). reflexivity.
      * intros comp r Hin. apply Hnone. apply elem_of_zip_l in Hin. exact Hin.
Qed.

Section Components.
Variable G : Graph.
Hypothesis merged_everywhere :
  ∀ u v d, edge G !! (u, v) = Some d → is_Some (d !! "merged"%string).

Lemma merge_graph_of_spec :
  ∃ mg, merge_graph_of G = Return mg
    ∧ (∀ u v, v ∈ adjacent mg u ↔ merged_adjacent G u v)
    ∧ (∀ x, x ∈ dom (node mg) ↔ known_node G x).
Proof.
  unfold merge_graph_of.
  destruct (merge_fold_spec (edges_iter G)
              (add_nodes_from empty_graph (nodes G))) as (mg & Hrun & Hedge & Hnode).
  { intros u v d Hin. apply elem_of_edges_iter in Hin. eauto. }
  exists mg. split; [exact Hrun |].
  destruct (add_nodes_from_spec (nodes G) empty_graph) as [Hdn He].
  assert (∀ k, k ∈ dom (edge mg) ↔
            ∃ u v d m, edge G !! (u, v) = Some d ∧ d !! "merged"%string = Some m
                       ∧ truthy m = true ∧ k = key u v) as Hedge'.
  { intros k. rewrite Hedge, He. simpl. rewrite dom_empty_L. split.
    - intros [Hk | (u & v & d & m & Hin & Hrest)].
      + apply elem_of_empty in Hk. destruct Hk.
      + exists u, v, d, m. split; [apply elem_of_edges_iter, Hin | exact Hrest].
    - intros (u & v & d & m & Hin & Hrest). right.
      exists u, v, d, m. split; [apply elem_of_edges_iter, Hin | exact Hrest]. }
  split.
  - intros u v. rewrite elem_of_adjacent. split.
    + intros (d' & Hd').
      assert ((u, v) ∈ dom (edge mg) ∨ (v, u) ∈ dom (edge mg)) as Hdom.
      { destruct Hd' as [Hd' | Hd']; [left | right]; apply elem_of_dom; eauto. }
      destruct Hdom as [Hk | Hk];
        apply Hedge' in Hk as (a & b & d & m & Hd & Hm & Ht & Hkey);
        symmetry in Hkey; apply key_cases in Hkey as [[-> ->] | [-> ->]];
        exists d, m; auto.
    + intros (d & m & Hd & Hm & Ht).
      assert (key u v ∈ dom (edge mg)) as Hk.
      { apply Hedge'. destruct Hd as [Hd | Hd].
        - exists u, v, d, m. auto.
        - exists v, u, d, m. repeat split; auto.
          unfold key. f_equal; lia. }
      apply elem_of_dom in Hk as [d' Hd'].
      exists d'. destruct (key_either u v) as [Hkey | Hkey];
        rewrite Hkey in Hd'; auto.
  - intros x. rewrite Hnode, Hdn. simpl. rewrite dom_empty_L. unfold known_node. split.
    + intros [Hx | (u & v & d & m & Hin & Hm & Ht & Hx)].
      * left. apply elem_of_union in Hx as [Hx | Hx].
        -- apply elem_of_empty in Hx. destruct Hx.
        -- apply elem_of_list_to_set, elem_of_nodes in Hx. exact Hx.
      * right. apply elem_of_edges_iter in Hin.
        destruct Hx as [-> | ->]; [exists v | exists u]; exists d, m; auto.
    + intros [Hx | (y & d & m & Hd & Hm & Ht)].
      * left. apply elem_of_union_r, elem_of_list_to_set, elem_of_nodes, Hx.
      * right. destruct Hd as [Hd | Hd]; apply elem_of_edges_iter in Hd.
        -- exists x, y, d, m. auto.
        -- exists y, x, d, m. auto.
Qed.

(** What [get_connected_components] returns: the classes of
    [merged_connected] among the known nodes, each listed once. *)
Lemma get_connected_components_spec :
  ∃ cs : list (gset Z),
    get_connected_components G = Return (elements <$> cs)
    ∧ (∀ c, c ∈ cs →
         ∃ v, known_node G v ∧ (∀ x, x ∈ c ↔ merged_connected G v x))
    ∧ (∀ v, known_node G v → ∃ c, c ∈ cs ∧ v ∈ c)
    ∧ pairwise_disjoint (elements <$> cs).
Proof.
  destruct merge_graph_of_spec as (mg & Hmg & Hadj & Hnodes).
  destruct (connected_components_correct mg) as (cs & Hcc & Hmem & Hcov & Hdis).
  exists cs. split; [| split; [| split; [| exact Hdis]]].
  - unfold get_connected_components. rewrite Hmg. simpl. rewrite Hcc. reflexivity.
  - intros c Hc. destruct (Hmem c Hc) as (v & Hv & Hx).
    exists v. split; [apply Hnodes, Hv |].
    intros x. rewrite Hx. unfold connected, merged_connected.
    apply rtc_iff. intros a b. apply Hadj.
  - intros v Hv. apply Hcov, Hnodes, Hv.
Qed.

(** C6.  Two merged edges (a,b) and (b,c) put a, b and c into one
    returned component, whether or not an edge (a,c) exists; every
    returned component is one class of the nodes under "joined by a
    path of merged edges", every node of the RAG lies in a component,
    and no node lies in two. *)
Theorem components_are_merged_classes :
  ∃ components,
    get_connected_components G = Return components
    ∧ (∀ a b c,
         merged_adjacent G a b → merged_adjacent G b c →
         ∃ comp, comp ∈ components ∧ a ∈ comp ∧ b ∈ comp ∧ c ∈ comp)
    ∧ (∀ comp x,
         comp ∈ components → x ∈ comp →
         ∀ y, y ∈ comp ↔ merged_connected G x y)
    ∧ (∀ x, x ∈ dom (node G) → ∃ comp, comp ∈ components ∧ x ∈ comp)
    ∧ pairwise_disjoint components.
Proof.
  destruct get_connected_components_spec as (cs & Hrun & Hmem & Hcov & Hdis).
  exists (elements <$> cs). split; [exact Hrun |].
  assert (∀ comp x, comp ∈ elements <$> cs → x ∈ comp →
                    ∀ y, y ∈ comp ↔ merged_connected G x y) as Hclass.
  { intros comp x Hcomp Hx y.
    apply list_elem_of_fmap in Hcomp as (c & -> & Hc).
    destruct (Hmem c Hc) as (v & _ & Hv).
    rewrite !elem_of_elements in *. rewrite Hv. apply Hv in Hx.
    assert (Symmetric (merged_adjacent G)) as Hsym.
    { intros p q (d & m & Hd & Hm). exists d, m. split; [tauto | exact Hm]. }
    unfold merged_connected in *. split; intros Hy.
    - etransitivity; [| exact Hy]. symmetry. exact Hx.
    - etransitivity; [exact Hx | exact Hy]. }
  split; [| split; [exact Hclass | split; [| exact Hdis]]].
  - intros a b c Hab Hbc.
    destruct (Hcov a) as (comp & Hcomp & Ha); [right; eauto |].
    exists (elements comp).
    assert (elements comp ∈ elements <$> cs) as Hin
      by (apply list_elem_of_fmap; eauto).
    assert (a ∈ elements comp) as Ha' by (apply elem_of_elements, Ha).
    split; [exact Hin |]. split; [exact Ha' |]. split.
    + apply (Hclass _ a Hin Ha'). apply rtc_once, Hab.
    + apply (Hclass _ a Hin Ha').
      eapply rtc_l; [exact Hab | apply rtc_once, Hbc].
  - intros x Hx. destruct (Hcov x) as (comp & Hcomp & Hxc); [left; exact Hx |].
    exists (elements comp). split; [apply list_elem_of_fmap; eauto |].
    apply elem_of_elements, Hxc.
Qed.

(** *** Contraction of the merged components *)

Hypothesis edges_join_nodes : endpoints_are_nodes G.
Hypothesis labels_are_lists :
  ∀ x d v, node G !! x = Some d → d !! "labels"%string = Some v →
           ∃ ls, v = PyList ls.
Hypothesis nodes_not_negative : ∀ x, x ∈ dom (node G) → 0 ≤ x.

Lemma known_node_is_node (x : Z) : known_node G x → x ∈ dom (node G).
Proof.
  intros [Hx | (y & d & m & [Hd | Hd] & _)]; [exact Hx | |];
    apply edges_join_nodes in Hd; tauto.
Qed.

Lemma merged_connected_node (v x : Z) :
  v ∈ dom (node G) → merged_connected G v x → x ∈ dom (node G).
Proof.
  intros Hv Hx. apply rtc_inv_r in Hx as [<- | (y & _ & Hyx)]; [exact Hv |].
  apply known_node_is_node. right. exists y.
  destruct Hyx as (d & m & Hd & Hm). exists d, m. split; [tauto | exact Hm].
Qed.

Lemma essential_labels (x : Z) :
  x ∈ dom (node G) → has_labels (__add_esential_node_attributes G) x.
Proof.
  intros Hx. apply elem_of_dom in Hx as [d Hd].
  unfold has_labels, __add_esential_node_attributes. simpl.
  rewrite map_lookup_imap, Hd. simpl.
  destruct (decide ("labels"%string ∈ dom d)) as [Hin | Hout].
  - apply elem_of_dom in Hin as [v Hv].
    destruct (labels_are_lists x d v Hd Hv) as [ls ->]. eauto.
  - eexists _, _. split; [reflexivity |]. apply lookup_insert_eq.
Qed.

Lemma zip_partner {A B} (P : A → B → Prop) (l1 : list A) (l2 : list B) (x : A) :
  Forall2 P l1 l2 → x ∈ l1 → ∃ y, (x, y) ∈ zip l1 l2.
Proof.
  induction 1 as [| a b l1' l2' _ _ IH]; intros Hx; [inversion Hx |].
  apply elem_of_cons in Hx as [-> | Hx].
  - exists b. left.
  - destruct (IH Hx) as [y Hy]. exists y. right. exact Hy.
Qed.


End Components.
End RagFacts.

(** ** rag.py: the flags of the edges made by a contraction *)

Module ContractionFacts.
Import Networkx Skimage Rag PyFacts NpFacts NetworkxFacts.

Lemma default_flags (G : Graph) (a b n : Z) (old : attrs) :
  (default_edge_attributes G a b n ∪ old) !! "merged"%string = Some (PyInt 0)
  ∧ (default_edge_attributes G a b n ∪ old) !! "agglomerated"%string
    = Some (PyInt 0).
Proof.
  split; apply lookup_union_Some_l; unfold default_edge_attributes.
  - rewrite lookup_insert_eq. reflexivity.
  - rewrite lookup_insert_ne by discriminate. rewrite lookup_singleton_eq.
    reflexivity.
Qed.

(** Once an edge to the new node has both flags at 0, the further calls
    of [add_edge] in [merge_nodes] keep them there; and every call sets
    them for its own edge. *)
Lemma add_edges_flags (a b : Z) (l : list Z) :
  ∀ (G : Graph) (k : Z * Z),
    ((∃ d, edge G !! k = Some d
           ∧ d !! "merged"%string = Some (PyInt 0)
           ∧ d !! "agglomerated"%string = Some (PyInt 0))
     ∨ ∃ n, n ∈ l ∧ k = key n b) →
    ∃ d, edge (foldl (λ G n, add_edge G n b (default_edge_attributes G a b n))
                     G l) !! k = Some d
         ∧ d !! "merged"%string = Some (PyInt 0)
         ∧ d !! "agglomerated"%string = Some (PyInt 0).
Proof.
  induction l as [| m l IH]; intros G k Hk; simpl.
  - destruct Hk as [Hk | (n & Hn & _)]; [exact Hk | inversion Hn].
  - apply IH. destruct (decide (k = key m b)) as [-> | Hne].
    + left. unfold add_edge. simpl. rewrite lookup_insert_eq.
      eexists. split; [reflexivity |]. apply default_flags.
    + destruct Hk as [(d & Hd & Hflags) | (n & Hn & ->)].
      * left. exists d. split; [| exact Hflags].
        unfold add_edge. simpl. rewrite lookup_insert_ne by auto. exact Hd.
      * apply elem_of_cons in Hn as [-> | Hn]; [congruence |].
        right. exists n. auto.
Qed.

(** After [merge_nodes(a, b)] with the weight function of
    [__contract_nodes], the edge from every neighbour of [a] or [b] to
    the surviving node [b] has [merged] and [agglomerated] at 0. *)
Lemma merge_nodes_resets_flags (G G' : Graph) (a b : Z) :
  a ≠ b →
  merge_nodes G a b default_edge_attributes = Return G' →
  ∀ n, n ∈ adjacent G a ∪ adjacent G b → n ≠ a → n ≠ b →
       ∃ d, edge G' !! key n b = Some d
            ∧ d !! "merged"%string = Some (PyInt 0)
            ∧ d !! "agglomerated"%string = Some (PyInt 0).
Proof.
  intros Hab Hrun n Hn Hna Hnb. unfold merge_nodes in Hrun.
  inv_rbind Hrun as src_nbrs Hsrc. inv_rbind Hrun as dst_nbrs Hdst.
  unfold neighbors in Hsrc, Hdst.
  destruct (decide (a ∈ dom (node G))); [| discriminate].
  destruct (decide (b ∈ dom (node G))); [| discriminate].
  injection Hsrc as <-. injection Hdst as <-.
  inv_rbind Hrun as src_data Hsd. inv_rbind Hrun as dst_data Hdd.
  inv_rbind Hrun as src_labels Hsl. inv_rbind Hrun as dst_labels Hdl.
  destruct src_labels as [| | ls]; try discriminate.
  destruct dst_labels as [| | ld]; try discriminate.
  unfold remove_node in Hrun. simpl in Hrun.
  match type of Hrun with
  | (if ?c then _ else _) = _ => destruct c; [| discriminate]
  end.
  injection Hrun as <-. simpl.
  destruct (add_edges_flags a b
              (elements ((list_to_set (elements (adjacent G a))
                          ∪ list_to_set (elements (adjacent G b)))
                         ∖ ({[a; b]} : gset Z)))
              G (key n b)) as (d & Hd & Hflags).
  { right. exists n. split; [| reflexivity].
    apply elem_of_elements, elem_of_difference. split.
    - apply elem_of_union in Hn as [Hn | Hn]; [apply elem_of_union_l
                                               | apply elem_of_union_r];
        apply elem_of_list_to_set, elem_of_elements, Hn.
    - intros Hin. apply elem_of_union in Hin as [Hin | Hin];
        apply elem_of_singleton in Hin; congruence. }
  exists d. split; [| exact Hflags].
  apply map_lookup_filter_Some. split; [exact Hd |].
  unfold key. simpl. lia.
Qed.

End ContractionFacts.

(** ** rag.py on concrete inputs *)

Module RagExamples.
Import Networkx Skimage Rag NpFacts RagFacts Examples.

Lemma triangle_merged_everywhere :
  ∀ u v d, edge triangle !! (u, v) = Some d → is_Some (d !! "merged"%string).
Proof.
  intros u v d Hd.
  assert (map_Forall (λ _ d, is_Some (d !! "merged"%string)) (edge triangle))
    as Hall by (refine (bool_decide_unpack _ _); vm_compute; exact I).
  exact (Hall _ _ Hd).
Defined.

Lemma components_are_merged_classes_witness :
  ∃ components,
    get_connected_components triangle = Return components
    ∧ (∀ a b c,
         merged_adjacent triangle a b → merged_adjacent triangle b c →
         ∃ comp, comp ∈ components ∧ a ∈ comp ∧ b ∈ comp ∧ c ∈ comp)
    ∧ (∀ comp x,
         comp ∈ components → x ∈ comp →
         ∀ y, y ∈ comp ↔ merged_connected triangle x y)
    ∧ (∀ x, x ∈ dom (node triangle) → ∃ comp, comp ∈ components ∧ x ∈ comp)
    ∧ pairwise_disjoint components.
Proof.
  exact (components_are_merged_classes triangle triangle_merged_everywhere).
Defined.

Example triangle_components :
  get_connected_components triangle = Return [[3]; [2; 1]].
Proof. vm_compute. reflexivity. Qed.




End RagExamples.

(** ** The extraction of fragments: shapes, ranges, errors *)

Module ExtractionFacts.
Import Fragments PyFacts NpFacts FragmentsFacts.

Lemma nd_zip_with_shape {A B C} (f : A → B → C) (a : nd A) :
  ∀ (b : nd B) (c : nd C), nd_zip_with f a b = Return c → shape c = shape a.
Proof.
  induction a as [x | l IH] using nd_induction; intros [y | lb] c H; simpl in H;
    try discriminate.
  - injection H as <-. reflexivity.
  - apply rbind_Return in H as (lc & Hgo & H). injection H as <-.
    revert lb lc Hgo. induction IH as [| x l Hx _ IHl]; intros [| y lb] lc Hgo;
      simpl in Hgo; try discriminate.
    + injection Hgo as <-. reflexivity.
    + apply rbind_Return in Hgo as (z & Hz & Hgo).
      apply rbind_Return in Hgo as (zs & Hzs & Hgo). injection Hgo as <-.
      specialize (IHl _ _ Hzs). simpl in IHl |- *.
      injection IHl as Hlen. rewrite Hlen. f_equal. eapply Hx, Hz.
Qed.

(** [a[z] = b] keeps the shape of [a]. *)
Lemma setitem_shape (a : nd Z) (z : nat) (b a' : nd Z) :
  setitem_uint64 a z b = Return a' → shape a' = shape a.
Proof.
  unfold setitem_uint64. destruct a as [x | l]; [discriminate |].
  destruct (l !! z) as [old |] eqn:Hz; [| discriminate].
  destruct (decide (shape old = shape b)) as [Hs |]; [| discriminate].
  intros [= <-]. simpl. rewrite length_insert. f_equal.
  destruct z as [| z]; destruct l as [| x l]; simpl in *; try discriminate; auto.
  injection Hz as ->. unfold astype_uint64. rewrite shape_nd_map. auto.
Qed.

Section Loop.
Context {FO : FloatOps} {P : @Primitives FO}.

Lemma xy_loop_shape (use_mahotas : bool) (mav : float) (mean_affs : nd float)
    (zs : list nat) :
  ∀ (fragments : nd Z) (id_offset : Z) t fragments' id_offset',
    xy_loop use_mahotas mav mean_affs zs fragments id_offset
    = (t, Return (fragments', id_offset')) →
    shape fragments' = shape fragments.
Proof.
  induction zs as [| z zs IH]; intros F off t F' off' H.
  - unfold xy_loop, ret in H. injection H as _ <- _. reflexivity.
  - rewrite xy_loop_cons in H. inv_bind H as r Hr. inv_bind H as F1 HF.
    apply lift_Return in HF. apply setitem_shape in HF.
    apply IH in H. congruence.
Qed.

End Loop.

Section Shape.
Context {FO : FloatOps} {P : @Primitives FO}.

Lemma extract_in_xy_shape (use_mahotas : bool) (mav : float) (affs : nd float)
    t fragments n a1 :
  extract_in_xy use_mahotas mav affs = (t, Return (fragments, n)) →
  getitem affs 1 = Return a1 →
  shape fragments = shape a1.
Proof.
  unfold extract_in_xy. intros H H1.
  rewrite H1 in H. inv_bind H as a1' Ha1. apply lift_Return in Ha1. injection Ha1 as <-.
  inv_bind H as a2 Ha2. inv_bind H as s Hs. apply lift_Return in Hs.
  inv_bind H as depth Hd.
  apply xy_loop_shape in H. rewrite H, shape_zeros, shape_nd_map.
  eapply nd_zip_with_shape, Hs.
Qed.

(** X4.  With [fragments_in_xy] the returned array has the shape of
    one channel of the affinities, [affs[1]], also after an
    agglomeration. *)
Theorem xy_fragments_have_the_shape_of_a_channel (affs : affinities)
    (epsilon : float) (use_mahotas : bool) t fragments n a1 :
  watershed_from_affinities affs true epsilon use_mahotas
  = (t, Return (fragments, n)) →
  getitem (affs_values affs) 1 = Return a1 →
  shape fragments = shape a1.
Proof.
  unfold watershed_from_affinities. intros H H1.
  inv_bind H as fr Hex. destruct fr as [local r].
  inv_bind Hex as fo Hxy. destruct fo as [F off].
  unfold ret in Hex. injection Hex as _ <- <-.
  pose proof (extract_in_xy_shape _ _ _ _ _ _ _ Hxy H1) as Hshape.
  destruct (f_ltb (f_of_Z 0) epsilon).
  - inv_bind H as F0 Hl. apply lift_Return in Hl. injection Hl as <-.
    inv_bind H as generator Hg. inv_bind H as first Hf.
    inv_bind H as F1 Hset. apply lift_Return in Hset.
    unfold ret in H. injection H as _ <- _.
    unfold setall_uint64 in Hset.
    destruct (decide (shape F = shape first)) as [Heq |]; [| discriminate].
    injection Hset as <-. unfold astype_uint64. rewrite shape_nd_map. congruence.
  - unfold ret in H. injection H as _ <- _. exact Hshape.
Qed.

End Shape.

Lemma shape_cons_Node {A} (a : nd A) (d : nat) (rest : list nat) :
  shape a = d :: rest → ∃ l, a = Node l ∧ length l = d.
Proof.
  destruct a as [x | l]; simpl; [discriminate |].
  intros [= <- _]. eauto.
Qed.

Section Labels.
Context {FO : FloatOps} {P : @Primitives FO} {PS : @PrimitivesSpec FO P}.




End Labels.

Section Agglomeration.
Context {FO : FloatOps} {P : @Primitives FO}.


(** X6.  The per-slice mode reads [affs[1]] and [affs[2]]: with fewer
    than three channels it raises [IndexError] before any library
    call. *)
Theorem xy_mode_needs_three_channels (affs : affinities) (epsilon : float)
    (use_mahotas : bool) (channels : list (nd float)) :
  affs_values affs = Node channels →
  (length channels < 3)%nat →
  watershed_from_affinities affs true epsilon use_mahotas
  = ([], Raise IndexError).
Proof.
  intros Hv Hlen. unfold watershed_from_affinities, extract_in_xy.
  rewrite Hv.
  destruct channels as [| c0 [| c1 [| c2 rest]]]; simpl in Hlen; try lia;
    reflexivity.
Qed.

End Agglomeration.

Lemma nd_zip_with_getitem {A B C} (f : A → B → C) (a : nd A) (b : nd B)
    (c : nd C) (z : nat) (rc : nd C) :
  nd_zip_with f a b = Return c → getitem c z = Return rc →
  ∃ ra rb, getitem a z = Return ra ∧ getitem b z = Return rb
           ∧ nd_zip_with f ra rb = Return rc.
Proof.
  destruct a as [x | la]; destruct b as [y | lb]; simpl; try discriminate.
  - intros [= <-]. discriminate.
  - intros H. apply rbind_Return in H as (lc & Hgo & H). injection H as <-.
    simpl. revert lb lc z Hgo.
    induction la as [| x la IH]; intros [| y lb] lc z Hgo Hz; simpl in Hgo;
      try discriminate.
    + injection Hgo as <-. destruct z; discriminate.
    + apply rbind_Return in Hgo as (c0 & Hc0 & Hgo).
      apply rbind_Return in Hgo as (cs & Hcs & Hgo). injection Hgo as <-.
      destruct z as [| z]; simpl in *.
      * injection Hz as <-. eauto.
      * eapply IH; eauto.
Qed.

Lemma getitem_nd_map {A B} (f : A → B) (a : nd A) (z : nat) (r : nd B) :
  getitem (nd_map f a) z = Return r →
  ∃ r0, getitem a z = Return r0 ∧ r = nd_map f r0.
Proof.
  destruct a as [x | l]; simpl; [discriminate |].
  change (List.map (nd_map f) l) with (nd_map f <$> l).
  rewrite list_lookup_fmap. destruct (l !! z) as [r0 |]; simpl; [| discriminate].
  intros [= <-]. eauto.
Qed.

Section Termination.
Context {FO : FloatOps} {P : @Primitives FO}.

Lemma xy_loop_returns (mav : float) (mean_affs : nd float) (rest : list nat)
    (rows : list (nd float)) :
  mean_affs = Node rows →
  (∀ z row, rows !! z = Some row → shape row = rest) →
  shape_preserving →
  ∀ (k z : nat) (l : list (nd Z)) (id_offset : Z),
    (z + k ≤ length rows)%nat → length l = length rows →
    (∀ i row, l !! i = Some row → shape row = rest) →
    ∃ l' id_offset',
      xy_loop true mav mean_affs (seq z k) (Node l) id_offset
      = (List.concat (replicate k slice_calls), Return (Node l', id_offset')).
Proof.
  intros -> Hrows (Hdist & Hregmax & Hlabel & Hws).
  induction k as [| k IH]; intros z l off Hz Hlen Hl.
  - exists l, off. reflexivity.
  - change (seq z (S k)) with (z :: seq (S z) k). rewrite xy_loop_cons.
    assert (∃ row, rows !! z = Some row) as [row Hrow]
      by (apply lookup_lt_is_Some; lia).
    assert (∃ old, l !! z = Some old) as [old Hold]
      by (apply lookup_lt_is_Some; lia).
    unfold xy_slice. simpl.
    change (List.map (nd_map (λ v, f_sub (f_of_Z 1) v)) rows)
      with (nd_map (λ v, f_sub (f_of_Z 1) v) <$> rows).
    rewrite list_lookup_fmap, Hrow. simpl.
    set (inv_z := nd_map (λ v, f_sub (f_of_Z 1) v) row).
    unfold get_seeds. unfold mbind, M_bind, bind, invoke, lift, ret. simpl.
    destruct (mahotas_label _) as [seeds0 n0] eqn:Hlab. simpl.
    set (f := mahotas_cwatershed inv_z _).
    assert (shape old = shape f) as Hshape.
    { subst f. rewrite Hws.
      - subst inv_z. rewrite shape_nd_map.
        rewrite (Hl _ _ Hold), (Hrows _ _ Hrow). reflexivity.
      - rewrite !shape_nd_map.
        change seeds0 with (seeds0, n0).1. rewrite <- Hlab.
        rewrite Hlabel, Hregmax, Hdist, shape_nd_map. reflexivity. }
    unfold setitem_uint64. rewrite Hold.
    destruct (decide (shape old = shape f)); [| contradiction].
    destruct (IH (S z) (<[z := astype_uint64 f]> l) (off + n0))
      as (l' & off' & Hrun).
    { lia. }
    { rewrite length_insert. exact Hlen. }
    { intros i r Hi. destruct (decide (i = z)) as [-> | Hne].
      - rewrite list_lookup_insert_eq in Hi by (eapply lookup_lt_Some, Hold).
        injection Hi as <-. unfold astype_uint64. rewrite shape_nd_map.
        rewrite <- Hshape. eapply Hl, Hold.
      - rewrite list_lookup_insert_ne in Hi by auto. eapply Hl, Hi. }
    exists l', off'. simpl in Hrun |- *. rewrite Hrun. reflexivity.
Qed.

(** X7.  The per-slice extraction with mahotas returns: when channels
    1 and 2 of the affinities can be added, their slices have one shape
    and the mahotas functions keep the shape of their input, it makes
    the four library calls once per slice, in this order, and returns
    fragments of the shape of a channel. *)
Theorem xy_extraction_returns (mav : float) (affs a1 a2 s : nd float)
    (depth : nat) (rest : list nat) :
  getitem affs 1 = Return a1 →
  getitem affs 2 = Return a2 →
  nd_zip_with f_add a1 a2 = Return s →
  shape a1 = depth :: rest →
  rows_of_one_shape a1 →
  shape_preserving →
  ∃ fragments n,
    extract_in_xy true mav affs
    = (List.concat (replicate depth slice_calls), Return (fragments, n))
    ∧ shape fragments = shape a1.
Proof.
  intros H1 H2 Hs Hshape Hreg Hws.
  pose proof (nd_zip_with_shape _ _ _ _ Hs) as Hss.
  assert (shape (nd_map (f_mul f_half) s) = depth :: rest) as Hsm
    by (rewrite shape_nd_map; congruence).
  destruct (shape_cons_Node _ _ _ Hsm) as (rows & Hrows & Hlen).
  destruct (Nat.eq_dec depth 0%nat) as [-> | Hpos].
  - exists (zeros 0 (0%nat :: rest)), 0. split.
    + unfold extract_in_xy. rewrite H1, H2. unfold mbind, M_bind, bind, lift.
      rewrite Hs. unfold depth_of. rewrite Hsm. reflexivity.
    + simpl. destruct a1 as [x | [| r l]]; simpl in Hshape; try discriminate.
      reflexivity.
  - assert (∀ z row, rows !! z = Some row → shape row = rest) as Hrest.
    { intros z row Hz.
      assert (getitem (nd_map (f_mul f_half) s) z = Return row) as Hg
        by (rewrite Hrows; simpl; rewrite Hz; reflexivity).
      apply getitem_nd_map in Hg as (r0 & Hr0 & ->). rewrite shape_nd_map.
      destruct (nd_zip_with_getitem _ _ _ _ _ _ Hs Hr0) as (ra & rb & Hra & _ & Hz0).
      rewrite (nd_zip_with_shape _ _ _ _ Hz0).
      destruct a1 as [x | [| r l]]; simpl in Hshape; try discriminate.
      injection Hshape as _ <-.
      apply (Hreg z 0%nat ra r Hra). reflexivity. }
    destruct (xy_loop_returns mav _ rest rows Hrows Hrest Hws depth 0%nat
                (replicate depth (zeros 0 rest)) 0)
      as (l' & off' & Hrun).
    { lia. }
    { rewrite length_replicate. lia. }
    { intros i row Hi. apply lookup_replicate in Hi as [-> _].
      destruct rows as [| r0 rows']; [simpl in Hlen; lia |].
      rewrite <- (Hrest 0%nat r0 eq_refl). apply shape_zeros. }
    exists (Node l'), off'.
    assert (extract_in_xy true mav affs
            = (List.concat (replicate depth slice_calls), Return (Node l', off')))
      as Hex.
    { unfold extract_in_xy. rewrite H1, H2. unfold mbind, M_bind, bind, lift.
      rewrite Hs. unfold depth_of. rewrite Hsm. simpl.
      change (Node (replicate depth (zeros 0 rest)))
        with (Node (replicate depth (zeros 0 rest))) in Hrun.
      rewrite Hrun. reflexivity. }
    split; [exact Hex |].
    eapply extract_in_xy_shape; [exact Hex | exact H1].
Qed.

End Termination.

End ExtractionFacts.

(** ** [watershed] and the seeds of [watershed_from_affinities] *)

Module SeedsFacts.
Import Fragments PyFacts NpFacts FragmentsFacts ExtractionFacts.

Section Seeds.
Context {FO : FloatOps} {P : @Primitives FO}.

Lemma bind_Raise {A B} (t : list call) (e : exn) (f : A → M B) :
  bind (t, Raise e) f = (t, Raise e).
Proof. reflexivity. Qed.

Lemma mbind_lift_Return {A B} (a : A) (f : A → M B) :
  (lift (Return a) ≫= f) = f a.
Proof.
  unfold mbind, M_bind, bind, lift. destruct (f a) as [t r]. reflexivity.
Qed.

Lemma mbind_Raise {A B} (t : list call) (e : exn) (f : A → M B) :
  ((t, Raise e) ≫= f) = (t, Raise e).
Proof. reflexivity. Qed.

Lemma mbind_lift_Raise {A B} (e : exn) (f : A → M B) :
  (lift (Raise e) ≫= f) = ([], Raise e).
Proof. reflexivity. Qed.

Lemma mbind_Return {A B} (t : list call) (a : A) (f : A → M B) :
  ((t, Return a) ≫= f) = ((t ++ (f a).1), (f a).2).
Proof. unfold mbind, M_bind, bind. destruct (f a). reflexivity. Qed.

Lemma xy_steps_cons (um rs : bool) (mav : float) (mean_affs : nd float)
    (z : nat) (zs : list nat) (st : xy_state) :
  xy_steps um rs mav mean_affs (z :: zs) st
  = bind (xy_step um rs mav mean_affs z st)
         (λ st, xy_steps um rs mav mean_affs zs st).
Proof. reflexivity. Qed.

(** X8.  [watershed] returns the seeds as a third entry only if they
    are asked for and a fragment was found; with no fragment all labels
    are 0, also with [return_seeds]; the distances are appended exactly
    when [return_distances] is set. *)
Theorem watershed_tuple_length {S : @Smoothing FO} (lsds : nd float)
    (sigma : float) (return_seeds return_distances : bool) t r d :
  watershed lsds sigma return_seeds return_distances = (t, Return (r, d)) →
  ret_len r = (if return_seeds && negb (Z.eqb (ret_1 r) 0) then 3%nat else 2%nat)
  ∧ (ret_1 r = 0 → ∀ l, l ∈ elems (ret_0 r) → l = 0)
  ∧ (d = None ↔ return_distances = false).
Proof.
  unfold watershed. intros H.
  inv_bind H as vectors Hv. inv_bind H as bd0 Hsum. inv_bind H as top Htop.
  inv_bind H as r0 Hw.
  assert (r0 = r ∧ (d = None ↔ return_distances = false)) as [-> Hd].
  { destruct return_distances; unfold ret in H; injection H as _ <- <-;
      (split; [reflexivity | split; intros Heq; (discriminate || reflexivity)]). }
  split; [| split; [| exact Hd]].
  - clear H. unfold watershed_from_boundary_distance in Hw.
    inv_bind Hw as max_filtered Hf. inv_bind Hw as maxima Hm.
    inv_bind Hw as sn Hl. destruct sn as [seeds n].
    destruct (decide (n = 0)) as [-> | Hn0].
    + unfold ret in Hw. injection Hw as _ <-. simpl.
      rewrite andb_false_r. reflexivity.
    + inv_bind Hw as top' Ht. inv_bind Hw as fragments Hws.
      destruct return_seeds; unfold ret in Hw; injection Hw as _ <-; simpl;
        [| reflexivity].
      rewrite Z.add_0_r. destruct (Z.eqb_spec n 0); [contradiction | reflexivity].
  - clear H. intros Hzero. unfold watershed_from_boundary_distance in Hw.
    inv_bind Hw as max_filtered Hf. inv_bind Hw as maxima Hm.
    inv_bind Hw as sn Hl. destruct sn as [seeds n].
    destruct (decide (n = 0)) as [-> | Hn0].
    + unfold ret in Hw. injection Hw as _ <-. simpl.
      intros l Hl'. eapply elems_zeros, Hl'.
    + inv_bind Hw as top' Ht. inv_bind Hw as fragments Hws.
      destruct return_seeds; unfold ret in Hw; injection Hw as _ <-;
        simpl in Hzero; lia.
Qed.

Lemma xy_steps_Raise (um rs : bool) (mav : float) (mean_affs : nd float)
    (z : nat) (zs : list nat) (st : xy_state) t e :
  xy_step um rs mav mean_affs z st = (t, Raise e) →
  xy_steps um rs mav mean_affs (z :: zs) st = (t, Raise e).
Proof. intros H. rewrite xy_steps_cons, H. reflexivity. Qed.

(** X9.  With [fragments_in_xy], [return_seeds] and [use_mahotas] the
    loop binds [seeds] to the seeds of the slice and then assigns that
    array to its own row [z]: when the seeds of the first slice have two
    rows or more, the call raises [ValueError] after the watershed of
    that slice. *)
Theorem slice_seeds_cannot_be_stored (affs : affinities) (epsilon : float)
    (a1 a2 s inv_0 : nd float) (seeds : nd Z) (num_seeds : Z)
    (t0 : list call) (rows : nat) (rest : list nat) :
  getitem (affs_values affs) 1 = Return a1 →
  getitem (affs_values affs) 2 = Return a2 →
  nd_zip_with f_add a1 a2 = Return s →
  getitem (nd_map (λ v, f_sub (f_of_Z 1) v) (nd_map (f_mul f_half) s)) 0
  = Return inv_0 →
  get_seeds inv_0 0 = (t0, Return (seeds, num_seeds)) →
  shape seeds = rows :: rest → (2 ≤ rows)%nat →
  watershed_from_affinities_with_seeds affs true true epsilon true
  = (t0 ++ [Call_mahotas_cwatershed], Raise ValueError).
Proof.
  intros H1 H2 Hs H0 Hseeds Hshape Hrows.
  unfold watershed_from_affinities_with_seeds.
  rewrite H1, H2, !mbind_lift_Return, Hs, mbind_lift_Return.
  set (mean_affs := nd_map (f_mul f_half) s) in *.
  destruct (shape mean_affs) as [| d shape_rest] eqn:Hsm.
  { exfalso. destruct mean_affs as [x | l]; simpl in *; discriminate. }
  assert (d ≠ 0%nat) as Hd.
  { intros ->. destruct mean_affs as [x | [| r l]]; simpl in *; discriminate. }
  destruct d as [| d]; [congruence |].
  unfold depth_of. rewrite Hsm, mbind_lift_Return.
  change (seq 0 (S d)) with (0%nat :: seq 1 d).
  erewrite xy_steps_Raise; [rewrite !mbind_Raise; reflexivity |].
  unfold xy_step. cbv zeta. unfold st_id_offset, st_fragments, st_seeds.
  rewrite H0, mbind_lift_Return, Hseeds.
  unfold mbind, M_bind, bind, invoke, lift, ret. simpl.
  set (f := mahotas_cwatershed inv_0 seeds).
  unfold setitem_uint64. simpl.
  destruct (decide (shape (zeros 0 shape_rest) = shape f)); simpl;
    [| rewrite !app_nil_r; reflexivity].
  unfold setitem_broadcast.
  destruct seeds as [x | l]; [discriminate |].
  destruct l as [| r0 [| r1 l]]; simpl in Hshape; injection Hshape as <- <-;
    simpl in Hrows; try lia.
  simpl.
  replace (S (length (shape r0)) - length (shape r0))%nat with 1%nat by lia.
  simpl. rewrite !app_nil_r. reflexivity.
Qed.

End Seeds.

Section WithoutSeeds.
Context {FO : FloatOps} {P : @Primitives FO}.

Lemma bind_assoc {A B C} (m : M A) (k : A → M B) (h : B → M C) :
  bind (bind m k) h = bind m (λ a, bind (k a) h).
Proof.
  destruct m as [t [a | e]]; simpl; [| reflexivity].
  destruct (k a) as [t1 [b | e]]; simpl; [| reflexivity].
  destruct (h b) as [t2 r]. rewrite app_assoc. reflexivity.
Qed.

Lemma bind_ext {A B} (m : M A) (k k' : A → M B) :
  (∀ a, k a = k' a) → bind m k = bind m k'.
Proof. intros Hk. destruct m as [t [a | e]]; simpl; [rewrite Hk |]; reflexivity. Qed.

Lemma ret_bind {A B} (a : A) (k : A → M B) : bind (ret a) k = k a.
Proof. unfold bind, ret. destruct (k a). reflexivity. Qed.

Lemma M_map_bind {A B C} (f : B → C) (m : M A) (k : A → M B) :
  M_map f (bind m k) = bind m (λ a, M_map f (k a)).
Proof.
  destruct m as [t [a | e]]; simpl; [| reflexivity].
  unfold M_map. destruct (k a) as [t1 r]. reflexivity.
Qed.

Lemma M_map_ret {A B} (f : A → B) (a : A) : M_map f (ret a) = ret (f a).
Proof. reflexivity. Qed.

Ltac next_bind :=
  rewrite ?bind_assoc, ?M_map_bind; apply bind_ext; intros ?.

Lemma xy_step_without_seeds (um : bool) (mav : float) (mean_affs : nd float)
    (z : nat) (st : xy_state) :
  M_map (λ st, (st_fragments st, st_id_offset st))
        (xy_step um false mav mean_affs z st)
  = bind (xy_slice um mav mean_affs z (st_id_offset st)) (λ r,
      bind (lift (setitem_uint64 (st_fragments st) z (ret_0 r))) (λ fragments,
        ret (fragments, ret_1 r))).
Proof.
  unfold xy_step, xy_slice. unfold mbind, M_bind. destruct um.
  - next_bind. next_bind.
    match goal with a : (nd Z * Z)%type |- _ => destruct a as [seeds n] end.
    next_bind. rewrite !ret_bind. next_bind. rewrite ret_bind. reflexivity.
  - next_bind. next_bind. next_bind. rewrite !ret_bind. next_bind.
    rewrite ret_bind. reflexivity.
Qed.

Lemma bind_M_map {A B C} (f : A → B) (m : M A) (k : B → M C) :
  bind (M_map f m) k = bind m (λ a, k (f a)).
Proof. destruct m as [t [a | e]]; reflexivity. Qed.

Lemma xy_steps_without_seeds (um : bool) (mav : float) (mean_affs : nd float)
    (zs : list nat) :
  ∀ st,
    M_map (λ st, (st_fragments st, st_id_offset st))
          (xy_steps um false mav mean_affs zs st)
    = xy_loop um mav mean_affs zs (st_fragments st) (st_id_offset st).
Proof.
  induction zs as [| z zs IH]; intros st; [reflexivity |].
  rewrite xy_steps_cons, xy_loop_cons, M_map_bind.
  rewrite (bind_ext _ _ _ IH).
  rewrite <- (bind_M_map (λ st, (st_fragments st, st_id_offset st)) _
                (λ p, xy_loop um mav mean_affs zs p.1 p.2)).
  rewrite xy_step_without_seeds, !bind_assoc.
  apply bind_ext. intros r. rewrite bind_assoc. apply bind_ext. intros F.
  rewrite ret_bind. reflexivity.
Qed.

(** With [return_seeds] false the function is the one embedded as
    [watershed_from_affinities]. *)
Lemma without_seeds (affs : affinities) (fragments_in_xy : bool)
    (epsilon : float) (use_mahotas : bool) :
  M_map as_pair
    (watershed_from_affinities_with_seeds affs fragments_in_xy false epsilon
       use_mahotas)
  = watershed_from_affinities affs fragments_in_xy epsilon use_mahotas.
Proof.
  unfold watershed_from_affinities_with_seeds, watershed_from_affinities.
  unfold mbind, M_bind. destruct fragments_in_xy.
  - unfold extract_in_xy. unfold mbind, M_bind.
    do 4 next_bind.
    rewrite !bind_assoc, M_map_bind.
    match goal with
    | |- context [xy_steps ?um false ?mav ?ma ?zs ?st0] =>
        pose proof (xy_steps_without_seeds um mav ma zs st0) as Hst
    end.
    simpl in Hst. rewrite <- Hst, bind_M_map.
    apply bind_ext. intros st. rewrite !ret_bind.
    destruct (f_ltb (f_of_Z 0) epsilon); [| reflexivity].
    do 4 next_bind. reflexivity.
  - unfold extract_in_3d. unfold mbind, M_bind.
    do 2 next_bind. rewrite M_map_bind.
    apply bind_ext. intros r. rewrite !ret_bind.
    destruct (f_ltb (f_of_Z 0) epsilon); [| destruct r; reflexivity].
    reflexivity.
Qed.

End WithoutSeeds.

End SeedsFacts.

Module ExtractionExamples.
Import Fragments NpFacts FragmentsFacts Exact Examples FragmentsExamples.
Import ExtractionFacts SeedsFacts.




Lemma xy_fragments_have_the_shape_of_a_channel_witness :
  shape (Node [Node [Node [Leaf 1; Leaf 1]]; Node [Node [Leaf 2; Leaf 2]]])
  = shape (channel 1).
Proof.
  refine (@xy_fragments_have_the_shape_of_a_channel frac_ops simple_primitives
            bright_affs (Frac 0 1) true _ _ 2 (channel 1) _ _);
    reflexivity.
Defined.


Lemma xy_mode_needs_three_channels_witness :
  watershed_from_affinities two_channels true (Frac 0 1) true
  = ([], Raise IndexError).
Proof.
  refine (@xy_mode_needs_three_channels frac_ops simple_primitives two_channels
            (Frac 0 1) true [channel 1; channel 1] _ _); [reflexivity | simpl; lia].
Defined.

Lemma simple_primitives_keep_shapes : @shape_preserving frac_ops simple_primitives.
Proof.
  repeat split; intros; simpl; try apply shape_nd_map. assumption.
Qed.

Lemma channel_rows (v : Z) : rows_of_one_shape (channel v).
Proof.
  intros [| [| z1]] [| [| z2]] r1 r2 H1 H2; simpl in H1, H2;
    try discriminate; injection H1 as <-; injection H2 as <-; reflexivity.
Qed.

Lemma xy_extraction_returns_witness :
  ∃ fragments n,
    extract_in_xy true (Frac 1 1) (affs_values bright_affs)
    = ([Call_mahotas_distance; Call_mahotas_regmax; Call_mahotas_label;
        Call_mahotas_cwatershed; Call_mahotas_distance; Call_mahotas_regmax;
        Call_mahotas_label; Call_mahotas_cwatershed],
       Return (fragments, n))
    ∧ shape fragments = [2; 1; 2]%nat.
Proof.
  exact (@xy_extraction_returns frac_ops simple_primitives (Frac 1 1)
           (affs_values bright_affs) (channel 1) (channel 1) _ 2%nat [1; 2]%nat
           eq_refl eq_refl eq_refl eq_refl (channel_rows 1)
           simple_primitives_keep_shapes).
Defined.

Lemma watershed_tuple_length_witness :
  watershed unit_lsds (Frac 1 1) true true
  = ([Call_maximum_filter; Call_mahotas_label],
     Return (Ret2 (Node [Node [Leaf 0; Leaf 0]]) 0,
             Some (Node [Node [Leaf (Frac 0 1); Leaf (Frac 0 1)]])))
  ∧ ret_len (Ret2 (Node [Node [Leaf 0; Leaf 0]]) 0) = 2%nat.
Proof.
  split; [reflexivity |].
  refine (proj1
    (@watershed_tuple_length frac_ops simple_primitives no_smoothing
       unit_lsds (Frac 1 1) true true _
       (Ret2 (Node [Node [Leaf 0; Leaf 0]]) 0) _ _)).
  reflexivity.
Defined.

Lemma slice_seeds_cannot_be_stored_witness :
  watershed_from_affinities_with_seeds square_affs true true (Frac 0 1) true
  = ([Call_mahotas_distance; Call_mahotas_regmax; Call_mahotas_label;
      Call_mahotas_cwatershed],
     Raise ValueError).
Proof.
  exact (@slice_seeds_cannot_be_stored frac_ops simple_primitives square_affs
           (Frac 0 1) (square 1) (square 1) _ _ _ 1 _ 2%nat [2%nat]
           eq_refl eq_refl eq_refl eq_refl eq_refl eq_refl (le_n 2)).
Defined.

End ExtractionExamples.

(** ** [upsample] *)

Module UpsampleFacts.
Import Fragments Daisy Funlib Scipy ParallelFragments PyFacts NpFacts.

Lemma lookup_concat_replicate {A} (k : nat) (l : list A) (i : nat) :
  (0 < k)%nat →
  List.concat (List.map (replicate k) l) !! i = l !! (i / k)%nat.
Proof.
  intros Hk. revert i. induction l as [| x l IH]; intros i; simpl.
  - reflexivity.
  - destruct (decide (i < k)%nat) as [Hlt | Hge].
    + rewrite lookup_app_l by (rewrite length_replicate; exact Hlt).
      rewrite Nat.div_small by exact Hlt. simpl.
      apply lookup_replicate_2. exact Hlt.
    + rewrite lookup_app_r by (rewrite length_replicate; lia).
      rewrite length_replicate, IH.
      replace (i / k)%nat with (S ((i - k) / k)).
      * reflexivity.
      * replace i with ((i - k) + 1 * k)%nat at 2 by lia.
        rewrite Nat.div_add by lia. lia.
Qed.

(** [np.repeat(a, k, axis)] at an index: the entry of [a] at the index
    with its coordinate along [axis] divided by [k]. *)
Lemma at_index_nd_repeat {A} (k : nat) (a : nd A) :
  (0 < k)%nat →
  ∀ (axis : nat) (p : list nat),
    (axis < length p)%nat →
    at_index p (nd_repeat k axis a)
    = at_index (alter (λ i, i / k)%nat axis p) a.
Proof.
  intros Hk. induction a as [x | l IH] using nd_induction; intros axis p Hp.
  - destruct p as [| i p]; [simpl in Hp; lia |].
    destruct axis; reflexivity.
  - destruct p as [| i p]; [simpl in Hp; lia |].
    destruct axis as [| axis]; simpl.
    + rewrite lookup_concat_replicate by exact Hk. reflexivity.
    + change (List.map (nd_repeat k axis) l) with (nd_repeat k axis <$> l).
      rewrite list_lookup_fmap.
      destruct (l !! i) as [x |] eqn:Hi; simpl; [| reflexivity].
      rewrite Forall_forall in IH. apply IH.
      * eapply list_elem_of_lookup_2, Hi.
      * simpl in Hp. lia.
Qed.

Lemma upsample_snoc {A} (a : nd A) (factor : list Z) (f : Z) :
  upsample a (factor ++ [f])
  = nd_repeat (Z.to_nat f) (length factor) (upsample a factor).
Proof.
  unfold upsample. rewrite length_app. simpl.
  rewrite Nat.add_1_r, seq_S, zip_with_app by (rewrite length_seq; reflexivity).
  rewrite foldl_app. reflexivity.
Qed.

Lemma source_index_snoc (factor : list Z) (f : Z) (p : list nat) :
  (length factor < length p)%nat →
  source_index factor (alter (λ i, i / Z.to_nat f)%nat (length factor) p)
  = source_index (factor ++ [f]) p.
Proof.
  intros Hlen. unfold source_index. apply list_eq. intros d.
  rewrite !list_lookup_imap.
  destruct (decide (d = length factor)) as [-> | Hne].
  - rewrite list_lookup_alter_eq.
    destruct (p !! length factor) as [i |] eqn:Hi; simpl; [| reflexivity].
    rewrite lookup_ge_None_2 by lia.
    rewrite lookup_app_r by lia. rewrite Nat.sub_diag. reflexivity.
  - rewrite list_lookup_alter_ne by auto.
    destruct (p !! d) as [i |] eqn:Hi; simpl; [| reflexivity].
    destruct (decide (d < length factor)%nat) as [Hlt | Hge].
    + rewrite lookup_app_l by exact Hlt. reflexivity.
    + rewrite lookup_ge_None_2 by lia.
      rewrite (lookup_ge_None_2 (factor ++ [f]))
        by (rewrite length_app; simpl; lia).
      reflexivity.
Qed.

(** X10.  [upsample] repeats voxels: for positive factors, the voxel at
    an index of the result is the voxel of the source at that index with
    each coordinate divided by the factor of its axis. *)
Theorem upsampled_voxel_is_its_source {A} (a : nd A) (factor : list Z)
    (p : list nat) :
  Forall (λ f, 0 < f) factor →
  (length factor ≤ length p)%nat →
  at_index p (upsample a factor) = at_index (source_index factor p) a.
Proof.
  revert p. induction factor as [| f factor IH] using rev_ind; intros p Hpos Hlen.
  - unfold upsample, source_index. simpl. f_equal.
    apply list_eq. intros d. rewrite list_lookup_imap.
    destruct (p !! d); reflexivity.
  - apply Forall_app in Hpos as [Hpos Hf]. rewrite Forall_singleton in Hf.
    rewrite length_app in Hlen. simpl in Hlen.
    rewrite upsample_snoc, at_index_nd_repeat by lia.
    rewrite IH; [| exact Hpos | rewrite length_alter; lia].
    rewrite source_index_snoc by lia. reflexivity.
Qed.

End UpsampleFacts.

(** ** What a block writes *)

Module BlockOutputFacts.
Import Fragments Daisy Funlib Scipy ParallelFragments PyFacts NpFacts.
Import ParallelFragmentsFacts BlockRangeFacts.

Lemma shift_index_cons (b e : nat) (rs : list (nat * nat)) (i : nat) (p : list nat) :
  shift_index ((b, e) :: rs) (i :: p) = (i + b)%nat :: shift_index rs p.
Proof. reflexivity. Qed.

Lemma shift_index_nil (p : list nat) : shift_index [] p = p.
Proof.
  unfold shift_index. apply list_eq. intros d. rewrite list_lookup_imap.
  destruct (p !! d); simpl; [f_equal; lia | reflexivity].
Qed.

Lemma nd_slice_cons {A} (b e : nat) (rs : list (nat * nat)) (l : list (nd A)) :
  nd_slice ((b, e) :: rs) (Node l)
  = Node (nd_slice rs <$> take (e - b) (drop b l)).
Proof. reflexivity. Qed.

Lemma at_index_nd_slice {A} (ranges : list (nat * nat)) :
  ∀ (a : nd A) (p : list nat) (x : A),
    at_index p (nd_slice ranges a) = Some x →
    at_index (shift_index ranges p) a = Some x.
Proof.
  induction ranges as [| [b e] rs IH]; intros a p x Hp.
  - rewrite shift_index_nil. destruct a; exact Hp.
  - destruct a as [y | l].
    + destruct p; [exact Hp | discriminate].
    + rewrite nd_slice_cons in Hp.
      destruct p as [| i p]; [discriminate |].
      cbn [at_index] in Hp.
      rewrite list_lookup_fmap in Hp.
      destruct (take (e - b) (drop b l) !! i) as [x0 |] eqn:Hi; [| discriminate].
      simpl in Hp. apply lookup_take_Some in Hi as [Hi _].
      rewrite lookup_drop in Hi.
      rewrite shift_index_cons. simpl.
      replace (i + b)%nat with (b + i)%nat by lia. rewrite Hi.
      apply IH, Hp.
Qed.

Lemma at_index_nd_zip_with {A B C} (f : A → B → C) (a : nd A) :
  ∀ (b : nd B) (c : nd C) (p : list nat) (z : C),
    nd_zip_with f a b = Return c → at_index p c = Some z →
    ∃ x y, at_index p a = Some x ∧ at_index p b = Some y ∧ z = f x y.
Proof.
  induction a as [x | la IH] using nd_induction; intros [y | lb] c p z H Hp;
    simpl in H; try discriminate.
  - injection H as <-. destruct p; [| discriminate].
    injection Hp as <-. eauto.
  - apply rbind_Return in H as (lc & Hgo & H). injection H as <-.
    destruct p as [| i p]; [discriminate |]. simpl in Hp |- *.
    revert lb lc i Hgo Hp.
    induction IH as [| x la Hx _ IHl]; intros [| y lb] lc i Hgo Hp;
      simpl in Hgo; try discriminate.
    + injection Hgo as <-. rewrite lookup_nil in Hp. discriminate.
    + apply rbind_Return in Hgo as (c0 & Hc0 & Hgo).
      apply rbind_Return in Hgo as (cs & Hcs & Hgo). injection Hgo as <-.
      destruct i as [| i]; simpl in *.
      * eapply Hx; eauto.
      * eapply IHl; eauto.
Qed.

Section Block.
Context {FO : FloatOps} {RP : @RagProvider FO}.
Variable watershed_from_affinities :
  affinities → bool → float → result (nd Z * Z).

(** What [watershed_in_block] does once the fragments are cropped: it
    returns early, or raises before it has written, or writes the array
    and then the nodes that lines 172-285 make of the fragments. *)
Lemma stored_by_block (affs : Array float) (block : Block)
    (fragments_in_xy : bool) (epsilon : float) (mask : option (Array Z))
    (myelin_ds : option (Z → list float → bool)) (w : World)
    (cropped : Array Z) (n : Z) :
  extract_and_crop watershed_from_affinities affs block fragments_in_xy
                   epsilon mask = Return (cropped, n) →
  let run := watershed_in_block watershed_from_affinities affs block
               fragments_in_xy epsilon mask myelin_ds w in
  (prepare_output block cropped n myelin_ds = Return None
   ∧ run = (w, Return ()))
  ∨ (∃ e, prepare_output block cropped n myelin_ds = Raise e
          ∧ run = (w, Raise e))
  ∨ ∃ out centers,
      prepare_output block cropped n myelin_ds = Return (Some (out, centers))
      ∧ fragments_out run.1 = (write_roi block, out) :: fragments_out w
      ∧ ((∃ e, node_list centers = Raise e
               ∧ rag_provider run.1 = rag_provider w ∧ run.2 = Raise e)
         ∨ ∃ nodes,
             node_list centers = Return nodes
             ∧ rag_provider run.1
               = write_nodes (rag_provider w)
                   (add_nodes_from
                      (provider_getitem (rag_provider w) (write_roi block))
                      nodes)
                   (write_roi block)
             ∧ run.2 = Return ()).
Proof.
  intros Hex. cbv zeta. unfold watershed_in_block.
  unfold mbind at 1 2, result_bind at 1 2. rewrite Hex. simpl.
  destruct (prepare_output block cropped n myelin_ds) as [[[out centers] |] | e]
    eqn:Hprep; simpl.
  - right. right. exists out, centers. split; [reflexivity |].
    destruct (node_list centers) as [nodes | e] eqn:Hnodes; simpl.
    + split; [reflexivity |]. right. exists nodes. auto.
    + split; [reflexivity |]. left. exists e. auto.
  - left. auto.
  - right. left. exists e. auto.
Qed.

(** X11.  With a mask, a voxel of the write region whose mask value is
    0 has the label 0 in the cropped fragments, and is 0 in the array
    the block writes, if it writes one. *)
Theorem masked_out_voxels_get_no_fragment (affs : Array float) (block : Block)
    (fragments_in_xy : bool) (epsilon : float) (mask : Array Z)
    (myelin_ds : option (Z → list float → bool)) (w : World)
    (cropped : Array Z) (n : Z) :
  extract_and_crop watershed_from_affinities affs block fragments_in_xy
                   epsilon (Some mask) = Return (cropped, n) →
  ∃ read mask_data,
    array_intersect affs (read_roi block) = Return read
    ∧ get_mask_data_in_roi mask (roi read) (voxel_size read) = Return mask_data
    ∧ let ranges :=
        index_ranges (roi read) (voxel_size read) (write_roi block) in
      let w' := (watershed_in_block watershed_from_affinities affs block
                   fragments_in_xy epsilon (Some mask) myelin_ds w).1 in
      (∀ p l, at_index p (data cropped) = Some l →
         ∃ m, at_index (shift_index ranges p) mask_data = Some m
              ∧ (m = 0 → l = 0))
      ∧ (fragments_out w' = fragments_out w
         ∨ ∃ written,
             fragments_out w' = (write_roi block, written) :: fragments_out w
             ∧ ∀ p l, at_index p (data cropped) = Some l →
                 at_index (shift_index ranges p) mask_data = Some 0 →
                 at_index p written = Some 0).
Proof.
  intros Hex. pose proof Hex as Hrun. unfold extract_and_crop in Hrun.
  inv_rbind Hrun as read Hread. inv_rbind Hrun as md Hmd.
  inv_rbind Hmd as mask_data Hmask. injection Hmd as <-.
  inv_rbind Hrun as affs_data Haffs. inv_rbind Hrun as fn Hw.
  destruct fn as [F n0]. inv_rbind Hrun as F2 Hmul.
  inv_rbind Hrun as fragments Hcrop. injection Hrun as <- <-.
  unfold getitem_roi in Hcrop. simpl in Hcrop.
  destruct (contains (roi read) (write_roi block)); [| discriminate].
  injection Hcrop as <-. simpl.
  exists read, mask_data. split; [exact Hread |]. split; [exact Hmask |].
  assert (∀ p l,
            at_index p (nd_slice (index_ranges (roi read) (voxel_size read)
                                    (write_roi block)) F2) = Some l →
            ∃ m, at_index (shift_index (index_ranges (roi read) (voxel_size read)
                                          (write_roi block)) p) mask_data = Some m
                 ∧ (m = 0 → l = 0)) as Hmasked.
  { intros p l Hp. apply at_index_nd_slice in Hp.
    destruct (at_index_nd_zip_with _ _ _ _ _ _ Hmul Hp) as (l0 & m & _ & Hm & ->).
    exists m. split; [exact Hm |]. intros ->.
    unfold uint64. rewrite Z.mod_0_l by lia. rewrite Z.mul_0_r. reflexivity. }
  split; [exact Hmasked |].
  destruct (stored_by_block affs block fragments_in_xy epsilon (Some mask)
              myelin_ds w _ _ Hex)
    as [[_ Hsame] | [(e & _ & Hsame) | (out & centers & Hprep & Hout & _)]].
  { left. rewrite Hsame. reflexivity. }
  { left. rewrite Hsame. reflexivity. }
  right. exists out. split; [exact Hout |].
  intros p l Hp Hm. eapply prepare_output_zero; [exact Hprep |]. simpl.
  destruct (Hmasked p l Hp) as (m & Hm' & Hl). rewrite Hm in Hm'.
  injection Hm' as <-. rewrite Hp. f_equal. apply Hl. reflexivity.
Qed.

Lemma replace_by_zero_keeps (a : nd Z) (old_values : list Z) (l : Z) :
  l ∈ elems a → l ∉ old_values →
  l ∈ elems (replace_values a old_values ((λ _, 0) <$> old_values)).
Proof.
  intros Hl Hout. unfold replace_values. apply elem_of_nd_map.
  exists l. split; [| exact Hl].
  destruct (list_find (λ o, o = l) old_values) as [[i o] |] eqn:Hfind;
    [| reflexivity].
  apply list_find_Some in Hfind as (Hi & -> & _).
  exfalso. apply Hout. eapply list_elem_of_lookup_2, Hi.
Qed.

Lemma replace_by_zero_gone (a : nd Z) (old_values : list Z) (l : Z) :
  l ∈ old_values → l ≠ 0 →
  l ∉ elems (replace_values a old_values ((λ _, 0) <$> old_values)).
Proof.
  intros Hin Hne Hl. unfold replace_values in Hl.
  apply elem_of_nd_map in Hl as (v & Hv & _).
  destruct (list_find (λ o, o = v) old_values) as [[i o] |] eqn:Hfind.
  - rewrite list_lookup_fmap in Hv.
    apply list_find_Some in Hfind as (Hi & _ & _). rewrite Hi in Hv.
    simpl in Hv. congruence.
  - subst v. apply list_find_None in Hfind. rewrite Forall_forall in Hfind.
    apply (Hfind l Hin). reflexivity.
Qed.

(** X14.  The myelin test removes a fragment as a whole: a fragment
    whose centre tests positive has no voxel left in the array (if its
    id is not 0) and no entry among the centres; the other fragments keep
    their entry and their voxels; every voxel keeps its label or
    becomes 0. *)
Theorem myelin_fragments_are_erased (is_myelin : Z → list float → bool)
    (fragment_centers : list (Z * list float)) (fragments : nd Z) :
  let '(centers, out) :=
    post_process_myelin (Some is_myelin) fragment_centers fragments in
  (∀ node c, (node, c) ∈ fragment_centers → is_myelin node c = true →
     (node ≠ 0 → node ∉ elems out) ∧ ∀ c', (node, c') ∉ centers)
  ∧ (∀ node c, (node, c) ∈ centers →
       (node, c) ∈ fragment_centers ∧ (node ∈ elems fragments → node ∈ elems out))
  ∧ (∀ p l, at_index p fragments = Some l →
       at_index p out = Some l ∨ at_index p out = Some 0).
Proof.
  unfold post_process_myelin.
  set (myelin_fragments :=
         (filter (λ '(node, c), is_myelin node c = true) fragment_centers).*1).
  assert (∀ node c, (node, c) ∈ fragment_centers → is_myelin node c = true →
                    node ∈ myelin_fragments) as Hin.
  { intros node c Hc Hm. subst myelin_fragments.
    apply list_elem_of_fmap. exists (node, c). split; [reflexivity |].
    apply list_elem_of_filter. auto. }
  split; [| split].
  - intros node c Hc Hm. split.
    + intros Hne. apply replace_by_zero_gone; [eapply Hin; eauto | exact Hne].
    + intros c' Hc'. apply list_elem_of_filter in Hc' as [Hout _].
      apply Hout. eapply Hin; eauto.
  - intros node c Hc. apply list_elem_of_filter in Hc as [Hout Hc].
    split; [exact Hc |]. intros Hl. apply replace_by_zero_keeps; assumption.
  - intros p l Hp. unfold replace_values. rewrite at_index_nd_map, Hp. simpl.
    destruct (list_find (λ o, o = l) myelin_fragments) as [[i o] |] eqn:Hfind;
      [| left; reflexivity].
    right. rewrite list_lookup_fmap.
    apply list_find_Some in Hfind as (Hi & _ & _). rewrite Hi. reflexivity.
Qed.

Section Present.
(** Python floats give NaN for [0.0/0.0]. *)
Hypothesis zero_by_zero : f_isnan (f_div (f_of_Z 0) (f_of_Z 0)) = true.

Lemma prepare_output_present (block : Block) (fragments : Array Z) (n : Z)
    (myelin_ds : option (Z → list float → bool))
    (out : nd Z) (centers : list (Z * list float)) :
  prepare_output block fragments n myelin_ds = Return (Some (out, centers)) →
  ∀ i c, (i, c) ∈ centers → i ∈ elems out.
Proof.
  unfold prepare_output. intros Hrun i c Hic.
  inv_rbind Hrun as an Hrel. destruct an as [a' n'].
  inv_rbind Hrun as id_bump Hbump.
  destruct (decide (n' = 0)); [discriminate |].
  inv_rbind Hrun as fragment_centers Hc.
  unfold post_process_myelin in Hrun. destruct myelin_ds as [is_myelin |].
  - injection Hrun as <- <-.
    apply list_elem_of_filter in Hic as [Hout Hic].
    apply replace_by_zero_keeps; [| exact Hout].
    eapply (BlockRangeFacts.fragment_centers_present zero_by_zero); eauto.
  - injection Hrun as <- <-.
    eapply (BlockRangeFacts.fragment_centers_present zero_by_zero); eauto.
Qed.

(** X13.  A block that returns normally has changed nothing, or it has
    written one array and stored the nodes of its region together with
    new ones, and every new node is a label of the array it wrote. *)
Theorem stored_nodes_are_written_fragments (affs : Array float) (block : Block)
    (fragments_in_xy : bool) (epsilon : float) (mask : option (Array Z))
    (myelin_ds : option (Z → list float → bool)) (w : World) :
  let run := watershed_in_block watershed_from_affinities affs block
               fragments_in_xy epsilon mask myelin_ds w in
  run.2 = Return () →
  run.1 = w
  ∨ ∃ written nodes,
      fragments_out run.1 = (write_roi block, written) :: fragments_out w
      ∧ rag_provider run.1
        = write_nodes (rag_provider w)
            (add_nodes_from
               (provider_getitem (rag_provider w) (write_roi block)) nodes)
            (write_roi block)
      ∧ ∀ nd, nd ∈ nodes → node_id nd ∈ elems written.
Proof.
  cbv zeta. intros Hret.
  destruct (extract_and_crop watershed_from_affinities affs block
              fragments_in_xy epsilon mask) as [[cropped n] | e] eqn:Hex.
  - destruct (stored_by_block affs block fragments_in_xy epsilon mask
                myelin_ds w _ _ Hex)
      as [[_ Hsame] | [(e & _ & Hsame) | (out & centers & Hprep & Hout & Hrag)]].
    + left. rewrite Hsame. reflexivity.
    + left. rewrite Hsame. reflexivity.
    + right. destruct Hrag as [(e & _ & _ & Hraise) | (nodes & Hnodes & Hrag & _)];
        [congruence |].
      exists out, nodes. split; [exact Hout |]. split; [exact Hrag |].
      intros nd Hnd.
      destruct (BlockRangeFacts.node_list_ids _ _ Hnodes nd Hnd) as [c Hc].
      eapply prepare_output_present; eauto.
  - left. unfold watershed_in_block.
    unfold mbind at 1, result_bind at 1. rewrite Hex. reflexivity.
Qed.

End Present.
End Block.

Section TwoBlocks.
Context {FO : FloatOps} {RP : @RagProvider FO}.
Hypothesis zero_by_zero : f_isnan (f_div (f_of_Z 0) (f_of_Z 0)) = true.

(** X12.  Two blocks with different ids whose write region counts at
    most [num_voxels_in_block] voxels (and has at most that size) emit
    no common non-zero id, neither in the arrays nor in the nodes. *)
Theorem blocks_within_the_guard_emit_disjoint_ids (b1 b2 : Block)
    (c1 c2 : Array Z) (n1 n2 : Z)
    (myelin_ds : option (Z → list float → bool))
    (out1 out2 : nd Z) (centers1 centers2 : list (Z * list float)) (N : Z) :
  prepare_output b1 c1 n1 myelin_ds = Return (Some (out1, centers1)) →
  prepare_output b2 c2 n2 myelin_ds = Return (Some (out2, centers2)) →
  size (requested_write_roi b1) / foldr Z.mul 1 (voxel_size c1) = N →
  size (requested_write_roi b2) / foldr Z.mul 1 (voxel_size c2) = N →
  block_id b1 ≠ block_id b2 →
  0 ≤ block_id b1 → 0 ≤ block_id b2 →
  block_id b1 * N + N < 2 ^ 64 → block_id b2 * N + N < 2 ^ 64 →
  size (write_roi b1) ≤ N → size (write_roi b2) ≤ N →
  Z.of_nat (length (elems (data c1))) ≤ N →
  Z.of_nat (length (elems (data c2))) ≤ N →
  (∀ l, l ∈ elems (data c1) → 0 ≤ l) →
  (∀ l, l ∈ elems (data c2) → 0 ≤ l) →
  ∀ l, l ≠ 0 →
    l ∈ elems out1 ∨ l ∈ centers1.*1 →
    l ∈ elems out2 ∨ l ∈ centers2.*1 →
    False.
Proof.
  intros H1 H2 HN1 HN2 Hne Hid1 Hid2 Hfit1 Hfit2 Hs1 Hs2 Hv1 Hv2 Hp1 Hp2 l Hl He1 He2.
  destruct (prepare_output_range zero_by_zero b1 c1 n1 myelin_ds out1 centers1 H1)
    as [Hout1 Hcen1]; rewrite ?HN1; auto.
  destruct (prepare_output_range zero_by_zero b2 c2 n2 myelin_ds out2 centers2 H2)
    as [Hout2 Hcen2]; rewrite ?HN2; auto.
  rewrite HN1 in Hout1, Hcen1. rewrite HN2 in Hout2, Hcen2.
  assert (block_id b1 * N < l ≤ block_id b1 * N + N) as Hr1.
  { destruct He1 as [Hin | Hin].
    - destruct (Hout1 l Hin); [contradiction | assumption].
    - apply list_elem_of_fmap in Hin as ([i c] & -> & Hic). eapply Hcen1, Hic. }
  assert (block_id b2 * N < l ≤ block_id b2 * N + N) as Hr2.
  { destruct He2 as [Hin | Hin].
    - destruct (Hout2 l Hin); [contradiction | assumption].
    - apply list_elem_of_fmap in Hin as ([i c] & -> & Hic). eapply Hcen2, Hic. }
  assert (0 ≤ N) by nia.
  eapply (block_ranges_apart (block_id b1) (block_id b2) N l); eauto.
Qed.

End TwoBlocks.

End BlockOutputFacts.

Module BlockOutputExamples.
Import Fragments Daisy Funlib Scipy ParallelFragments.
Import Exact ListProvider Examples UpsampleFacts BlockOutputFacts.

Lemma upsampled_voxel_is_its_source_witness :
  at_index [3%nat] (upsample (Node [Leaf 1; Leaf 2]) [2]) = Some 2.
Proof.
  refine (upsampled_voxel_is_its_source (Node [Leaf 1; Leaf 2]) [2] [3%nat] _ _).
  - repeat constructor.
  - simpl. lia.
Defined.

Lemma masked_out_voxels_get_no_fragment_witness :
  extract_and_crop extract_four volume_affs wide_block_1 false (Frac 0 1)
    (Some holed_mask)
  = Return ({| data := Node [Node [Node [Leaf 1; Leaf 0; Leaf 4];
                                   Node [Leaf 1; Leaf 3; Leaf 4]]];
               dtype := dtype_uint64; channel_dims := 0;
               roi := write_roi wide_block_1;
               voxel_size := [40; 4; 4] |}, 4)
  ∧ ∃ read mask_data,
      array_intersect volume_affs (read_roi wide_block_1) = Return read
      ∧ get_mask_data_in_roi holed_mask (roi read) (voxel_size read)
        = Return mask_data.
Proof.
  split; [reflexivity |].
  destruct (masked_out_voxels_get_no_fragment extract_four volume_affs
              wide_block_1 false (Frac 0 1) holed_mask None empty_world _ 4
              eq_refl) as (read & mask_data & Hread & Hmask & _).
  exists read, mask_data. split; assumption.
Defined.

Lemma frac_zero_by_zero : f_isnan (f_div (f_of_Z 0) (f_of_Z 0)) = true.
Proof. reflexivity. Qed.

Lemma blocks_within_the_guard_emit_disjoint_ids_witness :
  ∃ out1 centers1 out2 centers2,
    prepare_output (unit_block 0) (unit_row 0) 4 None
    = Return (Some (out1, centers1))
    ∧ prepare_output (unit_block 1) (unit_row 1) 4 None
      = Return (Some (out2, centers2))
    ∧ ∀ l, l ≠ 0 →
        l ∈ elems out1 ∨ l ∈ centers1.*1 →
        l ∈ elems out2 ∨ l ∈ centers2.*1 → False.
Proof.
  eexists _, _, _, _.
  split; [vm_compute; reflexivity |]. split; [vm_compute; reflexivity |].
  refine (blocks_within_the_guard_emit_disjoint_ids frac_zero_by_zero
            (unit_block 0) (unit_block 1) (unit_row 0) (unit_row 1) 4 4 None
            _ _ _ _ 3 _ _ _ _ _ _ _ _ _ _ _ _ _ _ _);
    try (vm_compute; reflexivity); try (simpl; lia);
    try (vm_compute; discriminate);
    try (apply Forall_forall; repeat constructor; lia).
Defined.

Lemma stored_nodes_are_written_fragments_witness :
  let run := watershed_in_block extract_four volume_affs block_1 false
               (Frac 0 1) None None empty_world in
  run.2 = Return ()
  ∧ (run.1 = empty_world
     ∨ ∃ written nodes,
         fragments_out run.1 = [(write_roi block_1, written)]
         ∧ rag_provider run.1
           = write_nodes [] (add_nodes_from
                               (provider_getitem [] (write_roi block_1)) nodes)
               (write_roi block_1)
         ∧ ∀ nd, nd ∈ nodes → node_id nd ∈ elems written).
Proof.
  cbv zeta. split; [vm_compute; reflexivity |].
  apply (stored_nodes_are_written_fragments extract_four frac_zero_by_zero
           volume_affs block_1 false (Frac 0 1) None None empty_world).
  vm_compute. reflexivity.
Defined.

End BlockOutputExamples.

(** ** The attributes of a RAG *)

Module AttributeFacts.
Import Networkx Skimage Rag PyFacts NpFacts NetworkxFacts RagFacts.

Lemma add_if_merged_Raise (e : exn) (es : list (Z * Z * attrs)) :
  foldl add_if_merged (Raise e) es = Raise e.
Proof.
  induction es as [| [[u v] d] es IH]; [reflexivity |]. simpl. exact IH.
Qed.

Lemma merge_fold_KeyError (es : list (Z * Z * attrs)) :
  ∀ mg0,
    (∃ u v d, (u, v, d) ∈ es ∧ d !! "merged"%string = None) →
    foldl add_if_merged (Return mg0) es = Raise (KeyError "merged").
Proof.
  induction es as [| [[u v] d] es IH]; intros mg0 (u' & v' & d' & Hin & Hnone).
  - inversion Hin.
  - simpl. unfold getattr.
    destruct (d !! "merged"%string) as [m |] eqn:Hm; simpl.
    + apply elem_of_cons in Hin as [[= -> -> ->] | Hin]; [congruence |].
      destruct (truthy m); apply IH; eauto.
    + apply add_if_merged_Raise.
Qed.

(** X15.  [get_connected_components] reads ['merged'] of every edge:
    one edge without it makes the call raise [KeyError('merged')]. *)
Theorem edge_without_merged_raises_KeyError (G : Graph) (u v : Z) (d : attrs) :
  edge G !! (u, v) = Some d →
  d !! "merged"%string = None →
  get_connected_components G = Raise (KeyError "merged").
Proof.
  intros Hd Hnone. unfold get_connected_components, merge_graph_of.
  rewrite merge_fold_KeyError; [reflexivity |].
  exists u, v, d. split; [apply elem_of_edges_iter, Hd | exact Hnone].
Qed.

Lemma set_edge_attributes_lookup (G : Graph) (k : string) (value : pyval)
    (e : Z * Z) :
  edge (set_edge_attributes G k value) !! e = (λ d, <[k := value]> d) <$> edge G !! e.
Proof. unfold set_edge_attributes. simpl. apply lookup_fmap. Qed.

(** Without a merged edge every node is a component of its own. *)
Lemma unmerged_graph_components (G : Graph) :
  (∀ k d, edge G !! k = Some d →
          ∃ m, d !! "merged"%string = Some m ∧ truthy m = false) →
  ∃ components,
    get_connected_components G = Return components
    ∧ (∀ comp, comp ∈ components → ∃ x, comp = [x] ∧ x ∈ dom (node G))
    ∧ (∀ x, x ∈ dom (node G) → [x] ∈ components).
Proof.
  intros Hval.
  assert (∀ u v, ¬ merged_adjacent G u v) as Hnone.
  { intros u v (d & m & [Hd | Hd] & Hm & Ht);
      destruct (Hval _ _ Hd) as (m' & Hm' & Hf); congruence. }
  assert (∀ v x, merged_connected G v x → x = v) as Hself.
  { intros v x Hc. destruct Hc as [| a b c Hab _]; [reflexivity |].
    destruct (Hnone _ _ Hab). }
  destruct (get_connected_components_spec G) as (cs & Hrun & Hmem & Hcov & _).
  { intros u v d Hd. destruct (Hval _ _ Hd) as (m & Hm & _). eauto. }
  assert (∀ x, known_node G x ↔ x ∈ dom (node G)) as Hknown.
  { intros x. split.
    - intros [Hx | (y & Hy)]; [exact Hx | destruct (Hnone _ _ Hy)].
    - intros Hx. left. exact Hx. }
  assert (∀ c, c ∈ cs → ∃ v, elements c = [v] ∧ v ∈ dom (node G)) as Hsingle.
  { intros c Hc. destruct (Hmem c Hc) as (v & Hv & Hclass).
    exists v. split; [| apply Hknown, Hv].
    assert (c = {[v]}) as ->; [| apply elements_singleton].
    apply set_eq. intros x. rewrite Hclass, elem_of_singleton. split.
    - apply Hself.
    - intros ->. constructor. }
  exists (elements <$> cs). split; [exact Hrun |]. split.
  - intros comp Hcomp. apply list_elem_of_fmap in Hcomp as (c & -> & Hc).
    apply Hsingle, Hc.
  - intros x Hx. destruct (Hcov x) as (c & Hc & Hxc); [apply Hknown, Hx |].
    apply list_elem_of_fmap. exists c. split; [| exact Hc].
    destruct (Hsingle c Hc) as (v & Hel & _).
    rewrite Hel. f_equal.
    apply elem_of_elements in Hxc. rewrite Hel in Hxc.
    apply list_elem_of_singleton in Hxc. exact Hxc.
Qed.

(** X16.  After [set_edge_attributes('merged', v)] with a false [v]
    every node is a component of its own: [get_connected_components]
    returns the singletons of the nodes. *)
Theorem resetting_merged_separates_the_nodes (G : Graph) (value : pyval) :
  truthy value = false →
  ∃ components,
    get_connected_components (set_edge_attributes G "merged" value)
    = Return components
    ∧ (∀ comp, comp ∈ components → ∃ x, comp = [x] ∧ x ∈ dom (node G))
    ∧ (∀ x, x ∈ dom (node G) → [x] ∈ components).
Proof.
  intros Hfalse.
  apply (unmerged_graph_components (set_edge_attributes G "merged" value)).
  intros k d Hd. rewrite set_edge_attributes_lookup in Hd.
  destruct (edge G !! k) as [d0 |]; [| discriminate].
  injection Hd as <-. exists value. split; [apply lookup_insert_eq | exact Hfalse].
Qed.

(** X17.  [__add_esential_edge_attributes] keeps a ['merged'] that is
    there and sets a missing one to 0; it tests for the key
    ['agglomeration'], so an edge without that key has ['agglomerated']
    set to 0, whatever it was; all other attributes stay. *)
Theorem essential_edge_attributes (G : Graph) (u v : Z) (d : attrs) :
  edge G !! (u, v) = Some d →
  "agglomeration"%string ∉ dom d →
  ∃ d',
    edge (__add_esential_edge_attributes G) !! (u, v) = Some d'
    ∧ d' !! "merged"%string = Some (default (PyInt 0) (d !! "merged"%string))
    ∧ d' !! "agglomerated"%string = Some (PyInt 0)
    ∧ ∀ k, k ≠ "merged"%string → k ≠ "agglomerated"%string → d' !! k = d !! k.
Proof.
  intros Hd Hno. unfold __add_esential_edge_attributes. simpl.
  rewrite lookup_fmap, Hd. simpl. eexists. split; [reflexivity |].
  destruct (decide ("merged"%string ∈ dom d)) as [Hin | Hout].
  - destruct (decide ("agglomeration"%string ∈ dom d)); [contradiction |].
    apply elem_of_dom in Hin as [m Hm]. rewrite Hm. simpl.
    split; [rewrite lookup_insert_ne by discriminate; exact Hm |].
    split; [apply lookup_insert_eq |].
    intros k _ Hk. rewrite lookup_insert_ne by auto. reflexivity.
  - destruct (decide ("agglomeration"%string ∈ dom (<["merged"%string := PyInt 0]> d)))
      as [Hin | _].
    { exfalso. rewrite dom_insert_L in Hin.
      apply elem_of_union in Hin as [Hin | Hin]; [| contradiction].
      apply elem_of_singleton in Hin. discriminate. }
    apply not_elem_of_dom in Hout. rewrite Hout. simpl.
    split; [rewrite lookup_insert_ne by discriminate; apply lookup_insert_eq |].
    split; [apply lookup_insert_eq |].
    intros k Hk1 Hk2. rewrite !lookup_insert_ne by auto. reflexivity.
Qed.

(** [__add_esential_node_attributes], node by node. *)
Lemma essential_node_attributes_lookup (G : Graph) (x : Z) :
  node (__add_esential_node_attributes G) !! x
  = (λ d, if decide ("labels"%string ∈ dom d) then d
          else <["labels"%string := PyList [x]]> d) <$> node G !! x.
Proof.
  unfold __add_esential_node_attributes. simpl.
  rewrite map_lookup_imap. destruct (node G !! x); reflexivity.
Qed.

Lemma essential_node_attributes_dom (G : Graph) :
  dom (node (__add_esential_node_attributes G)) = dom (node G).
Proof.
  apply set_eq. intros x. rewrite !elem_of_dom, essential_node_attributes_lookup.
  destruct (node G !! x); simpl; split; intros [? ?]; eauto; discriminate.
Qed.

Lemma essential_node_attributes_labels (G : Graph) (x : Z) (d : attrs) :
  node G !! x = Some d →
  ∃ d', node (__add_esential_node_attributes G) !! x = Some d'
        ∧ d' !! "labels"%string
          = Some (default (PyList [x]) (d !! "labels"%string))
        ∧ ∀ k, k ≠ "labels"%string → d' !! k = d !! k.
Proof.
  intros Hd. rewrite essential_node_attributes_lookup, Hd. simpl.
  eexists. split; [reflexivity |].
  destruct (decide ("labels"%string ∈ dom d)) as [Hin | Hout].
  - apply elem_of_dom in Hin as [ls Hls]. rewrite Hls. simpl. auto.
  - apply not_elem_of_dom in Hout. rewrite Hout. simpl.
    split; [apply lookup_insert_eq |].
    intros k Hk. rewrite lookup_insert_ne by auto. reflexivity.
Qed.

(** X18.  [__add_esential_node_attributes] gives a node without
    ['labels'] the list of itself and keeps everything else; a second
    call changes nothing. *)
Theorem essential_node_attributes_once (G : Graph) :
  let G' := __add_esential_node_attributes G in
  __add_esential_node_attributes G' = G'
  ∧ dom (node G') = dom (node G)
  ∧ edge G' = edge G
  ∧ ∀ x d, node G !! x = Some d →
      ∃ d', node G' !! x = Some d'
        ∧ d' !! "labels"%string
          = Some (default (PyList [x]) (d !! "labels"%string))
        ∧ ∀ k, k ≠ "labels"%string → d' !! k = d !! k.
Proof.
  cbv zeta.
  split; [| split; [apply essential_node_attributes_dom
                   | split; [reflexivity | apply essential_node_attributes_labels]]].
  assert (node (__add_esential_node_attributes (__add_esential_node_attributes G))
          = node (__add_esential_node_attributes G)) as Hnode;
    [| unfold __add_esential_node_attributes in *; simpl in *;
       rewrite Hnode; reflexivity].
  apply map_eq. intros x.
  rewrite essential_node_attributes_lookup, essential_node_attributes_lookup.
  destruct (node G !! x) as [d |]; simpl; [| reflexivity].
  f_equal. destruct (decide ("labels"%string ∈ dom d)) as [Hin | Hout].
  - destruct (decide ("labels"%string ∈ dom d)); [reflexivity | contradiction].
  - destruct (decide ("labels"%string ∈ dom (<["labels"%string := PyList [x]]> d)))
      as [_ | Hn]; [reflexivity |].
    exfalso. apply Hn. rewrite dom_insert_L. set_solver.
Qed.

End AttributeFacts.

(** ** The graph after a contraction *)

Module ContractedGraphFacts.
Import Networkx Skimage Rag PyFacts NpFacts NetworkxFacts RagFacts ContractionFacts.
Import AttributeFacts.

Lemma add_node_existing (G : Graph) (n : Z) :
  n ∈ dom (node G) → add_node G n ∅ = G.
Proof.
  intros Hn. apply elem_of_dom in Hn as [d Hd].
  unfold add_node. destruct G as [nodes edges]. simpl in *. f_equal.
  rewrite Hd. simpl. rewrite (left_id_L ∅ (∪)). apply insert_id, Hd.
Qed.

Lemma add_edge_existing (G : Graph) (u v : Z) (a : attrs) :
  u ∈ dom (node G) → v ∈ dom (node G) → node (add_edge G u v a) = node G.
Proof.
  intros Hu Hv. unfold add_edge. cbv zeta.
  rewrite (add_node_existing G u Hu), (add_node_existing G v Hv). reflexivity.
Qed.

Lemma add_edges_existing (f : Graph → Z → attrs) (b : Z) (l : list Z) :
  ∀ G, b ∈ dom (node G) → (∀ n, n ∈ l → n ∈ dom (node G)) →
       node (foldl (λ G n, add_edge G n b (f G n)) G l) = node G.
Proof.
  induction l as [| n l IH]; intros G Hb Hl; simpl; [reflexivity |].
  assert (node (add_edge G n b (f G n)) = node G) as Hstep
    by (apply add_edge_existing; [apply Hl; left | exact Hb]).
  rewrite IH; [exact Hstep | |]; rewrite Hstep; [exact Hb |].
  intros n' Hn'. apply Hl. right. exact Hn'.
Qed.

(** The edges after the calls of [add_edge] in [merge_nodes]. *)
Lemma add_edges_edges (a b : Z) (l : list Z) :
  ∀ (G : Graph) (k : Z * Z) (d : attrs),
    edge (foldl (λ G n, add_edge G n b (default_edge_attributes G a b n)) G l)
      !! k = Some d →
    (d !! "merged"%string = Some (PyInt 0) ∧ ∃ n, n ∈ l ∧ k = key n b)
    ∨ edge G !! k = Some d.
Proof.
  induction l as [| n l IH]; intros G k d Hd; simpl in Hd; [right; exact Hd |].
  apply IH in Hd as [[Hm (n' & Hn' & ->)] | Hd].
  - left. split; [exact Hm |]. exists n'. split; [right; exact Hn' | reflexivity].
  - unfold add_edge in Hd. simpl in Hd.
    destruct (decide (k = key n b)) as [-> | Hne].
    + rewrite lookup_insert_eq in Hd. injection Hd as <-. left. split.
      * apply default_flags.
      * exists n. split; [left | reflexivity].
    + rewrite lookup_insert_ne in Hd by auto. right. exact Hd.
Qed.

(** [merge_nodes(a, b)] on a graph whose edges join nodes: [a] goes,
    [b] gets the labels of both, every other node stays as it is, and
    an edge of the result is an edge made for [b], with [merged] at 0, or
    an edge that was there and does not touch [a]. *)
Lemma merge_nodes_spec (G : Graph) (a b : Z) (da db : attrs) (la lb : list Z) :
  endpoints_are_nodes G →
  a ≠ b →
  node G !! a = Some da → da !! "labels"%string = Some (PyList la) →
  node G !! b = Some db → db !! "labels"%string = Some (PyList lb) →
  ∃ G',
    merge_nodes G a b default_edge_attributes = Return G'
    ∧ node G' = delete a (<[b := <["labels"%string := PyList (la ++ lb)]> db]> (node G))
    ∧ (∀ k d, edge G' !! k = Some d →
         k.1 ≠ a ∧ k.2 ≠ a
         ∧ ((d !! "merged"%string = Some (PyInt 0)
             ∧ ∃ n, k = key n b ∧ n ∈ dom (node G) ∧ n ≠ a ∧ n ≠ b)
            ∨ edge G !! k = Some d)).
Proof.
  intros Hends Hab Ha Hla Hb Hlb.
  assert (a ∈ dom (node G)) as Hain by (apply elem_of_dom; eauto).
  assert (b ∈ dom (node G)) as Hbin by (apply elem_of_dom; eauto).
  unfold merge_nodes, neighbors.
  destruct (decide (a ∈ dom (node G))); [| contradiction].
  destruct (decide (b ∈ dom (node G))); [| contradiction].
  simpl.
  set (nbrs := elements ((list_to_set (elements (adjacent G a))
                            ∪ list_to_set (elements (adjacent G b)))
                           ∖ ({[a; b]} : gset Z))).
  assert (∀ n, n ∈ nbrs → n ∈ dom (node G) ∧ n ≠ a ∧ n ≠ b) as Hnbrs.
  { intros n Hn. subst nbrs. apply elem_of_elements, elem_of_difference in Hn
      as [Hn Hnot].
    split.
    - apply elem_of_union in Hn as [Hn | Hn];
        apply elem_of_list_to_set, elem_of_elements, elem_of_adjacent in Hn
          as (d & [Hd | Hd]); apply Hends in Hd; tauto.
    - split; intros ->; apply Hnot; [apply elem_of_union_l | apply elem_of_union_r];
        apply elem_of_singleton; reflexivity. }
  set (Gf := foldl _ G nbrs).
  assert (node Gf = node G) as Hnode.
  { subst Gf. apply (add_edges_existing (λ G n, default_edge_attributes G a b n));
      [exact Hbin |]. intros n Hn. apply Hnbrs, Hn. }
  rewrite Hnode, Ha, Hb. simpl. unfold getattr. rewrite Hla, Hlb. simpl.
  unfold remove_node. simpl.
  destruct (decide (a ∈ dom (<[b := <["labels"%string := PyList (la ++ lb)]> db]> (node G))))
    as [_ | Hn];
    [| exfalso; apply Hn; rewrite dom_insert_L; apply elem_of_union_r, Hain].
  eexists. split; [reflexivity |]. simpl. split; [reflexivity |].
  intros [x y] d Hd. apply map_lookup_filter_Some in Hd as [Hd [Hx Hy]].
  simpl in Hx, Hy. simpl. split; [exact Hx |]. split; [exact Hy |].
  subst Gf. apply add_edges_edges in Hd as [[Hm (n & Hn & Hk)] | Hd].
  - left. split; [exact Hm |]. exists n. split; [exact Hk |]. apply Hnbrs, Hn.
  - right. exact Hd.
Qed.

Lemma has_labels_of (G : Graph) (x : Z) :
  has_labels G x →
  ∃ d, node G !! x = Some d
       ∧ d !! "labels"%string = Some (PyList (labels_of G x)).
Proof.
  intros (d & ls & Hd & Hls). exists d. split; [exact Hd |].
  unfold labels_of. rewrite Hd. simpl. rewrite Hls. reflexivity.
Qed.

Lemma labels_of_node (G G' : Graph) (x : Z) :
  node G' !! x = node G !! x → labels_of G' x = labels_of G x.
Proof. intros H. unfold labels_of. rewrite H. reflexivity. Qed.

Lemma has_labels_node (G G' : Graph) (x : Z) :
  node G' !! x = node G !! x → has_labels G x → has_labels G' x.
Proof. intros H (d & ls & Hd & Hls). exists d, ls. rewrite H. auto. Qed.

Lemma edges_reset_or_from_refl (G : Graph) : edges_reset_or_from G G.
Proof. intros k d Hd. right. exact Hd. Qed.

Lemma edges_reset_or_from_trans (G0 G1 G2 : Graph) :
  edges_reset_or_from G0 G1 → edges_reset_or_from G1 G2 →
  edges_reset_or_from G0 G2.
Proof.
  intros H01 H12 k d Hd. apply H12 in Hd as [Hm | Hd]; [left; exact Hm |].
  apply H01, Hd.
Qed.

Lemma merge_nodes_endpoints (G G' : Graph) (a b : Z) (db : attrs) (l : list Z) :
  endpoints_are_nodes G → a ≠ b → b ∈ dom (node G) →
  node G' = delete a (<[b := <["labels"%string := PyList l]> db]> (node G)) →
  (∀ k d, edge G' !! k = Some d →
     k.1 ≠ a ∧ k.2 ≠ a
     ∧ ((d !! "merged"%string = Some (PyInt 0)
         ∧ ∃ n, k = key n b ∧ n ∈ dom (node G) ∧ n ≠ a ∧ n ≠ b)
        ∨ edge G !! k = Some d)) →
  endpoints_are_nodes G'.
Proof.
  intros Hends Hab Hb Hnode Hedge u v d Hd.
  assert (∀ x, x ∈ dom (node G) → x ≠ a → x ∈ dom (node G')) as Hkeep.
  { intros x Hx Hxa. rewrite Hnode, dom_delete_L, dom_insert_L.
    apply elem_of_difference. split; [apply elem_of_union_r, Hx |].
    intros Hin. apply elem_of_singleton in Hin. contradiction. }
  destruct (Hedge _ _ Hd) as (Hu & Hv & [[_ (n & Hk & Hn & Hna & Hnb)] | Hold]);
    simpl in Hu, Hv.
  - symmetry in Hk. apply key_cases in Hk as [[-> ->] | [-> ->]];
      split; apply Hkeep; auto.
  - apply Hends in Hold as [Hu' Hv']. split; apply Hkeep; auto.
Qed.

(** One component: its nodes but the last go, the last one has the
    labels of all, in the order of the component. *)
Lemma contract_component_spec :
  ∀ (comp : list Z) (G : Graph),
    NoDup comp → endpoints_are_nodes G →
    (∀ x, x ∈ comp → has_labels G x) →
    ∃ G',
      contract_component G comp = Return G'
      ∧ endpoints_are_nodes G'
      ∧ edges_reset_or_from G G'
      ∧ (∀ x, x ∉ comp → node G' !! x = node G !! x)
      ∧ (∀ x, x ∈ comp → last comp ≠ Some x → node G' !! x = None)
      ∧ (∀ r, last comp = Some r →
           ∃ d, node G' !! r = Some d
                ∧ d !! "labels"%string
                  = Some (PyList (List.concat (labels_of G <$> comp)))).
Proof.
  induction comp as [| a rest IH]; intros G Hnd Hends Hall.
  - exists G. split; [reflexivity |]. split; [exact Hends |].
    split; [apply edges_reset_or_from_refl |]. split; [auto |].
    split; [intros x Hx; inversion Hx | discriminate].
  - destruct rest as [| b rest].
    + exists G. split; [reflexivity |]. split; [exact Hends |].
      split; [apply edges_reset_or_from_refl |]. split; [auto |]. split.
      * intros x Hx Hlast. apply list_elem_of_singleton in Hx as ->.
        exfalso. apply Hlast. reflexivity.
      * intros r [= <-]. destruct (has_labels_of G a) as (d & Hd & Hl);
          [apply Hall; left |].
        exists d. split; [exact Hd |]. simpl. rewrite app_nil_r. exact Hl.
    + pose proof Hnd as Hnd0.
      apply NoDup_cons in Hnd as [Ha Hnd].
      assert (a ≠ b) as Hab by (intros ->; apply Ha; left).
      destruct (has_labels_of G a) as (da & Hda & Hla); [apply Hall; left |].
      destruct (has_labels_of G b) as (db & Hdb & Hlb); [apply Hall; right; left |].
      destruct (merge_nodes_spec G a b da db _ _ Hends Hab Hda Hla Hdb Hlb)
        as (G1 & Hmerge & Hnode1 & Hedge1).
      assert (endpoints_are_nodes G1) as Hends1.
      { eapply merge_nodes_endpoints; eauto. apply elem_of_dom; eauto. }
      assert (∀ x, x ≠ a → x ≠ b → node G1 !! x = node G !! x) as Hother.
      { intros x Hxa Hxb. rewrite Hnode1, lookup_delete_ne, lookup_insert_ne; auto. }
      assert (node G1 !! b
              = Some (<["labels"%string := PyList (labels_of G a ++ labels_of G b)]> db))
        as Hb1.
      { rewrite Hnode1, lookup_delete_ne, lookup_insert_eq; auto. }
      assert (node G1 !! a = None) as Ha1
        by (rewrite Hnode1; apply lookup_delete_eq).
      assert (labels_of G1 b = labels_of G a ++ labels_of G b) as Hlab1.
      { unfold labels_of at 1. rewrite Hb1. simpl. rewrite lookup_insert_eq.
        reflexivity. }
      apply NoDup_cons in Hnd as Hnd'. destruct Hnd' as [Hb Hnd'].
      destruct (IH G1 Hnd Hends1) as (G' & Hrun & Hends' & Hedges' & Hout & Hgone & Hlast).
      { intros x Hx. apply elem_of_cons in Hx as [-> | Hx].
        - eexists _, _. split; [exact Hb1 |]. apply lookup_insert_eq.
        - eapply has_labels_node; [| apply Hall; right; right; exact Hx].
          apply Hother; intros ->; [apply Ha; right; exact Hx | contradiction]. }
      exists G'. split; [| split; [exact Hends' | split; [| split; [| split]]]].
      * change (contract_component G (a :: b :: rest))
          with (rbind (merge_nodes G a b default_edge_attributes)
                      (λ G, contract_component G (b :: rest))).
        rewrite Hmerge. exact Hrun.
      * eapply edges_reset_or_from_trans; [| exact Hedges'].
        intros k d Hd. destruct (Hedge1 k d Hd) as (_ & _ & [[Hm _] | Hold]); auto.
      * intros x Hx. rewrite Hout.
        -- apply Hother; intros ->; apply Hx; [left | right; left].
        -- intros Hin. apply Hx. right. exact Hin.
      * intros x Hx Hl. apply elem_of_cons in Hx as [-> | Hx].
        -- rewrite Hout; [exact Ha1 | exact Ha].
        -- apply Hgone; [exact Hx |]. exact Hl.
      * intros r Hr. destruct (Hlast r Hr) as (d & Hd & Hl).
        exists d. split; [exact Hd |]. rewrite Hl. do 2 f_equal.
        simpl. rewrite Hlab1, <- app_assoc. do 3 f_equal.
        apply list_fmap_ext. intros i x Hx. apply labels_of_node.
        apply list_elem_of_lookup_2 in Hx.
        apply Hother; intros ->; [apply Ha; right; exact Hx | contradiction].
Qed.

(** All components. *)
Lemma contract_fold_spec :
  ∀ (components : list (list Z)) (G : Graph) (acc : list Z),
    endpoints_are_nodes G →
    (∀ comp, comp ∈ components →
       NoDup comp ∧ comp ≠ [] ∧ ∀ x, x ∈ comp → has_labels G x) →
    pairwise_disjoint components →
    ∃ G' reps,
      foldl contract_step (Return (G, acc)) components
      = Return (G', acc ++ reps)
      ∧ Forall2 (λ comp r, last comp = Some r) components reps
      ∧ endpoints_are_nodes G'
      ∧ edges_reset_or_from G G'
      ∧ (∀ x, (∀ comp, comp ∈ components → x ∉ comp) →
              node G' !! x = node G !! x)
      ∧ (∀ comp x, comp ∈ components → x ∈ comp → last comp ≠ Some x →
                   node G' !! x = None)
      ∧ (∀ comp r, comp ∈ components → last comp = Some r →
           ∃ d, node G' !! r = Some d
                ∧ d !! "labels"%string
                  = Some (PyList (List.concat (labels_of G <$> comp)))).
Proof.
  induction components as [| comp rest IH]; intros G acc Hends Hall Hdis.
  - exists G, []. rewrite app_nil_r. split; [reflexivity |].
    split; [constructor |]. split; [exact Hends |].
    split; [apply edges_reset_or_from_refl |]. split; [auto |].
    split; intros ? ? Hin; inversion Hin.
  - destruct (Hall comp) as (Hnd & Hne & Hl); [left |].
    destruct (contract_component_spec comp G Hnd Hends Hl)
      as (G1 & Hrun & Hends1 & Hedges1 & Hout1 & Hgone1 & Hlast1).
    assert (∃ n, last comp = Some n) as [n Hlastn].
    { destruct (last comp) as [n |] eqn:Hlastn; [eauto |].
      apply last_None in Hlastn. contradiction. }
    destruct Hdis as [Hd Hdis].
    assert (∀ comp' x, comp' ∈ rest → x ∈ comp' → node G1 !! x = node G !! x)
      as Hsame.
    { intros comp' x Hc' Hx. apply Hout1. intros Hxc. apply (Hd comp' x Hc' Hxc Hx). }
    destruct (IH G1 (acc ++ [n]) Hends1)
      as (G' & reps & Hfold & Hreps & Hends' & Hedges' & Hout & Hgone & Hlast).
    { intros comp' Hc'. destruct (Hall comp') as (Hnd' & Hne' & Hl'); [right; exact Hc' |].
      split; [exact Hnd' |]. split; [exact Hne' |].
      intros x Hx. eapply has_labels_node; [eapply Hsame; eauto | apply Hl', Hx]. }
    { exact Hdis. }
    exists G', (n :: reps).
    split; [| split; [| split; [exact Hends' | split; [| split; [| split]]]]].
    + assert (contract_step (Return (G, acc)) comp = Return (G1, acc ++ [n]))
        as Hstep.
      { unfold contract_step, mbind, result_bind. simpl. rewrite Hrun. simpl.
        unfold last_node. rewrite Hlastn. reflexivity. }
      change (foldl contract_step (Return (G, acc)) (comp :: rest))
        with (foldl contract_step (contract_step (Return (G, acc)) comp) rest).
      rewrite Hstep, Hfold, <- app_assoc. reflexivity.
    + constructor; [exact Hlastn | exact Hreps].
    + eapply edges_reset_or_from_trans; eauto.
    + intros x Hx. rewrite Hout.
      * apply Hout1, Hx. left.
      * intros comp' Hc'. apply Hx. right. exact Hc'.
    + intros comp' x Hc' Hx Hl'. apply elem_of_cons in Hc' as [-> | Hc'].
      * rewrite Hout; [apply Hgone1; [exact Hx | exact Hl'] |].
        intros comp'' Hc'' Hx'. apply (Hd comp'' x Hc'' Hx Hx').
      * eapply Hgone; eauto.
    + intros comp' r Hc' Hr. apply elem_of_cons in Hc' as [-> | Hc'].
      * rewrite Hlastn in Hr. injection Hr as <-.
        destruct (Hlast1 n Hlastn) as (d & Hd1 & Hl1).
        exists d. split; [| exact Hl1]. rewrite Hout; [exact Hd1 |].
        intros comp'' Hc'' Hx'.
        apply (Hd comp'' n Hc''); [| exact Hx'].
        apply last_Some_elem_of. exact Hlastn.
      * destruct (Hlast comp' r Hc' Hr) as (d & Hd' & Hl').
        exists d. split; [exact Hd' |]. rewrite Hl'. do 3 f_equal.
        apply list_fmap_ext. intros i x Hx. apply labels_of_node.
        eapply Hsame; [exact Hc' |]. eapply list_elem_of_lookup_2, Hx.
Qed.

Lemma pairwise_disjoint_same (components : list (list Z)) (c1 c2 : list Z) (x : Z) :
  pairwise_disjoint components →
  c1 ∈ components → c2 ∈ components → x ∈ c1 → x ∈ c2 → c1 = c2.
Proof.
  induction components as [| c rest IH]; intros Hdis H1 H2 Hx1 Hx2;
    [inversion H1 |].
  destruct Hdis as [Hd Hdis].
  apply elem_of_cons in H1 as [-> | H1]; apply elem_of_cons in H2 as [-> | H2].
  - reflexivity.
  - destruct (Hd c2 x H2 Hx1 Hx2).
  - destruct (Hd c1 x H1 Hx2 Hx1).
  - apply IH; assumption.
Qed.

Lemma Forall2_last_reps (components : list (list Z)) (reps : list Z) :
  Forall2 (λ comp r, last comp = Some r) components reps →
  ∀ x, x ∈ reps ↔ ∃ comp, comp ∈ components ∧ last comp = Some x.
Proof.
  induction 1 as [| comp r components reps Hr _ IH]; intros x.
  - split; [intros Hx; inversion Hx | intros (c & Hc & _); inversion Hc].
  - rewrite elem_of_cons, IH. split.
    + intros [-> | (c & Hc & Hl)]; [exists comp; split; [left | exact Hr] |].
      exists c. split; [right; exact Hc | exact Hl].
    + intros (c & Hc & Hl). apply elem_of_cons in Hc as [-> | Hc].
      * left. congruence.
      * right. eauto.
Qed.

Lemma concat_singletons (l : list Z) : List.concat ((λ x, [x]) <$> l) = l.
Proof. induction l as [| x l IH]; [reflexivity |]. simpl. f_equal. exact IH. Qed.

Section Contracted.
Variable G : Graph.
Hypothesis merged_everywhere :
  ∀ u v d, edge G !! (u, v) = Some d → is_Some (d !! "merged"%string).
Hypothesis edges_join_nodes : endpoints_are_nodes G.
Hypothesis labels_are_lists :
  ∀ x d v, node G !! x = Some d → d !! "labels"%string = Some v →
           ∃ ls, v = PyList ls.

(** What [contract_merged_nodes] leaves: a node per component, the
    last of its list, with the labels of the component; edges that join
    these nodes, each one made by the contraction or left from [G]. *)
Lemma contraction_spec :
  let G0 := __add_esential_node_attributes G in
  ∃ (cs : list (gset Z)) (reps : list Z) (G' : Graph),
    get_connected_components G = Return (elements <$> cs)
    ∧ (∀ c, c ∈ cs →
         ∃ v, known_node G v ∧ (∀ x, x ∈ c ↔ merged_connected G v x))
    ∧ (∀ v, known_node G v → ∃ c, c ∈ cs ∧ v ∈ c)
    ∧ pairwise_disjoint (elements <$> cs)
    ∧ Forall2 (λ comp r, last comp = Some r) (elements <$> cs) reps
    ∧ __contract_nodes G (elements <$> cs) = Return (G', reps)
    ∧ endpoints_are_nodes G'
    ∧ edges_reset_or_from G G'
    ∧ (∀ x, x ∈ dom (node G') ↔ x ∈ reps)
    ∧ (∀ comp r, comp ∈ elements <$> cs → last comp = Some r →
         ∃ d, node G' !! r = Some d
              ∧ d !! "labels"%string
                = Some (PyList (List.concat (labels_of G0 <$> comp)))).
Proof.
  intros G0.
  destruct (get_connected_components_spec G merged_everywhere)
    as (cs & Hrun & Hmem & Hcov & Hdis).
  assert (∀ comp x, comp ∈ elements <$> cs → x ∈ comp → x ∈ dom (node G))
    as Hnodes.
  { intros comp x Hcomp Hx.
    apply list_elem_of_fmap in Hcomp as (c & -> & Hc).
    apply elem_of_elements in Hx.
    destruct (Hmem c Hc) as (v & Hv & Hclass).
    eapply (merged_connected_node G edges_join_nodes);
      [apply (known_node_is_node G edges_join_nodes), Hv |].
    apply Hclass, Hx. }
  assert (endpoints_are_nodes G0) as Hends0.
  { intros u v d Hd. subst G0. simpl in Hd.
    rewrite essential_node_attributes_dom. eapply edges_join_nodes, Hd. }
  destruct (contract_fold_spec (elements <$> cs) G0 [] Hends0)
    as (G' & reps & Hfold & Hreps & Hends' & Hedges' & Hout & Hgone & Hlast).
  { intros comp Hcomp. split; [| split].
    - apply list_elem_of_fmap in Hcomp as (c & -> & Hc). apply NoDup_elements.
    - apply list_elem_of_fmap in Hcomp as (c & -> & Hc).
      destruct (Hmem c Hc) as (v & _ & Hclass).
      assert (v ∈ c) as Hvc by (apply Hclass; constructor).
      intros Hnil. apply elem_of_elements in Hvc. rewrite Hnil in Hvc.
      inversion Hvc.
    - intros x Hx. apply (essential_labels G labels_are_lists). eapply Hnodes; eauto. }
  { exact Hdis. }
  exists cs, reps, G'.
  split; [exact Hrun |]. split; [exact Hmem |]. split; [exact Hcov |].
  split; [exact Hdis |]. split; [exact Hreps |]. split.
  { unfold __contract_nodes. fold G0. exact Hfold. }
  split; [exact Hends' |]. split; [exact Hedges' |]. split; [| exact Hlast].
  intros x. rewrite (Forall2_last_reps _ _ Hreps). split.
  - intros Hx. apply elem_of_dom in Hx as [d Hd].
    destruct (decide (x ∈ dom (node G))) as [Hin | Hout'].
    + destruct (Hcov x) as (c & Hc & Hxc); [left; exact Hin |].
      exists (elements c).
      assert (elements c ∈ elements <$> cs) as Hcomp
        by (apply list_elem_of_fmap; eauto).
      split; [exact Hcomp |].
      destruct (decide (last (elements c) = Some x)) as [Hl | Hl]; [exact Hl |].
      rewrite (Hgone (elements c) x Hcomp) in Hd;
        [discriminate | apply elem_of_elements, Hxc | exact Hl].
    + exfalso. rewrite Hout in Hd.
      * apply Hout'. rewrite <- (essential_node_attributes_dom G).
        apply elem_of_dom. eauto.
      * intros comp Hcomp Hxc. apply Hout'. eapply Hnodes; eauto.
  - intros (comp & Hcomp & Hl). destruct (Hlast comp x Hcomp Hl) as (d & Hd & _).
    apply elem_of_dom. eauto.
Qed.

Lemma contract_merged_nodes_None (components : list (list Z)) (reps : list Z)
    (G' : Graph) :
  get_connected_components G = Return components →
  __contract_nodes G components = Return (G', reps) →
  contract_merged_nodes G None = Return (G', None).
Proof.
  intros Hrun Hcon. unfold contract_merged_nodes, mbind, result_bind.
  rewrite Hrun. simpl. rewrite Hcon. reflexivity.
Qed.

(** X19.  After [contract_merged_nodes] the nodes of the graph are the
    component nodes, the last node of each component that
    [get_connected_components] listed, and every edge still joins two
    nodes. *)
Theorem contraction_leaves_the_representatives :
  ∃ components representatives G',
    get_connected_components G = Return components
    ∧ Forall2 (λ comp r, last comp = Some r) components representatives
    ∧ contract_merged_nodes G None = Return (G', None)
    ∧ (∀ x, x ∈ dom (node G') ↔ x ∈ representatives)
    ∧ endpoints_are_nodes G'.
Proof.
  destruct contraction_spec
    as (cs & reps & G' & Hrun & _ & _ & _ & Hreps & Hcon & Hends & _ & Hdom & _).
  exists (elements <$> cs), reps, G'.
  split; [exact Hrun |]. split; [exact Hreps |].
  split; [eapply contract_merged_nodes_None; eauto |]. auto.
Qed.

(** X20.  On a graph whose nodes have no ['labels'] yet, or list
    themselves only, the node left for a component lists the nodes of
    the component under ['labels'], in the order of the component. *)
Theorem representative_lists_its_component :
  (∀ x d, node G !! x = Some d →
          d !! "labels"%string = None ∨ d !! "labels"%string = Some (PyList [x])) →
  ∃ components representatives G',
    get_connected_components G = Return components
    ∧ Forall2 (λ comp r, last comp = Some r) components representatives
    ∧ contract_merged_nodes G None = Return (G', None)
    ∧ ∀ comp r, (comp, r) ∈ zip components representatives →
        ∃ d, node G' !! r = Some d
             ∧ d !! "labels"%string = Some (PyList comp).
Proof.
  intros Hfresh.
  destruct contraction_spec
    as (cs & reps & G' & Hrun & Hmem & _ & _ & Hreps & Hcon & _ & _ & _ & Hlab).
  exists (elements <$> cs), reps, G'.
  split; [exact Hrun |]. split; [exact Hreps |].
  split; [eapply contract_merged_nodes_None; eauto |].
  intros comp r Hin.
  assert (comp ∈ elements <$> cs) as Hcomp by (eapply elem_of_zip_l, Hin).
  assert (last comp = Some r) as Hl.
  { clear -Hreps Hin. induction Hreps as [| c r' cs' rs' Hr _ IH]; [inversion Hin |].
    simpl in Hin. apply elem_of_cons in Hin as [[= -> ->] | Hin]; auto. }
  destruct (Hlab comp r Hcomp Hl) as (d & Hd & Hlabels).
  exists d. split; [exact Hd |]. rewrite Hlabels. do 2 f_equal.
  rewrite <- (concat_singletons comp) at 2. f_equal.
  apply list_fmap_ext. intros i x Hx. apply list_elem_of_lookup_2 in Hx.
  assert (x ∈ dom (node G)) as Hnode.
  { apply list_elem_of_fmap in Hcomp as (c & -> & Hc).
    apply elem_of_elements in Hx.
    destruct (Hmem c Hc) as (v & Hv & Hclass).
    eapply (merged_connected_node G edges_join_nodes);
      [apply (known_node_is_node G edges_join_nodes), Hv |].
    apply Hclass, Hx. }
  apply elem_of_dom in Hnode as [d0 Hd0].
  destruct (essential_node_attributes_labels G x d0 Hd0) as (d' & Hd' & Hl' & _).
  unfold labels_of. rewrite Hd'. simpl. rewrite Hl'.
  destruct (Hfresh x d0 Hd0) as [-> | ->]; reflexivity.
Qed.

(** X21.  A contraction leaves no merged edge, in a graph without
    self-loops: every edge of the result has a false ['merged'], and the
    components of the result are the singletons of its nodes. *)
Theorem contraction_leaves_no_merged_edge :
  (∀ u d, edge G !! (u, u) = Some d → False) →
  ∃ G',
    contract_merged_nodes G None = Return (G', None)
    ∧ (∀ k d, edge G' !! k = Some d →
              ∃ m, d !! "merged"%string = Some m ∧ truthy m = false)
    ∧ ∃ components,
        get_connected_components G' = Return components
        ∧ (∀ comp, comp ∈ components → ∃ x, comp = [x] ∧ x ∈ dom (node G'))
        ∧ (∀ x, x ∈ dom (node G') → [x] ∈ components).
Proof.
  intros Hloops.
  destruct contraction_spec
    as (cs & reps & G' & Hrun & Hmem & Hcov & Hdis & Hreps & Hcon & Hends & Hedges
        & Hdom & _).
  exists G'. split; [eapply contract_merged_nodes_None; eauto |].
  assert (∀ k d, edge G' !! k = Some d →
                 ∃ m, d !! "merged"%string = Some m ∧ truthy m = false) as Hnone.
  { intros [u v] d Hd. destruct (Hedges _ _ Hd) as [Hm | Hold].
    - exists (PyInt 0). split; [exact Hm | reflexivity].
    - destruct (merged_everywhere u v d Hold) as [m Hm].
      exists m. split; [exact Hm |].
      destruct (truthy m) eqn:Ht; [exfalso | reflexivity].
      destruct (Hends u v d Hd) as [Hu Hv].
      apply Hdom, (Forall2_last_reps _ _ Hreps) in Hu as (cu & Hcu & Hlu).
      apply Hdom, (Forall2_last_reps _ _ Hreps) in Hv as (cv & Hcv & Hlv).
      assert (merged_adjacent G u v) as Hadj by (exists d, m; auto).
      assert (u ∈ cu) as Huc by (apply last_Some_elem_of, Hlu).
      assert (v ∈ cv) as Hvc by (apply last_Some_elem_of, Hlv).
      assert (v ∈ cu) as Hvu.
      { pose proof Hcu as Hcu'.
        apply list_elem_of_fmap in Hcu' as (c & -> & Hc).
        destruct (Hmem c Hc) as (w & _ & Hclass).
        apply elem_of_elements, Hclass. apply elem_of_elements, Hclass in Huc.
        eapply rtc_r; [exact Huc | exact Hadj]. }
      assert (cu = cv) as ->
        by (eapply pairwise_disjoint_same; [exact Hdis | | | exact Hvu | exact Hvc];
            assumption).
      assert (u = v) as -> by congruence.
      eapply Hloops, Hold. }
  split; [exact Hnone |].
  apply unmerged_graph_components, Hnone.
Qed.

(** X22.  The array relabelled by [contract_merged_nodes] fits the
    contracted graph: a voxel that carried a node of the graph carries
    a node of the contracted graph. *)
Theorem contracted_fragments_match_the_graph (array : nd Z) :
  elems array ≠ [] →
  (∀ l, l ∈ elems array → 0 ≤ l) →
  (∀ x, x ∈ dom (node G) → 0 ≤ x) →
  ∃ G' array',
    contract_merged_nodes G (Some array) = Return (G', Some array')
    ∧ ∀ p l, at_index p array = Some l → l ∈ dom (node G) →
        ∃ r, at_index p array' = Some r ∧ r ∈ dom (node G').
Proof.
  intros Hne Hpos Hnodes_pos.
  destruct contraction_spec
    as (cs & reps & G' & Hrun & Hmem & Hcov & Hdis & Hreps & Hcon & _ & _ & Hdom & _).
  assert (∀ comp x, comp ∈ elements <$> cs → x ∈ comp → x ∈ dom (node G))
    as Hnodes.
  { intros comp x Hcomp Hx.
    apply list_elem_of_fmap in Hcomp as (c & -> & Hc).
    apply elem_of_elements in Hx.
    destruct (Hmem c Hc) as (v & Hv & Hclass).
    eapply (merged_connected_node G edges_join_nodes);
      [apply (known_node_is_node G edges_join_nodes), Hv |].
    apply Hclass, Hx. }
  destruct (relabel_spec array (elements <$> cs) reps Hne Hpos)
    as (array' & Hrel & Hspec).
  { intros comp c Hcomp Hc. apply Hnodes_pos. eapply Hnodes; eauto. }
  { exact Hdis. }
  { eapply Forall2_length, Hreps. }
  exists G', array'. split.
  - unfold contract_merged_nodes, mbind, result_bind. rewrite Hrun. simpl.
    rewrite Hcon. simpl. rewrite Hrel. reflexivity.
  - intros p l Hp Hl. destruct (Hspec p l Hp) as [Hhit _].
    destruct (Hcov l) as (c & Hc & Hlc); [left; exact Hl |].
    assert (elements c ∈ elements <$> cs) as Hin
      by (apply list_elem_of_fmap; eauto).
    destruct (zip_partner _ _ _ _ Hreps Hin) as [r Hr].
    exists r. split.
    + eapply Hhit; [exact Hr | apply elem_of_elements, Hlc].
    + apply Hdom. eapply elem_of_zip_r, Hr.
Qed.

End Contracted.

Lemma relabel_is_map (array array' : nd Z) (components : list (list Z))
    (component_labels : list Z) :
  __relabel array components component_labels = Return array' →
  ∃ f : Z → Z, array' = nd_map f array.
Proof.
  unfold __relabel. intros H.
  inv_rbind H as top Htop. inv_rbind H as vm Hvm. inv_rbind H as ys Hys.
  injection H as <-. eauto.
Qed.

Lemma zip_same_component (components : list (list Z)) :
  ∀ (labels : list Z) (comp : list Z) (r r' l : Z),
    pairwise_disjoint components →
    (comp, r) ∈ zip components labels → (comp, r') ∈ zip components labels →
    l ∈ comp → r = r'.
Proof.
  induction components as [| c rest IH]; intros [| x labels] comp r r' l Hdis H1 H2 Hl;
    simpl in H1, H2; try (inversion H1; fail).
  destruct Hdis as [Hd Hdis].
  apply elem_of_cons in H1 as [E1 | H1];
    apply elem_of_cons in H2 as [E2 | H2]; simplify_eq.
  - reflexivity.
  - exfalso. apply elem_of_zip_l in H2. apply (Hd _ l H2 Hl Hl).
  - exfalso. apply elem_of_zip_l in H1. apply (Hd _ l H1 Hl Hl).
  - eapply IH; eauto.
Qed.

Lemma zip_partner_length {A B} (l1 : list A) (l2 : list B) (x : A) :
  length l1 = length l2 → x ∈ l1 → ∃ y, (x, y) ∈ zip l1 l2.
Proof.
  revert l2. induction l1 as [| a l1 IH]; intros [| b l2] Hlen Hx;
    simpl in Hlen; try lia; [inversion Hx |].
  apply elem_of_cons in Hx as [-> | Hx].
  - exists b. left.
  - destruct (IH l2 ltac:(lia) Hx) as [y Hy]. exists y. right. exact Hy.
Qed.

(** X23.  [__relabel] is idempotent when each component label is a
    node of its component, as [component[-1]] is: relabelling the result
    with the same lists changes no voxel. *)
Theorem relabelling_again_changes_nothing (array array' : nd Z)
    (components : list (list Z)) (component_labels : list Z) :
  elems array ≠ [] →
  (∀ l, l ∈ elems array → 0 ≤ l) →
  (∀ comp c, comp ∈ components → c ∈ comp → 0 ≤ c) →
  pairwise_disjoint components →
  length components = length component_labels →
  (∀ comp r, (comp, r) ∈ zip components component_labels → r ∈ comp) →
  __relabel array components component_labels = Return array' →
  ∃ array'',
    __relabel array' components component_labels = Return array''
    ∧ ∀ p, at_index p array'' = at_index p array'.
Proof.
  intros Hne Hpos Hcpos Hdis Hlen Hrep Hrun.
  destruct (relabel_spec array components component_labels Hne Hpos Hcpos Hdis Hlen)
    as (a1 & Hrun1 & Hspec1).
  rewrite Hrun in Hrun1. injection Hrun1 as <-.
  destruct (relabel_is_map _ _ _ _ Hrun) as [f Hf].
  (* every value of the relabelled array is fixed by a second pass *)
  assert (∀ l, l ∈ elems array' →
            0 ≤ l ∧ ∀ comp r, (comp, r) ∈ zip components component_labels →
                              l ∈ comp → r = l) as Hfixed.
  { intros l Hl. rewrite Hf in Hl.
    apply elem_of_nd_map in Hl as (l0 & -> & Hl0).
    assert (∃ p, at_index p array = Some l0) as [p Hp].
    { clear -Hl0. revert l0 Hl0.
      induction array as [x | rows IH] using nd_induction; intros l0 Hl0.
      - apply list_elem_of_singleton in Hl0 as ->. exists []. reflexivity.
      - apply elems_Node in Hl0 as (row & Hrow & Hl0).
        rewrite Forall_forall in IH. destruct (IH row Hrow l0 Hl0) as [p Hp].
        apply list_elem_of_lookup in Hrow as [i Hi].
        exists (i :: p). simpl. rewrite Hi. exact Hp. }
    destruct (Hspec1 p l0 Hp) as [Hhit Hmiss].
    assert (at_index p array' = Some (f l0)) as Hp'
      by (rewrite Hf, at_index_nd_map, Hp; reflexivity).
    destruct (decide (Exists (λ comp, l0 ∈ comp) components)) as [Hex | Hno].
    - apply Exists_exists in Hex as (comp0 & Hc0 & Hl0c).
      destruct (zip_partner_length components component_labels comp0 Hlen Hc0)
        as [r0 Hr0].
      rewrite (Hhit comp0 r0 Hr0 Hl0c) in Hp'. injection Hp' as <-.
      pose proof (Hrep comp0 r0 Hr0) as Hr0c.
      split; [eapply Hcpos; eauto |].
      intros comp r Hin Hrc.
      assert (comp = comp0) as ->.
      { eapply pairwise_disjoint_same; [exact Hdis | | | exact Hrc | exact Hr0c].
        - eapply elem_of_zip_l, Hin.
        - exact Hc0. }
      eapply zip_same_component; eauto.
    - rewrite Hmiss in Hp'.
      + injection Hp' as <-. split; [apply Hpos, Hl0 |].
        intros comp r Hin Hlc. exfalso. apply Hno, Exists_exists.
        exists comp. split; [eapply elem_of_zip_l, Hin | exact Hlc].
      + intros comp Hcomp Hlc. apply Hno, Exists_exists. eauto. }
  destruct (relabel_spec array' components component_labels)
    as (a2 & Hrun2 & Hspec2); auto.
  { rewrite Hf, elems_nd_map. intros Hnil. apply fmap_nil_inv in Hnil. auto. }
  { intros l Hl. apply Hfixed, Hl. }
  exists a2. split; [exact Hrun2 |].
  destruct (relabel_is_map _ _ _ _ Hrun2) as [g Hg].
  intros p. destruct (at_index p array') as [l |] eqn:Hp.
  - destruct (Hspec2 p l Hp) as [Hhit Hmiss].
    pose proof (at_index_elems _ _ _ Hp) as Hl.
    destruct (decide (Exists (λ comp, l ∈ comp) components)) as [Hex | Hno].
    + apply Exists_exists in Hex as (comp0 & Hc0 & Hlc).
      destruct (zip_partner_length components component_labels comp0 Hlen Hc0)
        as [r0 Hr0].
      rewrite (Hhit comp0 r0 Hr0 Hlc). f_equal.
      eapply (proj2 (Hfixed l Hl)); eauto.
    + apply Hmiss. intros comp Hcomp Hlc. apply Hno, Exists_exists. eauto.
  - rewrite Hg, at_index_nd_map, Hp. reflexivity.
Qed.

End ContractedGraphFacts.

(** ** [label_merged_edges] *)

Module LabellingFacts.
Import Networkx Skimage Rag PyFacts NpFacts NetworkxFacts RagFacts.
Import AttributeFacts.

Lemma foldl_Raise {A B} (f : result A → B → result A) (e : exn) (l : list B) :
  (∀ e x, f (Raise e) x = Raise e) → foldl f (Raise e) l = Raise e.
Proof.
  intros Hf. induction l as [| x l IH]; [reflexivity |].
  simpl. rewrite Hf. exact IH.
Qed.

Lemma set_merged_node_Raise (m : Z) (e : exn) (x : Z) :
  set_merged_node m (Raise e) x = Raise e.
Proof. reflexivity. Qed.

Lemma label_nodes_of_Raise (e : exn) (x : Z * attrs) :
  label_nodes_of (Raise e) x = Raise e.
Proof. destruct x. reflexivity. Qed.

Lemma mark_merged_Raise (G : Graph) (e : exn) (x : Z * Z * attrs) :
  mark_merged G (Raise e) x = Raise e.
Proof. destruct x as [[u v] d]. reflexivity. Qed.

Lemma relabelled_refl (G : Graph) : relabelled G G.
Proof. split; [reflexivity |]. split; [reflexivity |]. eauto. Qed.

Lemma set_merged_node_relabelled (G Gc Gc' : Graph) (m n : Z) :
  relabelled G Gc →
  set_merged_node m (Return Gc) n = Return Gc' →
  relabelled G Gc'
  ∧ (∃ d, node Gc !! n = Some d
          ∧ node Gc' = <[n := <["merged_node"%string := PyInt m]> d]> (node Gc)).
Proof.
  intros (He & Hdom & Hatt) Hstep.
  unfold set_merged_node, mbind, result_bind in Hstep. simpl in Hstep.
  destruct (node Gc !! n) as [d |] eqn:Hn; [| discriminate].
  injection Hstep as <-. simpl. split; [| eauto].
  split; [exact He |]. split.
  - simpl. rewrite dom_insert_L, <- Hdom.
    assert (n ∈ dom (node Gc)) by (apply elem_of_dom; eauto). set_solver.
  - intros x d0 Hx. destruct (Hatt x d0 Hx) as (d' & Hd' & Hk).
    simpl. destruct (decide (n = x)) as [-> | Hne].
    + rewrite lookup_insert_eq. eexists. split; [reflexivity |].
      intros k Hkne. rewrite lookup_insert_ne by auto.
      rewrite Hn in Hd'. injection Hd' as ->. apply Hk, Hkne.
    + rewrite lookup_insert_ne by auto. eauto.
Qed.

Lemma set_merged_nodes_relabelled (G : Graph) (m : Z) (ls : list Z) :
  ∀ Gc Gc',
    relabelled G Gc →
    foldl (set_merged_node m) (Return Gc) ls = Return Gc' →
    relabelled G Gc'.
Proof.
  induction ls as [| n ls IH]; intros Gc Gc' Hrel Hrun; cbn [foldl] in Hrun.
  - injection Hrun as <-. exact Hrel.
  - destruct (set_merged_node m (Return Gc) n) as [G1 | e] eqn:Hstep.
    + eapply IH; [| exact Hrun]. eapply set_merged_node_relabelled; eauto.
    + rewrite foldl_Raise in Hrun by apply set_merged_node_Raise. discriminate.
Qed.

Lemma label_nodes_relabelled (G : Graph) (entries : list (Z * attrs)) :
  ∀ Gc Gc',
    relabelled G Gc →
    foldl label_nodes_of (Return Gc) entries = Return Gc' →
    relabelled G Gc'.
Proof.
  induction entries as [| [m data] entries IH]; intros Gc Gc' Hrel Hrun;
    cbn [foldl] in Hrun.
  - injection Hrun as <-. exact Hrel.
  - unfold label_nodes_of at 2 in Hrun. unfold getattr, mbind, result_bind in Hrun.
    cbn [rbind] in Hrun.
    destruct (data !! "labels"%string) as [[| | ls] |]; cbn [of_option rbind] in Hrun;
      try (rewrite foldl_Raise in Hrun by apply label_nodes_of_Raise; discriminate).
    destruct (foldl (set_merged_node m) (Return Gc) ls) as [G1 | e] eqn:Hinner.
    + eapply IH; [| exact Hrun]. eapply set_merged_nodes_relabelled; eauto.
    + rewrite foldl_Raise in Hrun by apply label_nodes_of_Raise. discriminate.
Qed.

(** The edges after the second loop: every edge is as it was, or has
    ['merged'] set to 1. *)
Lemma mark_merged_frame (G1 : Graph) (es : list (Z * Z * attrs)) (E0 : gmap (Z * Z) attrs) :
  (∀ u v d, (u, v, d) ∈ es → E0 !! (u, v) = Some d) →
  ∀ E E',
    (∀ k, E !! k = E0 !! k
          ∨ ∃ d, E0 !! k = Some d ∧ E !! k = Some (<["merged"%string := PyInt 1]> d)) →
    foldl (mark_merged G1) (Return E) es = Return E' →
    ∀ k, E' !! k = E0 !! k
         ∨ ∃ d, E0 !! k = Some d ∧ E' !! k = Some (<["merged"%string := PyInt 1]> d).
Proof.
  induction es as [| [[u v] d] es IH]; intros Hes E E' Hinv Hrun;
    cbn [foldl] in Hrun.
  - injection Hrun as <-. exact Hinv.
  - destruct (mark_merged G1 (Return E) (u, v, d)) as [E1 | e] eqn:Hstep.
    + eapply (IH ltac:(intros; apply Hes; right; assumption) E1 E'); [| exact Hrun].
      unfold mark_merged, mbind, result_bind in Hstep. simpl in Hstep.
      destruct (node G1 !! u) as [du |]; [| discriminate]. simpl in Hstep.
      destruct (getattr du "merged_node") as [mu |]; [| discriminate].
      simpl in Hstep.
      destruct (node G1 !! v) as [dv |]; [| discriminate]. simpl in Hstep.
      destruct (getattr dv "merged_node") as [mv |]; [| discriminate].
      simpl in Hstep.
      destruct (py_eq mu mv); injection Hstep as <-; [| exact Hinv].
      intros k. destruct (decide (k = (u, v))) as [-> | Hne].
      * right. exists d. split; [apply Hes; left |]. apply lookup_insert_eq.
      * rewrite lookup_insert_ne by auto. apply Hinv.
    + rewrite foldl_Raise in Hrun by apply mark_merged_Raise. discriminate.
Qed.

(** The edges after [label_merged_edges]. *)
Lemma labelling_edges (G merged_rag G' : Graph) :
  label_merged_edges G merged_rag = Return G' →
  ∀ k, edge G' !! k = edge G !! k
       ∨ ∃ d, edge G !! k = Some d
              ∧ edge G' !! k = Some (<["merged"%string := PyInt 1]> d).
Proof.
  unfold label_merged_edges. intros Hrun.
  inv_rbind Hrun as G1 Hnodes. inv_rbind Hrun as edges Hedges.
  injection Hrun as <-. simpl.
  destruct (label_nodes_relabelled G _ _ _ (relabelled_refl G) Hnodes)
    as (He & _).
  pose proof (mark_merged_frame G1 (edges_iter G1) (edge G1)
                ltac:(intros u v d Hin; apply elem_of_edges_iter, Hin)
                (edge G1) edges ltac:(intros k; left; reflexivity) Hedges)
    as Hframe.
  rewrite He in Hframe. exact Hframe.
Qed.

Lemma labelling_edges_dom (G merged_rag G' : Graph) :
  label_merged_edges G merged_rag = Return G' →
  dom (edge G') = dom (edge G).
Proof.
  intros Hrun. apply set_eq. intros k. rewrite !elem_of_dom.
  destruct (labelling_edges G merged_rag G' Hrun k) as [Hk | (d & Hd & Hk)];
    rewrite Hk.
  - reflexivity.
  - rewrite Hd. split; eauto.
Qed.

(** X24.  [label_merged_edges] changes marks only: the graph has the
    same nodes and edges, a node differs in ['merged_node'] at most, and
    an edge is as before or has ['merged'] set to 1. *)
Theorem labelling_only_sets_marks (G merged_rag G' : Graph) :
  label_merged_edges G merged_rag = Return G' →
  dom (node G') = dom (node G)
  ∧ (∀ x d, node G !! x = Some d →
       ∃ d', node G' !! x = Some d'
             ∧ ∀ k, k ≠ "merged_node"%string → d' !! k = d !! k)
  ∧ dom (edge G') = dom (edge G)
  ∧ (∀ e d, edge G !! e = Some d →
       edge G' !! e = Some d
       ∨ edge G' !! e = Some (<["merged"%string := PyInt 1]> d)).
Proof.
  intros Hrun.
  pose proof (labelling_edges G merged_rag G' Hrun) as Hframe.
  pose proof (labelling_edges_dom G merged_rag G' Hrun) as Hedom.
  unfold label_merged_edges in Hrun.
  inv_rbind Hrun as G1 Hnodes. inv_rbind Hrun as edges Hedges.
  injection Hrun as <-. simpl in *.
  destruct (label_nodes_relabelled G _ _ _ (relabelled_refl G) Hnodes)
    as (_ & Hdom & Hatt).
  split; [exact Hdom |]. split; [exact Hatt |]. split; [exact Hedom |].
  intros e d Hd. destruct (Hframe e) as [Hk | (d' & Hd' & Hk)].
  - left. congruence.
  - right. rewrite Hk. congruence.
Qed.

Lemma py_eq_int (a b : Z) : py_eq (PyInt a) (PyInt b) = bool_decide (a = b).
Proof.
  unfold py_eq. simpl. rewrite Z.min_id. simpl. rewrite !Z.mul_1_r.
  destruct (Z.eqb_spec a b); [rewrite bool_decide_true | rewrite bool_decide_false];
    auto.
Qed.

Section Labelling.
Variables (G merged_rag : Graph).

Hypothesis labels_are_nodes :
  ∀ m data, node merged_rag !! m = Some data →
    ∃ ls, data !! "labels"%string = Some (PyList ls)
          ∧ ∀ x, x ∈ ls → x ∈ dom (node G).

Lemma set_merged_nodes_run (rep : Z → Z) (m : Z) (ls : list Z) :
  (∀ x, x ∈ ls → x ∈ dom (node G) ∧ (rep x = m)) →
  ∀ (P : Z → Prop) Gc,
    relabelled G Gc → marked rep P Gc → untouched G P Gc →
    ∃ Gc', foldl (set_merged_node m) (Return Gc) ls = Return Gc'
           ∧ relabelled G Gc'
           ∧ marked rep (λ x, P x ∨ x ∈ ls) Gc'
           ∧ untouched G (λ x, P x ∨ x ∈ ls) Gc'.
Proof.
  induction ls as [| n ls IH]; intros Hls P Gc Hrel Hmarked Hunt.
  - exists Gc. split; [reflexivity |]. split; [exact Hrel |]. split.
    + intros x [Hx | Hx]; [auto | inversion Hx].
    + intros x Hx. apply Hunt. intros HP. apply Hx. left. exact HP.
  - destruct (Hls n) as [Hn Hrep]; [left |].
    assert (∃ d, node Gc !! n = Some d) as [d Hd].
    { apply elem_of_dom. destruct Hrel as (_ & Hdom & _). rewrite Hdom. exact Hn. }
    set (G1 := {| node := <[n := <["merged_node"%string := PyInt m]> d]> (node Gc);
                  edge := edge Gc |}).
    assert (set_merged_node m (Return Gc) n = Return G1) as Hstep.
    { unfold set_merged_node, mbind, result_bind. simpl. rewrite Hd. reflexivity. }
    assert (∀ x, x ∈ ls → x ∈ dom (node G) ∧ rep x = m) as Hls'
      by (intros x Hx; apply Hls; right; exact Hx).
    destruct (IH Hls' (λ x, P x ∨ x = n) G1) as (Gc' & Hrun & Hrel' & Hmarked' & Hunt').
    { eapply set_merged_node_relabelled; eauto. }
    { intros x [Hx | ->].
      - destruct (Hmarked x Hx) as (dx & Hdx & Hmx).
        subst G1. simpl. destruct (decide (n = x)) as [-> | Hne].
        + rewrite lookup_insert_eq. eexists. split; [reflexivity |].
          rewrite lookup_insert_eq, Hrep. reflexivity.
        + rewrite lookup_insert_ne by auto. eauto.
      - subst G1. simpl. rewrite lookup_insert_eq. eexists. split; [reflexivity |].
        rewrite lookup_insert_eq, Hrep. reflexivity. }
    { intros x Hx. subst G1. simpl. rewrite lookup_insert_ne.
      - apply Hunt. intros HP. apply Hx. left. exact HP.
      - intros ->. apply Hx. right. reflexivity. }
    exists Gc'. split; [| split; [exact Hrel' | split]].
    + cbn [foldl]. rewrite Hstep. exact Hrun.
    + intros x [Hx | Hx]; apply Hmarked'.
      * left. left. exact Hx.
      * apply elem_of_cons in Hx as [-> | Hx]; [left; right; reflexivity |].
        right. exact Hx.
    + intros x Hx. apply Hunt'. intros [[HP | ->] | Hin]; apply Hx.
      * left. exact HP.
      * right. left.
      * right. right. exact Hin.
Qed.

Lemma label_nodes_run (rep : Z → Z) (entries : list (Z * attrs)) :
  (∀ m data, (m, data) ∈ entries → node merged_rag !! m = Some data) →
  (∀ m data ls x, node merged_rag !! m = Some data →
     data !! "labels"%string = Some (PyList ls) → x ∈ ls → rep x = m) →
  ∀ (P : Z → Prop) Gc,
    relabelled G Gc → marked rep P Gc → untouched G P Gc →
    ∃ Gc', foldl label_nodes_of (Return Gc) entries = Return Gc'
           ∧ relabelled G Gc'
           ∧ marked rep (λ x, P x ∨ listed_in entries x) Gc'
           ∧ untouched G (λ x, P x ∨ listed_in entries x) Gc'.
Proof.
  intros Hentries Hrep.
  induction entries as [| [m data] entries IH]; intros P Gc Hrel Hmarked Hunt.
  - exists Gc. split; [reflexivity |]. split; [exact Hrel |]. split.
    + intros x [Hx | (? & ? & ? & Hin & _)]; [auto | inversion Hin].
    + intros x Hx. apply Hunt. intros HP. apply Hx. left. exact HP.
  - assert (node merged_rag !! m = Some data) as Hm by (apply Hentries; left).
    destruct (labels_are_nodes m data Hm) as (ls & Hls & Hnodes).
    destruct (set_merged_nodes_run rep m ls) with (P := P) (Gc := Gc)
      as (G1 & Hinner & Hrel1 & Hmarked1 & Hunt1); auto.
    { intros x Hx. split; [apply Hnodes, Hx | eapply Hrep; eauto]. }
    assert (∀ m data, (m, data) ∈ entries → node merged_rag !! m = Some data)
      as Hentries' by (intros m' data' Hin; apply Hentries; right; exact Hin).
    destruct (IH Hentries' (λ x, P x ∨ x ∈ ls) G1 Hrel1 Hmarked1 Hunt1)
      as (Gc' & Hrun & Hrel' & Hmarked' & Hunt').
    assert (∀ x, (P x ∨ listed_in ((m, data) :: entries) x)
                 ↔ ((P x ∨ x ∈ ls) ∨ listed_in entries x)) as Hiff.
    { intros x. split.
      - intros [HP | (m' & data' & ls' & Hin & Hl' & Hx)]; [left; left; exact HP |].
        apply elem_of_cons in Hin as [[= -> ->] | Hin].
        + left. right. congruence.
        + right. exists m', data', ls'. auto.
      - intros [[HP | Hx] | (m' & data' & ls' & Hin & Hl' & Hx)].
        + left. exact HP.
        + right. exists m, data, ls. split; [left | auto].
        + right. exists m', data', ls'. split; [right; exact Hin | auto]. }
    exists Gc'. split; [| split; [exact Hrel' | split]].
    + cbn [foldl]. unfold label_nodes_of at 2. unfold getattr, mbind, result_bind.
      rewrite Hls. cbn [of_option rbind]. rewrite Hinner. exact Hrun.
    + intros x Hx. apply Hmarked', Hiff, Hx.
    + intros x Hx. apply Hunt'. intros Hin. apply Hx, Hiff, Hin.
Qed.

Lemma listed_in_all (x : Z) :
  listed_in (map_to_list (node merged_rag)) x ↔ listed merged_rag x.
Proof.
  unfold listed_in, listed. split; intros (m & data & ls & Hin & Hrest);
    exists m, data, ls; (split; [| exact Hrest]).
  - apply elem_of_map_to_list, Hin.
  - apply elem_of_map_to_list, Hin.
Qed.

(** The second loop, when both ends of every edge carry their merged
    node. *)
Lemma mark_merged_run (rep : Z → Z) (G1 : Graph) (es : list (Z * Z * attrs)) :
  (∀ u v d, (u, v, d) ∈ es →
     (∃ du, node G1 !! u = Some du
            ∧ du !! "merged_node"%string = Some (PyInt (rep u)))
     ∧ (∃ dv, node G1 !! v = Some dv
              ∧ dv !! "merged_node"%string = Some (PyInt (rep v)))) →
  NoDup ((λ '(u, v, _), (u, v)) <$> es) →
  ∀ E,
    ∃ E', foldl (mark_merged G1) (Return E) es = Return E'
      ∧ (∀ u v d, (u, v, d) ∈ es →
           E' !! (u, v) = if decide (rep u = rep v)
                          then Some (<["merged"%string := PyInt 1]> d)
                          else E !! (u, v))
      ∧ (∀ k, k ∉ (λ '(u, v, _), (u, v)) <$> es → E' !! k = E !! k).
Proof.
  induction es as [| [[u v] d] es IH]; intros Hes Hnd E.
  - exists E. split; [reflexivity |]. split; [| reflexivity].
    intros ? ? ? Hin. inversion Hin.
  - rewrite fmap_cons in Hnd. apply NoDup_cons in Hnd as [Hfresh Hnd].
    destruct (Hes u v d) as ((du & Hdu & Hmu) & (dv & Hdv & Hmv)); [left |].
    set (E1 := if decide (rep u = rep v)
               then <[(u, v) := <["merged"%string := PyInt 1]> d]> E else E).
    assert (mark_merged G1 (Return E) (u, v, d) = Return E1) as Hstep.
    { unfold mark_merged, mbind, result_bind, getattr. cbn [rbind].
      rewrite Hdu. cbn [of_option rbind]. rewrite Hmu. cbn [of_option rbind].
      rewrite Hdv. cbn [of_option rbind]. rewrite Hmv. cbn [of_option rbind].
      rewrite py_eq_int. subst E1.
      destruct (decide (rep u = rep v));
        [rewrite bool_decide_true | rewrite bool_decide_false]; auto. }
    assert (∀ u v d, (u, v, d) ∈ es →
              (∃ du, node G1 !! u = Some du
                     ∧ du !! "merged_node"%string = Some (PyInt (rep u)))
              ∧ (∃ dv, node G1 !! v = Some dv
                       ∧ dv !! "merged_node"%string = Some (PyInt (rep v))))
      as Hes' by (intros u' v' d' Hin; apply (Hes u' v' d'); right; exact Hin).
    destruct (IH Hes' Hnd E1) as (E' & Hrun & Hin' & Hout').
    exists E'. split; [| split].
    + cbn [foldl]. rewrite Hstep. exact Hrun.
    + intros u' v' d' Hin. apply elem_of_cons in Hin as [[= -> -> ->] | Hin].
      * rewrite Hout' by exact Hfresh. subst E1.
        destruct (decide (rep u = rep v)); [apply lookup_insert_eq | reflexivity].
      * rewrite (Hin' _ _ _ Hin).
        destruct (decide (rep u' = rep v')); [reflexivity |].
        subst E1. destruct (decide (rep u = rep v)); [| reflexivity].
        apply lookup_insert_ne. intros [= -> ->]. apply Hfresh.
        apply list_elem_of_fmap. exists (u', v', d'). auto.
    + intros k Hk. rewrite fmap_cons in Hk.
      apply not_elem_of_cons in Hk as [Hne Hk].
      rewrite (Hout' k Hk). subst E1.
      destruct (decide (rep u = rep v)); [| reflexivity].
      apply lookup_insert_ne. auto.
Qed.

Lemma edges_iter_keys (G1 : Graph) :
  NoDup ((λ '(u, v, _), (u, v)) <$> edges_iter G1).
Proof.
  unfold edges_iter. rewrite <- list_fmap_compose.
  erewrite list_fmap_ext; [apply (NoDup_fst_map_to_list (edge G1)) |].
  intros i [[u v] d] _. reflexivity.
Qed.

Variable rep : Z → Z.
Hypothesis rep_of_label :
  ∀ m data ls x, node merged_rag !! m = Some data →
    data !! "labels"%string = Some (PyList ls) → x ∈ ls → rep x = m.
Hypothesis endpoints_listed :
  ∀ u v d, edge G !! (u, v) = Some d →
           listed merged_rag u ∧ listed merged_rag v.

Lemma label_merged_edges_spec :
  ∃ G',
    label_merged_edges G merged_rag = Return G'
    ∧ dom (node G') = dom (node G)
    ∧ ∀ u v d, edge G !! (u, v) = Some d →
        edge G' !! (u, v)
        = Some (if decide (rep u = rep v)
                then <["merged"%string := PyInt 1]> d else d).
Proof.
  destruct (label_nodes_run rep (map_to_list (node merged_rag)))
    with (P := λ _ : Z, False) (Gc := G)
    as (G1 & Hnodes & (He & Hdom & _) & Hmarked & _).
  { intros m data Hin. apply elem_of_map_to_list, Hin. }
  { exact rep_of_label. }
  { apply relabelled_refl. }
  { intros x []. }
  { intros x _. reflexivity. }
  destruct (mark_merged_run rep G1 (edges_iter G1)) with (E := edge G1)
    as (E' & Hedges & Hin & _).
  { intros u v d Hd. apply elem_of_edges_iter in Hd. rewrite He in Hd.
    destruct (endpoints_listed u v d Hd) as [Hu Hv].
    split; apply Hmarked; right; apply listed_in_all; assumption. }
  { apply edges_iter_keys. }
  eexists. split; [| split].
  - unfold label_merged_edges, mbind, result_bind. rewrite Hnodes. simpl.
    rewrite Hedges. reflexivity.
  - exact Hdom.
  - intros u v d Hd. simpl. rewrite (Hin u v d).
    + rewrite He, Hd. destruct (decide (rep u = rep v)); reflexivity.
    + apply elem_of_edges_iter. rewrite He. exact Hd.
Qed.

(** X25.  When the labels of [merged_rag] are nodes of the graph, each
    node [x] listed by the merged node [rep x] only, and every endpoint
    of an edge is listed, [label_merged_edges] returns and sets
    ['merged'] to 1 on exactly the edges whose endpoints have the same
    merged node; the other edges are as before. *)
Theorem labelling_marks_the_edges_inside_a_merged_node :
  ∃ G',
    label_merged_edges G merged_rag = Return G'
    ∧ ∀ u v d, edge G !! (u, v) = Some d →
        edge G' !! (u, v)
        = Some (if decide (rep u = rep v)
                then <["merged"%string := PyInt 1]> d else d).
Proof.
  destruct label_merged_edges_spec as (G' & Hrun & _ & Hedges). eauto.
Qed.

(** X26.  Under the same conditions, and on a graph without a merged
    edge, the components after [label_merged_edges] stay inside a merged
    node: two nodes of one component have the same merged node. *)
Theorem components_stay_inside_a_merged_node :
  (∀ k d, edge G !! k = Some d →
          ∃ m, d !! "merged"%string = Some m ∧ truthy m = false) →
  ∃ G' components,
    label_merged_edges G merged_rag = Return G'
    ∧ get_connected_components G' = Return components
    ∧ ∀ comp x y, comp ∈ components → x ∈ comp → y ∈ comp → rep x = rep y.
Proof.
  intros Hunmerged.
  destruct label_merged_edges_spec as (G' & Hrun & Hdom & Hedges).
  assert (dom (edge G') = dom (edge G)) as Hedom.
  { exact (labelling_edges_dom G merged_rag G' Hrun). }
  assert (∀ u v d', edge G' !! (u, v) = Some d' →
            ∃ d, edge G !! (u, v) = Some d
                 ∧ d' = if decide (rep u = rep v)
                        then <["merged"%string := PyInt 1]> d else d) as Hback.
  { intros u v d' Hd'.
    assert ((u, v) ∈ dom (edge G)) as Hin
      by (rewrite <- Hedom; apply elem_of_dom; eauto).
    apply elem_of_dom in Hin as [d Hd]. exists d. split; [exact Hd |].
    rewrite (Hedges u v d Hd) in Hd'. congruence. }
  destruct (get_connected_components_spec G') as (cs & Hcc & Hmem & _ & _).
  { intros u v d' Hd'. destruct (Hback u v d' Hd') as (d & Hd & ->).
    destruct (decide (rep u = rep v)).
    - rewrite lookup_insert_eq. eauto.
    - destruct (Hunmerged _ _ Hd) as (m & Hm & _). eauto. }
  assert (∀ u v, merged_adjacent G' u v → rep u = rep v) as Hadj.
  { intros u v (d' & m & Hd' & Hm & Ht).
    assert (∀ a b, edge G' !! (a, b) = Some d' → rep a = rep b) as Hcase.
    { intros a b Hab. destruct (Hback a b d' Hab) as (d & Hd & ->).
      destruct (decide (rep a = rep b)) as [Heq | _]; [exact Heq |].
      destruct (Hunmerged _ _ Hd) as (m' & Hm' & Hf). congruence. }
    destruct Hd' as [Hd' | Hd']; [| symmetry]; eapply Hcase, Hd'. }
  assert (∀ u v, merged_connected G' u v → rep u = rep v) as Hconn.
  { intros u v Hc. induction Hc as [| a b c Hab _ IH]; [reflexivity |].
    rewrite (Hadj a b Hab). exact IH. }
  exists G', (elements <$> cs). split; [exact Hrun |]. split; [exact Hcc |].
  intros comp x y Hcomp Hx Hy.
  apply list_elem_of_fmap in Hcomp as (c & -> & Hc).
  destruct (Hmem c Hc) as (v & _ & Hclass).
  apply elem_of_elements, Hclass, Hconn in Hx.
  apply elem_of_elements, Hclass, Hconn in Hy. congruence.
Qed.

End Labelling.

Section Unlisted.
Variables (G merged_rag : Graph).

Hypothesis labels_are_nodes :
  ∀ m data, node merged_rag !! m = Some data →
    ∃ ls, data !! "labels"%string = Some (PyList ls)
          ∧ ∀ x, x ∈ ls → x ∈ dom (node G).

Lemma set_merged_nodes_total (m : Z) (ls : list Z) :
  (∀ x, x ∈ ls → x ∈ dom (node G)) →
  ∀ (P : Z → Prop) Gc,
    relabelled G Gc → untouched G P Gc →
    ∃ Gc', foldl (set_merged_node m) (Return Gc) ls = Return Gc'
           ∧ relabelled G Gc'
           ∧ untouched G (λ x, P x ∨ x ∈ ls) Gc'.
Proof.
  induction ls as [| n ls IH]; intros Hls P Gc Hrel Hunt.
  - exists Gc. split; [reflexivity |]. split; [exact Hrel |].
    intros x Hx. apply Hunt. intros HP. apply Hx. left. exact HP.
  - assert (n ∈ dom (node G)) as Hn by (apply Hls; left).
    assert (∃ d, node Gc !! n = Some d) as [d Hd].
    { apply elem_of_dom. destruct Hrel as (_ & Hdom & _). rewrite Hdom. exact Hn. }
    set (G1 := {| node := <[n := <["merged_node"%string := PyInt m]> d]> (node Gc);
                  edge := edge Gc |}).
    assert (set_merged_node m (Return Gc) n = Return G1) as Hstep.
    { unfold set_merged_node, mbind, result_bind. simpl. rewrite Hd. reflexivity. }
    assert (∀ x, x ∈ ls → x ∈ dom (node G)) as Hls'
      by (intros x Hx; apply Hls; right; exact Hx).
    destruct (IH Hls' (λ x, P x ∨ x = n) G1) as (Gc' & Hrun & Hrel' & Hunt').
    { eapply set_merged_node_relabelled; eauto. }
    { intros x Hx. subst G1. simpl. rewrite lookup_insert_ne.
      - apply Hunt. intros HP. apply Hx. left. exact HP.
      - intros ->. apply Hx. right. reflexivity. }
    exists Gc'. split; [| split; [exact Hrel' |]].
    + cbn [foldl]. rewrite Hstep. exact Hrun.
    + intros x Hx. apply Hunt'. intros [[HP | ->] | Hin]; apply Hx.
      * left. exact HP.
      * right. left.
      * right. right. exact Hin.
Qed.

Lemma label_nodes_total (entries : list (Z * attrs)) :
  (∀ m data, (m, data) ∈ entries → node merged_rag !! m = Some data) →
  ∀ (P : Z → Prop) Gc,
    relabelled G Gc → untouched G P Gc →
    ∃ Gc', foldl label_nodes_of (Return Gc) entries = Return Gc'
           ∧ relabelled G Gc'
           ∧ untouched G (λ x, P x ∨ listed_in entries x) Gc'.
Proof.
  intros Hentries.
  induction entries as [| [m data] entries IH]; intros P Gc Hrel Hunt.
  - exists Gc. split; [reflexivity |]. split; [exact Hrel |].
    intros x Hx. apply Hunt. intros HP. apply Hx. left. exact HP.
  - assert (node merged_rag !! m = Some data) as Hm by (apply Hentries; left).
    destruct (labels_are_nodes m data Hm) as (ls & Hls & Hnodes).
    destruct (set_merged_nodes_total m ls Hnodes P Gc Hrel Hunt)
      as (G1 & Hinner & Hrel1 & Hunt1).
    assert (∀ m data, (m, data) ∈ entries → node merged_rag !! m = Some data)
      as Hentries' by (intros m' data' Hin; apply Hentries; right; exact Hin).
    destruct (IH Hentries' (λ x, P x ∨ x ∈ ls) G1 Hrel1 Hunt1)
      as (Gc' & Hrun & Hrel' & Hunt').
    exists Gc'. split; [| split; [exact Hrel' |]].
    + cbn [foldl]. unfold label_nodes_of at 2. unfold getattr, mbind, result_bind.
      rewrite Hls. cbn [of_option rbind]. rewrite Hinner. exact Hrun.
    + intros x Hx. apply Hunt'. intros [[HP | Hin] | (m' & data' & ls' & Hin & Hl' & Hx')];
        apply Hx.
      * left. exact HP.
      * right. exists m, data, ls. split; [left | auto].
      * right. exists m', data', ls'. split; [right; exact Hin | auto].
Qed.

Lemma mark_merged_KeyError (G1 : Graph) (es : list (Z * Z * attrs)) :
  (∀ u v d, (u, v, d) ∈ es → u ∈ dom (node G1) ∧ v ∈ dom (node G1)) →
  (∃ u v d du dv,
     (u, v, d) ∈ es ∧ node G1 !! u = Some du ∧ node G1 !! v = Some dv
     ∧ (du !! "merged_node"%string = None ∨ dv !! "merged_node"%string = None)) →
  ∀ E, foldl (mark_merged G1) (Return E) es = Raise (KeyError "merged_node").
Proof.
  induction es as [| [[u v] d] es IH]; intros Hes (u' & v' & d' & du' & dv' & Hin & Hu' & Hv' & Hnone) E.
  - inversion Hin.
  - cbn [foldl].
    destruct (Hes u v d) as [Hu Hv]; [left |].
    apply elem_of_dom in Hu as [du Hdu]. apply elem_of_dom in Hv as [dv Hdv].
    assert (∀ u v d, (u, v, d) ∈ es → u ∈ dom (node G1) ∧ v ∈ dom (node G1))
      as Hes' by (intros a b c Habc; apply (Hes a b c); right; exact Habc).
    unfold mark_merged at 2. unfold mbind, result_bind, getattr. cbn [rbind].
    rewrite Hdu. cbn [of_option rbind].
    destruct (du !! "merged_node"%string) as [mu |] eqn:Hmu; cbn [of_option rbind];
      [| apply foldl_Raise, mark_merged_Raise].
    rewrite Hdv. cbn [of_option rbind].
    destruct (dv !! "merged_node"%string) as [mv |] eqn:Hmv; cbn [of_option rbind];
      [| apply foldl_Raise, mark_merged_Raise].
    assert (∃ u v d du dv,
              (u, v, d) ∈ es ∧ node G1 !! u = Some du ∧ node G1 !! v = Some dv
              ∧ (du !! "merged_node"%string = None
                 ∨ dv !! "merged_node"%string = None)) as Hrest.
    { apply elem_of_cons in Hin as [[= -> -> ->] | Hin].
      - exfalso. rewrite Hdu in Hu'. rewrite Hdv in Hv'.
        injection Hu' as <-. injection Hv' as <-.
        destruct Hnone; congruence.
      - exists u', v', d', du', dv'. auto. }
    destruct (py_eq mu mv); apply IH; auto.
Qed.

(** X27.  An endpoint of an edge that no merged node lists, and that
    has no ['merged_node'] from an earlier call, makes
    [label_merged_edges] raise [KeyError('merged_node')]. *)
Theorem unlisted_endpoint_raises_KeyError (u v : Z) (d du : attrs) :
  endpoints_are_nodes G →
  edge G !! (u, v) = Some d ∨ edge G !! (v, u) = Some d →
  ¬ listed merged_rag u →
  node G !! u = Some du →
  du !! "merged_node"%string = None →
  label_merged_edges G merged_rag = Raise (KeyError "merged_node").
Proof.
  intros Hends Hd Hun Hdu Hnone.
  destruct (label_nodes_total (map_to_list (node merged_rag)))
    with (P := λ _ : Z, False) (Gc := G)
    as (G1 & Hnodes & (He & Hdom & _) & Hunt).
  { intros m data Hin. apply elem_of_map_to_list, Hin. }
  { apply relabelled_refl. }
  { intros x _. reflexivity. }
  assert (node G1 !! u = Some du) as Hu1.
  { rewrite Hunt; [exact Hdu |]. intros [[] | Hin]. apply Hun, listed_in_all, Hin. }
  unfold label_merged_edges, mbind, result_bind. rewrite Hnodes. cbn [rbind].
  rewrite mark_merged_KeyError; [reflexivity | |].
  - intros a b c Habc. apply elem_of_edges_iter in Habc. rewrite He in Habc.
    rewrite Hdom. eapply Hends, Habc.
  - destruct Hd as [Hd | Hd].
    + assert (v ∈ dom (node G1)) as Hv
        by (rewrite Hdom; eapply (Hends u v), Hd).
      apply elem_of_dom in Hv as [dv Hdv].
      exists u, v, d, du, dv. split; [apply elem_of_edges_iter; rewrite He; exact Hd |].
      auto.
    + assert (v ∈ dom (node G1)) as Hv
        by (rewrite Hdom; eapply (Hends v u), Hd).
      apply elem_of_dom in Hv as [dv Hdv].
      exists v, u, d, dv, du. split; [apply elem_of_edges_iter; rewrite He; exact Hd |].
      auto.
Qed.

End Unlisted.

End LabellingFacts.

Module RagMoreExamples.
Import Networkx Skimage Rag NpFacts NetworkxFacts RagFacts Examples RagExamples.
Import AttributeFacts ContractedGraphFacts LabellingFacts.

Lemma edge_without_merged_raises_KeyError_witness :
  get_connected_components bare_pair = Raise (KeyError "merged").
Proof.
  exact (edge_without_merged_raises_KeyError bare_pair 1 2 ∅ eq_refl eq_refl).
Defined.

Lemma resetting_merged_separates_the_nodes_witness :
  ∃ components,
    get_connected_components (set_edge_attributes triangle "merged" (PyInt 0))
    = Return components
    ∧ (∀ comp, comp ∈ components → ∃ x, comp = [x] ∧ x ∈ dom (node triangle))
    ∧ (∀ x, x ∈ dom (node triangle) → [x] ∈ components).
Proof.
  exact (resetting_merged_separates_the_nodes triangle (PyInt 0) eq_refl).
Defined.

Lemma essential_edge_attributes_witness :
  ∃ d',
    edge (__add_esential_edge_attributes unmerged_pair) !! (1, 2) = Some d'
    ∧ d' !! "merged"%string = Some (PyInt 0)
    ∧ d' !! "agglomerated"%string = Some (PyInt 0).
Proof.
  destruct (essential_edge_attributes unmerged_pair 1 2
              {[ "merged"%string := PyInt 0 ]} eq_refl)
    as (d' & Hd' & Hm & Ha & _).
  - rewrite dom_singleton_L. intros H. apply elem_of_singleton in H. discriminate.
  - exists d'. split; [exact Hd' |]. split; [exact Hm | exact Ha].
Defined.

Lemma triangle_edges_join_nodes : endpoints_are_nodes triangle.
Proof.
  intros u v d Hd.
  assert (map_Forall (λ (k : Z * Z) _,
            k.1 ∈ dom (node triangle) ∧ k.2 ∈ dom (node triangle))
            (edge triangle))
    as Hall by (refine (bool_decide_unpack _ _); vm_compute; exact I).
  exact (Hall _ _ Hd).
Qed.

Lemma triangle_without_labels :
  ∀ x d, node triangle !! x = Some d → d !! "labels"%string = None.
Proof.
  assert (map_Forall (λ _ d, d !! "labels"%string = None) (node triangle))
    as Hall by (refine (bool_decide_unpack _ _); vm_compute; exact I).
  exact Hall.
Qed.

Lemma triangle_labels_are_lists :
  ∀ x d v, node triangle !! x = Some d → d !! "labels"%string = Some v →
           ∃ ls, v = PyList ls.
Proof.
  intros x d v Hd Hv. rewrite (triangle_without_labels x d Hd) in Hv. discriminate.
Qed.

Lemma triangle_without_loops :
  ∀ u d, edge triangle !! (u, u) = Some d → False.
Proof.
  intros u d Hd.
  assert (map_Forall (λ (k : Z * Z) _, k.1 ≠ k.2) (edge triangle))
    as Hall by (refine (bool_decide_unpack _ _); vm_compute; exact I).
  exact (Hall _ _ Hd eq_refl).
Qed.

Lemma contraction_leaves_the_representatives_witness :
  ∃ components representatives G',
    get_connected_components triangle = Return components
    ∧ Forall2 (λ comp r, last comp = Some r) components representatives
    ∧ contract_merged_nodes triangle None = Return (G', None)
    ∧ (∀ x, x ∈ dom (node G') ↔ x ∈ representatives)
    ∧ endpoints_are_nodes G'.
Proof.
  exact (contraction_leaves_the_representatives triangle
           triangle_merged_everywhere triangle_edges_join_nodes
           triangle_labels_are_lists).
Defined.

Lemma representative_lists_its_component_witness :
  ∃ components representatives G',
    get_connected_components triangle = Return components
    ∧ Forall2 (λ comp r, last comp = Some r) components representatives
    ∧ contract_merged_nodes triangle None = Return (G', None)
    ∧ ∀ comp r, (comp, r) ∈ zip components representatives →
        ∃ d, node G' !! r = Some d
             ∧ d !! "labels"%string = Some (PyList comp).
Proof.
  apply (representative_lists_its_component triangle
           triangle_merged_everywhere triangle_edges_join_nodes
           triangle_labels_are_lists).
  intros x d Hd. left. exact (triangle_without_labels x d Hd).
Defined.

Lemma contraction_leaves_no_merged_edge_witness :
  ∃ G',
    contract_merged_nodes triangle None = Return (G', None)
    ∧ (∀ k d, edge G' !! k = Some d →
              ∃ m, d !! "merged"%string = Some m ∧ truthy m = false).
Proof.
  destruct (contraction_leaves_no_merged_edge triangle
              triangle_merged_everywhere triangle_edges_join_nodes
              triangle_labels_are_lists triangle_without_loops)
    as (G' & Hrun & Hedges & _).
  exists G'. split; [exact Hrun | exact Hedges].
Defined.

Lemma contracted_fragments_match_the_graph_witness :
  ∃ G' array',
    contract_merged_nodes triangle (Some (Node [Leaf 0; Leaf 1; Leaf 2; Leaf 3]))
    = Return (G', Some array')
    ∧ ∀ p l, at_index p (Node [Leaf 0; Leaf 1; Leaf 2; Leaf 3]) = Some l →
        l ∈ dom (node triangle) →
        ∃ r, at_index p array' = Some r ∧ r ∈ dom (node G').
Proof.
  apply (contracted_fragments_match_the_graph triangle
           triangle_merged_everywhere triangle_edges_join_nodes
           triangle_labels_are_lists).
  - discriminate.
  - apply Forall_forall. repeat constructor; lia.
  - intros x Hx. apply elem_of_dom in Hx as [d Hd].
    assert (map_Forall (λ (k : Z) _, 0 ≤ k) (node triangle))
      as Hall by (refine (bool_decide_unpack _ _); vm_compute; exact I).
    exact (Hall _ _ Hd).
Defined.

Lemma relabelling_again_changes_nothing_witness :
  ∃ array'',
    __relabel (Node [Leaf 0; Leaf 1; Leaf 1; Leaf 3]) [[3]; [2; 1]] [3; 1]
    = Return array''
    ∧ ∀ p, at_index p array'' = at_index p (Node [Leaf 0; Leaf 1; Leaf 1; Leaf 3]).
Proof.
  apply (relabelling_again_changes_nothing
           (Node [Leaf 0; Leaf 1; Leaf 2; Leaf 3])
           (Node [Leaf 0; Leaf 1; Leaf 1; Leaf 3]) [[3]; [2; 1]] [3; 1]).
  - discriminate.
  - apply Forall_forall. repeat constructor; lia.
  - intros comp c Hcomp Hc.
    repeat (apply elem_of_cons in Hcomp as [-> | Hcomp]);
      [| | inversion Hcomp];
      repeat (apply elem_of_cons in Hc as [-> | Hc]); try lia; inversion Hc.
  - split; [| split; [| exact I]].
    + intros comp x Hcomp Hx1 Hx2.
      apply list_elem_of_singleton in Hx1 as ->.
      apply list_elem_of_singleton in Hcomp as ->.
      repeat (apply elem_of_cons in Hx2 as [Hx2 | Hx2]; [discriminate |]).
      inversion Hx2.
    + intros comp x Hcomp. inversion Hcomp.
  - reflexivity.
  - intros comp r Hin. simpl in Hin.
    repeat (apply elem_of_cons in Hin as [Hin | Hin];
            [injection Hin as -> ->; set_solver |]).
    inversion Hin.
  - vm_compute. reflexivity.
Defined.

Lemma pair_labels_are_nodes :
  ∀ m data, node pair_as_one !! m = Some data →
    ∃ ls, data !! "labels"%string = Some (PyList ls)
          ∧ ∀ x, x ∈ ls → x ∈ dom (node unmerged_pair).
Proof.
  intros m data H. unfold pair_as_one, only_two, unmerged_pair in H;
    cbn [node edge] in H. apply lookup_singleton_Some in H as [<- <-].
  exists [1; 2]. split; [reflexivity |].
  intros x Hx. simpl. rewrite dom_insert_L, dom_singleton_L. set_solver.
Qed.

Lemma pair_rep_of_label :
  ∀ m data ls x, node pair_as_one !! m = Some data →
    data !! "labels"%string = Some (PyList ls) → x ∈ ls → (λ _ : Z, 2) x = m.
Proof.
  intros m data ls x H _ _. unfold pair_as_one, only_two, unmerged_pair in H;
    cbn [node edge] in H. apply lookup_singleton_Some in H as [<- _].
  reflexivity.
Qed.

Lemma pair_endpoints_listed :
  ∀ u v d, edge unmerged_pair !! (u, v) = Some d →
           listed pair_as_one u ∧ listed pair_as_one v.
Proof.
  intros u v d H. unfold pair_as_one, only_two, unmerged_pair in H;
    cbn [node edge] in H. apply lookup_singleton_Some in H as [[= <- <-] _].
  split; exists 2, {[ "labels"%string := PyList [1; 2] ]}, [1; 2];
    (split; [reflexivity | split; [reflexivity | set_solver]]).
Qed.

Lemma labelling_only_sets_marks_witness :
  ∃ G', label_merged_edges unmerged_pair pair_as_one = Return G'
        ∧ dom (node G') = dom (node unmerged_pair)
        ∧ dom (edge G') = dom (edge unmerged_pair).
Proof.
  destruct (label_merged_edges_spec unmerged_pair pair_as_one
              pair_labels_are_nodes (λ _, 2) pair_rep_of_label
              pair_endpoints_listed) as (G' & Hrun & _).
  exists G'. split; [exact Hrun |].
  destruct (labelling_only_sets_marks unmerged_pair pair_as_one G' Hrun)
    as (Hn & _ & He & _).
  split; [exact Hn | exact He].
Defined.

Lemma labelling_marks_the_edges_inside_a_merged_node_witness :
  ∃ G',
    label_merged_edges unmerged_pair pair_as_one = Return G'
    ∧ ∀ u v d, edge unmerged_pair !! (u, v) = Some d →
        edge G' !! (u, v) = Some (<["merged"%string := PyInt 1]> d).
Proof.
  exact (labelling_marks_the_edges_inside_a_merged_node unmerged_pair
           pair_as_one pair_labels_are_nodes (λ _, 2) pair_rep_of_label
           pair_endpoints_listed).
Defined.

Lemma components_stay_inside_a_merged_node_witness :
  ∃ G' components,
    label_merged_edges unmerged_pair pair_as_one = Return G'
    ∧ get_connected_components G' = Return components.
Proof.
  destruct (components_stay_inside_a_merged_node unmerged_pair pair_as_one
              pair_labels_are_nodes (λ _, 2) pair_rep_of_label
              pair_endpoints_listed)
    as (G' & components & Hrun & Hcc & _).
  - intros k d H. unfold pair_as_one, only_two, unmerged_pair in H;
      cbn [node edge] in H. apply lookup_singleton_Some in H as [_ <-].
    exists (PyInt 0). split; reflexivity.
  - exists G', components. split; [exact Hrun | exact Hcc].
Defined.

Lemma unlisted_endpoint_raises_KeyError_witness :
  label_merged_edges unmerged_pair only_two = Raise (KeyError "merged_node").
Proof.
  refine (unlisted_endpoint_raises_KeyError unmerged_pair only_two _
            1 2 {[ "merged"%string := PyInt 0 ]} ∅ _ _ _ _ _).
  - intros m data H. unfold pair_as_one, only_two, unmerged_pair in H;
      cbn [node edge] in H. apply lookup_singleton_Some in H as [<- <-].
    exists [2]. split; [reflexivity |].
    intros x Hx. simpl. rewrite dom_insert_L, dom_singleton_L. set_solver.
  - intros u v d H. unfold pair_as_one, only_two, unmerged_pair in H;
      cbn [node edge] in H. apply lookup_singleton_Some in H as [[= <- <-] _].
    simpl. rewrite dom_insert_L, dom_singleton_L. set_solver.
  - left. reflexivity.
  - intros (m & data & ls & H & Hl & Hx).
    unfold only_two in H; cbn [node] in H.
    apply lookup_singleton_Some in H as [<- <-].
    injection Hl as <-. apply list_elem_of_singleton in Hx. discriminate.
  - reflexivity.
  - reflexivity.
Defined.

End RagMoreExamples.
